(** * coral_growth: the growth-step engine of [coral_growth/coral.py]

    A shallow embedding of class [Coral] (construction, [step],
    [updateAttributes], [calculateEnergy], [createPolyp], [polypDivision],
    [fitness], [export]), the properties of it that the specification
    states, and further properties of the code.

    Conventions of the embedding.
    - Python integers are [Z]; the population counter, slot indices and
      vertex identifiers, which the code only counts upwards from 0, are
      [nat].  The [uint32] cells of [polyp_memory] and of the local tally
      [foo] are [Z] with the reduction modulo [2^32] written out.
    - A float64 is a [float]: an exact rational, or one of the IEEE
      special values.  The arithmetic of finite values is exact:
      rounding is not modelled, the two zeros are one, and a finite
      result never overflows to an infinity.  A statement that would be
      false of float64 once a finite result overflows carries a bound on
      the magnitudes it is about ([modest_bound], [calm], [small]), far
      enough below the largest float64 for no overflow to occur.
    - numpy arrays and Python lists are [list]s; a read or a write out of
      range raises [IndexError] as numpy and Python do.
    - The mesh (cymesh), the decision network (MultiNEAT) and the modules
      of this package that [coral.py] imports are collaborators: they are
      the fields of the classes [MeshOps] and [Modules].
    - An exception leaves the object as it was mutated so far: [Raised]
      carries the state at the point of the [raise]. *)

From Stdlib Require Import ZArith QArith Qabs Lia Lqa List Bool Permutation.
From stdpp Require Import base option list gmap strings pretty.

Local Open Scope Z_scope.

(** ** Floats *)

Inductive float : Type :=
  | Fin (q : Q)
  | PInf
  | NInf
  | NaN.

Definition fneg (x : float) : float :=
  match x with
  | Fin q => Fin (- q)%Q
  | PInf => NInf
  | NInf => PInf
  | NaN => NaN
  end.

(** The sum of two finite values is their exact sum: float64 rounds it,
    and returns an infinity when it passes the largest float64. *)
Definition fadd (x y : float) : float :=
  match x, y with
  | NaN, _ | _, NaN => NaN
  | PInf, NInf | NInf, PInf => NaN
  | PInf, _ | _, PInf => PInf
  | NInf, _ | _, NInf => NInf
  | Fin a, Fin b => Fin (a + b)%Q
  end.

Definition fsub (x y : float) : float := fadd x (fneg y).

(** The sign of an infinity scaled by a finite factor; [0 * inf] is NaN. *)
Definition scale_inf (pos : bool) (q : Q) : float :=
  match (q ?= 0)%Q with
  | Eq => NaN
  | Gt => if pos then PInf else NInf
  | Lt => if pos then NInf else PInf
  end.

(** The product of two finite values is their exact product: float64
    rounds it, and returns an infinity when it passes the largest
    float64. *)
Definition fmul (x y : float) : float :=
  match x, y with
  | NaN, _ | _, NaN => NaN
  | Fin a, Fin b => Fin (a * b)%Q
  | PInf, Fin b => scale_inf true b
  | NInf, Fin b => scale_inf false b
  | Fin a, PInf => scale_inf true a
  | Fin a, NInf => scale_inf false a
  | PInf, PInf | NInf, NInf => PInf
  | PInf, NInf | NInf, PInf => NInf
  end.

(** numpy division: a finite value over zero is an infinity (NaN for
    [0/0]), a finite value over an infinity is zero. *)
Definition fdiv (x y : float) : float :=
  match x, y with
  | NaN, _ | _, NaN => NaN
  | Fin a, Fin b =>
      if Qeq_bool b 0 then scale_inf true a else Fin (a / b)%Q
  | Fin _, (PInf | NInf) => Fin 0%Q
  | PInf, Fin b => if Qle_bool 0 b then PInf else NInf
  | NInf, Fin b => if Qle_bool 0 b then NInf else PInf
  | (PInf | NInf), (PInf | NInf) => NaN
  end.

(** [x > y]; false as soon as one side is NaN. *)
Definition fgt (x y : float) : bool :=
  match x, y with
  | NaN, _ | _, NaN => false
  | Fin a, Fin b => negb (Qle_bool a b)
  | PInf, (Fin _ | NInf) => true
  | Fin _, NInf => true
  | _, _ => false
  end.

(** [x <= y]; false as soon as one side is NaN. *)
Definition fle (x y : float) : bool :=
  match x, y with
  | NaN, _ | _, NaN => false
  | Fin a, Fin b => Qle_bool a b
  | NInf, _ | _, PInf => true
  | _, _ => false
  end.

(** [x != y]; true as soon as one side is NaN. *)
Definition fne (x y : float) : bool :=
  match x, y with
  | Fin a, Fin b => negb (Qeq_bool a b)
  | PInf, PInf | NInf, NInf => false
  | _, _ => true
  end.

Definition isnan (x : float) : bool :=
  match x with NaN => true | _ => false end.

(** Equality of floats as values: rationals up to [Qeq]. *)
Definition feq (x y : float) : Prop :=
  match x, y with
  | Fin a, Fin b => (a == b)%Q
  | PInf, PInf | NInf, NInf | NaN, NaN => True
  | _, _ => False
  end.

Definition of_Z (z : Z) : float := Fin (inject_Z z).
Definition of_nat (n : nat) : float := of_Z (Z.of_nat n).

(** Python's [sum(xs)]: a left fold that starts from the integer 0. *)
Definition pysum (xs : list float) : float := fold_left fadd xs (of_Z 0).

(** [np.mean(xs)]: the sum over the length, NaN for an empty list. *)
Definition np_mean (xs : list float) : float :=
  fdiv (pysum xs) (of_nat (length xs)).

(** Python's [max(a, b, c)]: the first argument is kept until a later one
    compares greater. *)
Definition pymax3 (a b c : float) : float :=
  let m := if fgt b a then b else a in
  if fgt c m then c else m.

(** A row of a [(max_polyps, 3)] array. *)
Definition vec3 : Type := float * float * float.

Definition vec3_entries (v : vec3) : list float :=
  let '(x, y, z) := v in [x; y; z].

(** [np.sum(a)] over the rows [a] of a two-dimensional array. *)
Definition np_sum (rows : list vec3) : float :=
  pysum (concat (map vec3_entries rows)).

Definition zeros3 : vec3 := (of_Z 0, of_Z 0, of_Z 0).

(** ** Exceptions and results *)

Inductive assertion : Type :=
  | NumInputsMismatch   (* assert network.NumInputs() == self.num_inputs *)
  | NumOutputsMismatch  (* assert network.NumOutputs() == self.num_outputs *)
  | MemoryTooWide       (* assert self.n_memory <= 32 *)
  | NaNPosition         (* assert not np.isnan(...), 'NaN position' *)
  | VertIdMismatch.     (* assert vert.id == idx *)

Inductive exn : Type :=
  | AssertionError (a : assertion)
  | IndexError
  | ValueError.

Inductive result (St A : Type) : Type :=
  | Ok (a : A) (s : St)
  | Raised (e : exn) (s : St).

Arguments Ok {St A} a s.
Arguments Raised {St A} e s.

Definition final {St A} (r : result St A) : St :=
  match r with Ok _ s => s | Raised _ s => s end.

Definition raised {St A} (r : result St A) : option exn :=
  match r with Ok _ _ => None | Raised e _ => Some e end.

(** The 32-bit wrap of an unsigned cell. *)
Definition uint32 (z : Z) : Z := z mod 2 ^ 32.

(** ** The collaborators' types and the state of a [Coral] *)

(** The private state of the objects [coral.py] only holds a reference
    to: the cymesh mesh, the MultiNEAT network, the genome's traits, the
    morphogen solver, the collision manager and the flow grid. *)
Class Externals : Type := {
  Mesh : Type;
  Network : Type;
  Traits : Type;
  MorphogenState : Type;
  CollisionState : Type;
  FlowGrid : Type
}.

(** The attributes of [params] that [Coral.__init__] reads. *)
Record Params : Type := mkParams {
  p_C : float;
  p_polyp_memory : Z;
  p_max_polyps : Z;
  p_max_growth : float;
  p_n_morphogens : Z;
  p_morphogen_steps : Z;
  p_light_amount : float;
  p_morph_thresholds : Z;
  p_max_face_growth : float
}.

(** The attributes of [self], in the order [__init__] sets them.  A vertex
    is named by its identifier [vert.id].  [vert_polyp] holds, for every
    vertex, the entry ['polyp'] of its [data] dictionary; [createPolyp]
    also rebinds [vert.p] and [vert.normal] of that vertex to views of
    rows of [polyp_pos] and [polyp_normal], which changes no value that
    [coral.py] reads.  [function_times] (wall-clock bookkeeping) is left
    out. *)
Record Coral `{Externals} : Type := mkCoral {
  mesh : Mesh;  (* self.mesh *)
  network : Network;  (* self.network *)
  net_depth : Z;
  C : float;
  n_memory : Z;  (* params.polyp_memory *)
  max_polyps : Z;
  max_growth : float;
  morphogens : MorphogenState;  (* the solver's own state *)
  morphogen_steps : Z;
  light_amount : float;
  n_morphogens : Z;
  morph_thresholds : Z;
  spring_strength : float;
  target_edge_len : float;
  polyp_size : float;
  max_edge_len : float;
  max_face_area : float;
  voxel_length : float;
  num_inputs : Z;
  num_outputs : Z;
  age : Z;
  n_polyps : nat;
  polyp_inputs : list (list float);
  polyp_verts : list (option nat);  (* None, or the vertex of the slot *)
  polyp_light : list float;
  polyp_flow : list float;
  polyp_pos : list vec3;
  polyp_pos_next : list vec3;
  polyp_normal : list vec3;
  polyp_gravity : list float;
  polyp_collection : list float;
  polyp_collided : list Z;  (* uint8 *)
  polyp_memory : list Z;  (* uint32 *)
  collisionManager : CollisionState;
  flow_sgrid : option FlowGrid;  (* unset until updateAttributes *)
  energy : option float;  (* unset until calculateEnergy *)
  vert_polyp : gmap nat nat  (* vert.data['polyp'] of every vertex *)
}.

Definition set_mesh `{Externals} (x : Mesh) (s : Coral) : Coral :=
  mkCoral _ x (network s) (net_depth s) (C s) (n_memory s) (max_polyps s)
    (max_growth s) (morphogens s) (morphogen_steps s) (light_amount s)
    (n_morphogens s) (morph_thresholds s) (spring_strength s)
    (target_edge_len s) (polyp_size s) (max_edge_len s) (max_face_area s)
    (voxel_length s) (num_inputs s) (num_outputs s) (age s) (n_polyps s)
    (polyp_inputs s) (polyp_verts s) (polyp_light s) (polyp_flow s)
    (polyp_pos s) (polyp_pos_next s) (polyp_normal s) (polyp_gravity s)
    (polyp_collection s) (polyp_collided s) (polyp_memory s)
    (collisionManager s) (flow_sgrid s) (energy s) (vert_polyp s).

Definition set_age `{Externals} (x : Z) (s : Coral) : Coral :=
  mkCoral _ (mesh s) (network s) (net_depth s) (C s) (n_memory s)
    (max_polyps s) (max_growth s) (morphogens s) (morphogen_steps s)
    (light_amount s) (n_morphogens s) (morph_thresholds s) (spring_strength
    s) (target_edge_len s) (polyp_size s) (max_edge_len s) (max_face_area s)
    (voxel_length s) (num_inputs s) (num_outputs s) x (n_polyps s)
    (polyp_inputs s) (polyp_verts s) (polyp_light s) (polyp_flow s)
    (polyp_pos s) (polyp_pos_next s) (polyp_normal s) (polyp_gravity s)
    (polyp_collection s) (polyp_collided s) (polyp_memory s)
    (collisionManager s) (flow_sgrid s) (energy s) (vert_polyp s).

Definition set_n_polyps `{Externals} (x : nat) (s : Coral) : Coral :=
  mkCoral _ (mesh s) (network s) (net_depth s) (C s) (n_memory s)
    (max_polyps s) (max_growth s) (morphogens s) (morphogen_steps s)
    (light_amount s) (n_morphogens s) (morph_thresholds s) (spring_strength
    s) (target_edge_len s) (polyp_size s) (max_edge_len s) (max_face_area s)
    (voxel_length s) (num_inputs s) (num_outputs s) (age s) x (polyp_inputs
    s) (polyp_verts s) (polyp_light s) (polyp_flow s) (polyp_pos s)
    (polyp_pos_next s) (polyp_normal s) (polyp_gravity s) (polyp_collection
    s) (polyp_collided s) (polyp_memory s) (collisionManager s) (flow_sgrid
    s) (energy s) (vert_polyp s).

Definition set_polyp_verts `{Externals} (x : list (option nat)) (s : Coral) : Coral :=
  mkCoral _ (mesh s) (network s) (net_depth s) (C s) (n_memory s)
    (max_polyps s) (max_growth s) (morphogens s) (morphogen_steps s)
    (light_amount s) (n_morphogens s) (morph_thresholds s) (spring_strength
    s) (target_edge_len s) (polyp_size s) (max_edge_len s) (max_face_area s)
    (voxel_length s) (num_inputs s) (num_outputs s) (age s) (n_polyps s)
    (polyp_inputs s) x (polyp_light s) (polyp_flow s) (polyp_pos s)
    (polyp_pos_next s) (polyp_normal s) (polyp_gravity s) (polyp_collection
    s) (polyp_collided s) (polyp_memory s) (collisionManager s) (flow_sgrid
    s) (energy s) (vert_polyp s).

Definition set_polyp_light `{Externals} (x : list float) (s : Coral) : Coral :=
  mkCoral _ (mesh s) (network s) (net_depth s) (C s) (n_memory s)
    (max_polyps s) (max_growth s) (morphogens s) (morphogen_steps s)
    (light_amount s) (n_morphogens s) (morph_thresholds s) (spring_strength
    s) (target_edge_len s) (polyp_size s) (max_edge_len s) (max_face_area s)
    (voxel_length s) (num_inputs s) (num_outputs s) (age s) (n_polyps s)
    (polyp_inputs s) (polyp_verts s) x (polyp_flow s) (polyp_pos s)
    (polyp_pos_next s) (polyp_normal s) (polyp_gravity s) (polyp_collection
    s) (polyp_collided s) (polyp_memory s) (collisionManager s) (flow_sgrid
    s) (energy s) (vert_polyp s).

Definition set_polyp_pos `{Externals} (x : list vec3) (s : Coral) : Coral :=
  mkCoral _ (mesh s) (network s) (net_depth s) (C s) (n_memory s)
    (max_polyps s) (max_growth s) (morphogens s) (morphogen_steps s)
    (light_amount s) (n_morphogens s) (morph_thresholds s) (spring_strength
    s) (target_edge_len s) (polyp_size s) (max_edge_len s) (max_face_area s)
    (voxel_length s) (num_inputs s) (num_outputs s) (age s) (n_polyps s)
    (polyp_inputs s) (polyp_verts s) (polyp_light s) (polyp_flow s) x
    (polyp_pos_next s) (polyp_normal s) (polyp_gravity s) (polyp_collection
    s) (polyp_collided s) (polyp_memory s) (collisionManager s) (flow_sgrid
    s) (energy s) (vert_polyp s).

Definition set_polyp_memory `{Externals} (x : list Z) (s : Coral) : Coral :=
  mkCoral _ (mesh s) (network s) (net_depth s) (C s) (n_memory s)
    (max_polyps s) (max_growth s) (morphogens s) (morphogen_steps s)
    (light_amount s) (n_morphogens s) (morph_thresholds s) (spring_strength
    s) (target_edge_len s) (polyp_size s) (max_edge_len s) (max_face_area s)
    (voxel_length s) (num_inputs s) (num_outputs s) (age s) (n_polyps s)
    (polyp_inputs s) (polyp_verts s) (polyp_light s) (polyp_flow s)
    (polyp_pos s) (polyp_pos_next s) (polyp_normal s) (polyp_gravity s)
    (polyp_collection s) (polyp_collided s) x (collisionManager s)
    (flow_sgrid s) (energy s) (vert_polyp s).

Definition set_collisionManager `{Externals} (x : CollisionState) (s : Coral) : Coral :=
  mkCoral _ (mesh s) (network s) (net_depth s) (C s) (n_memory s)
    (max_polyps s) (max_growth s) (morphogens s) (morphogen_steps s)
    (light_amount s) (n_morphogens s) (morph_thresholds s) (spring_strength
    s) (target_edge_len s) (polyp_size s) (max_edge_len s) (max_face_area s)
    (voxel_length s) (num_inputs s) (num_outputs s) (age s) (n_polyps s)
    (polyp_inputs s) (polyp_verts s) (polyp_light s) (polyp_flow s)
    (polyp_pos s) (polyp_pos_next s) (polyp_normal s) (polyp_gravity s)
    (polyp_collection s) (polyp_collided s) (polyp_memory s) x (flow_sgrid
    s) (energy s) (vert_polyp s).

Definition set_flow_sgrid `{Externals} (x : option FlowGrid) (s : Coral) : Coral :=
  mkCoral _ (mesh s) (network s) (net_depth s) (C s) (n_memory s)
    (max_polyps s) (max_growth s) (morphogens s) (morphogen_steps s)
    (light_amount s) (n_morphogens s) (morph_thresholds s) (spring_strength
    s) (target_edge_len s) (polyp_size s) (max_edge_len s) (max_face_area s)
    (voxel_length s) (num_inputs s) (num_outputs s) (age s) (n_polyps s)
    (polyp_inputs s) (polyp_verts s) (polyp_light s) (polyp_flow s)
    (polyp_pos s) (polyp_pos_next s) (polyp_normal s) (polyp_gravity s)
    (polyp_collection s) (polyp_collided s) (polyp_memory s)
    (collisionManager s) x (energy s) (vert_polyp s).

Definition set_energy `{Externals} (x : option float) (s : Coral) : Coral :=
  mkCoral _ (mesh s) (network s) (net_depth s) (C s) (n_memory s)
    (max_polyps s) (max_growth s) (morphogens s) (morphogen_steps s)
    (light_amount s) (n_morphogens s) (morph_thresholds s) (spring_strength
    s) (target_edge_len s) (polyp_size s) (max_edge_len s) (max_face_area s)
    (voxel_length s) (num_inputs s) (num_outputs s) (age s) (n_polyps s)
    (polyp_inputs s) (polyp_verts s) (polyp_light s) (polyp_flow s)
    (polyp_pos s) (polyp_pos_next s) (polyp_normal s) (polyp_gravity s)
    (polyp_collection s) (polyp_collided s) (polyp_memory s)
    (collisionManager s) (flow_sgrid s) x (vert_polyp s).

Definition set_vert_polyp `{Externals} (x : gmap nat nat) (s : Coral) : Coral :=
  mkCoral _ (mesh s) (network s) (net_depth s) (C s) (n_memory s)
    (max_polyps s) (max_growth s) (morphogens s) (morphogen_steps s)
    (light_amount s) (n_morphogens s) (morph_thresholds s) (spring_strength
    s) (target_edge_len s) (polyp_size s) (max_edge_len s) (max_face_area s)
    (voxel_length s) (num_inputs s) (num_outputs s) (age s) (n_polyps s)
    (polyp_inputs s) (polyp_verts s) (polyp_light s) (polyp_flow s)
    (polyp_pos s) (polyp_pos_next s) (polyp_normal s) (polyp_gravity s)
    (polyp_collection s) (polyp_collided s) (polyp_memory s)
    (collisionManager s) (flow_sgrid s) (energy s) x.

(** ** The collaborators' operations *)

(** cymesh: what [coral.py] calls on the mesh, its vertices and faces.  A
    face is named by a handle; [edge_length m f k] is the length of the
    edge of the [k]-th half-edge of [f] ([f.he], [f.he.next],
    [f.he.next.next]).  The mesh value stands for the mesh with its
    current geometry. *)
Class MeshOps `{Externals} : Type := {
  mesh_verts : Mesh → list nat;            (* mesh.verts *)
  mesh_faces : Mesh → list nat;            (* mesh.faces *)
  mesh_edges : Mesh → list float;          (* e.length() for e in mesh.edges *)
  neighbors : Mesh → nat → list nat;       (* vert.neighbors() *)
  vert_p : Mesh → nat → vec3;              (* vert.p *)
  edge_length : Mesh → nat → nat → float;
  area : Mesh → nat → float;               (* face.area() *)
  vertices : Mesh → nat → list nat;        (* face.vertices() *)
  split : Mesh → nat → Z → Mesh;           (* split(mesh, face, max_vertices) *)
  calculateNormals : Mesh → Mesh;
  calculateCurvature : Mesh → Mesh
}.

(** MultiNEAT's network sizes, and the modules of this package that
    [coral.py] imports: [grow_polyps], [modules.light], [modules.flowx],
    [modules.gravity], [modules.morphogens], [modules.collisions]. *)
Class Modules `{Externals} : Type := {
  NumInputs : Network → Z;
  NumOutputs : Network → Z;
  trait_spring_strength : Traits → float;  (* traits['spring_strength'] *)
  Morphogens : Mesh → Traits → Z → MorphogenState;
  morphogens_update : Coral → Z → Coral;   (* self.morphogens.update(steps) *)
  MeshCollisionManager : Mesh → list vec3 → float → CollisionState;
  newVert : Coral → nat → CollisionState;  (* collisionManager.newVert(id) *)
  grow_polyps : Coral → Coral;
  calculate_light : Coral → Coral;
  calculate_collection : Coral → Z → Coral * FlowGrid;
  calculate_gravity : Coral → Coral
}.

(** ** Stateful code: a state and exception monad over [Coral] *)

Definition M `{Externals} (A : Type) : Type := Coral → result Coral A.

#[global] Instance M_ret `{Externals} : MRet M := λ A a s, Ok a s.

#[global] Instance M_bind `{Externals} : MBind M := λ A B f m s,
  match m s with
  | Ok a s' => f a s'
  | Raised e s' => Raised e s'
  end.

Definition get `{Externals} : M Coral := λ s, Ok s s.
Definition modify `{Externals} (f : Coral → Coral) : M unit := λ s, Ok () (f s).
Definition raise `{Externals} {A} (e : exn) : M A := λ s, Raised e s.

(** [for x in xs: body(x)] over a list that the body does not change. *)
Fixpoint for_in `{Externals} {A} (xs : list A) (body : A → M unit) : M unit :=
  match xs with
  | [] => mret ()
  | x :: xs => body x;; for_in xs body
  end.

(** ** [Coral.createPolyp] *)

(** [1 << i] *)
Definition bit (i : nat) : Z := Z.shiftl 1 (Z.of_nat i).

(** The inner loop of the tally:
    [for i in range(n_memory): if memory & (1 << i): foo[i] += 1]. *)
Definition count_bits (n : nat) (memory : Z) (foo : list Z) : list Z :=
  fold_left
    (λ foo i,
       if bool_decide (Z.land memory (bit i) ≠ 0)
       then alter (λ c, uint32 (c + 1)) i foo
       else foo)
    (seq 0 n) foo.

(** The loop over the neighbours: those with no ['polyp'] entry are
    skipped; [None] stands for the [IndexError] of reading [polyp_memory]
    out of range. *)
Fixpoint tally (data : gmap nat nat) (memory : list Z) (n : nat)
    (ns : list nat) (foo : list Z) : option (list Z) :=
  match ns with
  | [] => Some foo
  | vert_n :: ns =>
      match data !! vert_n with
      | None => tally data memory n ns foo
      | Some j =>
          match memory !! j with
          | None => None
          | Some w => tally data memory n ns (count_bits n w foo)
          end
      end
  end.

(** One round of the last loop:
    [if foo[i] > half: self.polyp_memory[idx] |= (1 << i)]. *)
Definition vote_bit `{Externals} (idx : nat) (half : Z) (foo : list Z)
    (i : nat) : M unit :=
  match foo !! i with
  | None => raise IndexError
  | Some c =>
      if bool_decide (half < c) then
        s ← get;
        match polyp_memory s !! idx with
        | None => raise IndexError
        | Some w =>
            modify (set_polyp_memory
                      (<[idx := uint32 (Z.lor w (bit i))]> (polyp_memory s)))
        end
      else mret ()
  end.

Definition createPolyp `{MeshOps, !Modules} (vert : nat) : M unit :=
  s0 ← get;
  if bool_decide (Z.of_nat (n_polyps s0) = max_polyps s0) then mret ()
  else
    let idx := n_polyps s0 in
    modify (set_n_polyps (idx + 1)%nat);;
    modify (λ s, set_vert_polyp (<[vert := idx]> (vert_polyp s)) s);;
    (* self.polyp_pos[idx, :] = vert.p *)
    (if bool_decide (idx < length (polyp_pos s0))%nat
     then modify (λ s, set_polyp_pos
                         (<[idx := vert_p (mesh s0) vert]> (polyp_pos s)) s)
     else raise IndexError);;
    (* vert.normal = self.polyp_normal[idx]; vert.p = self.polyp_pos[idx] *)
    (if bool_decide (idx < length (polyp_normal s0))%nat
     then mret () else raise IndexError);;
    (* self.polyp_verts[idx] = vert *)
    (if bool_decide (idx < length (polyp_verts s0))%nat
     then modify (λ s, set_polyp_verts
                         (<[idx := Some vert]> (polyp_verts s)) s)
     else raise IndexError);;
    (* foo = np.zeros(self.n_memory, dtype='uint32') *)
    (if bool_decide (n_memory s0 < 0) then raise ValueError else mret ());;
    let n := Z.to_nat (n_memory s0) in
    let ns := neighbors (mesh s0) vert in
    let half := Z.of_nat (length ns) / 2 in
    s ← get;
    match tally (vert_polyp s) (polyp_memory s) n ns (replicate n 0) with
    | None => raise IndexError
    | Some foo =>
        for_in (seq 0 n) (vote_bit idx half foo);;
        modify (λ s, set_collisionManager (newVert s vert) s);;
        if bool_decide (vert = idx) then mret ()
        else raise (AssertionError VertIdMismatch)
    end.

(** ** [Coral.polypDivision] *)

(** A call [split(self.mesh, face, ...)]: the mesh it was issued on and
    the face. *)
Definition split_call `{Externals} : Type := (Mesh * nat)%type.

(** The two tests of the loop body on one face.  The area is read after
    the first test, on the mesh the first [split] left. *)
Definition divide_face `{MeshOps} (max_edge max_area : float) (max_vertices : Z)
    (face : nat) (m : Mesh) : Mesh * list split_call :=
  let l1 := edge_length m face 0 in
  let l2 := edge_length m face 1 in
  let l3 := edge_length m face 2 in
  let '(m1, calls1) :=
    if fgt (pymax3 l1 l2 l3) max_edge
    then (split m face max_vertices, [(m, face)])
    else (m, []) in
  let '(m2, calls2) :=
    if fgt (area m1 face) max_area
    then (split m1 face max_vertices, [(m1, face)])
    else (m1, []) in
  (m2, calls1 ++ calls2).

(** [for face in self.mesh.faces: ...]: the iterator of a Python list
    reads position [i] of the list as it is when the round starts, so
    faces that [split] appends are visited too, and the loop ends when
    [i] runs past the end or at the [break].  [None]: [fuel] rounds did
    not finish the loop.  The calls to [split] are returned in order. *)
Fixpoint face_loop `{MeshOps} (fuel i : nat) (s : Coral)
    : option (Coral * list split_call) :=
  match mesh_faces (mesh s) !! i with
  | None => Some (s, [])
  | Some face =>
      match fuel with
      | O => None
      | S fuel =>
          let '(m, calls) :=
            divide_face (max_edge_len s) (max_face_area s) (max_polyps s)
              face (mesh s) in
          let s' := set_mesh m s in
          if bool_decide (Z.of_nat (n_polyps s') = max_polyps s')
          then Some (s', calls)
          else
            match face_loop fuel (S i) s' with
            | Some (s'', calls') => Some (s'', calls ++ calls')
            | None => None
            end
      end
  end.

(** [if 'polyp' not in vert.data: self.createPolyp(vert)] *)
Definition bind_vert `{MeshOps, !Modules} (vert : nat) : M unit :=
  s ← get;
  match vert_polyp s !! vert with
  | None => createPolyp vert
  | Some _ => mret ()
  end.

(** [for vert in self.mesh.verts: ...] *)
Definition bind_verts `{MeshOps, !Modules} : M unit :=
  s ← get;
  for_in (mesh_verts (mesh s)) bind_vert.

(** The method returns nothing; the model returns the calls to [split]
    that the pass issued. *)
Definition polypDivision `{MeshOps, !Modules} (fuel : nat) (s : Coral)
    : option (result Coral (list split_call)) :=
  match face_loop fuel 0 s with
  | None => None
  | Some (s', calls) => Some ((bind_verts;; mret calls) s')
  end.

(** ** [Coral.calculateEnergy] *)

(** [arr[v.id] for v in vs]; [None] for an [IndexError]. *)
Definition lookups (arr : list float) (vs : list nat) : option (list float) :=
  mapM (λ v, arr !! v) vs.

(** The loop over the faces, on the accumulators [light], [collection]. *)
Fixpoint energy_loop `{MeshOps} (m : Mesh) (lights collections : list float)
    (fs : list nat) (acc : float * float) : option (float * float) :=
  match fs with
  | [] => Some acc
  | face :: fs =>
      let a := area m face in
      let vs := vertices m face in
      ls ← lookups lights vs;
      cs ← lookups collections vs;
      energy_loop m lights collections fs
        (fadd (fst acc) (fdiv (fmul a (pysum ls)) (of_Z 3)),
         fadd (snd acc) (fdiv (fmul a (pysum cs)) (of_Z 3)))
  end.

Definition calculateEnergy `{MeshOps} : M unit :=
  s ← get;
  match energy_loop (mesh s) (polyp_light s) (polyp_collection s)
          (mesh_faces (mesh s)) (of_Z 0, of_Z 0) with
  | None => raise IndexError
  | Some (light, collection) =>
      modify (set_energy
                (Some (fadd (fmul light (light_amount s))
                            (fmul collection
                                  (fsub (of_Z 1) (light_amount s))))))
  end.

(** ** [Coral.updateAttributes] *)

(** [self.polyp_light[self.polyp_light != 0] -= .5] *)
Definition shift_nonzero (l : list float) : list float :=
  map (λ x, if fne x (of_Z 0) then fsub x (Fin (1 # 2)) else x) l.

(** [self.polyp_light *= 2] *)
Definition double (l : list float) : list float :=
  map (λ x, fmul x (of_Z 2)) l.

(** The stages of [updateAttributes] that come before the two lines on
    [polyp_light]: normals, curvature, light, collection. *)
Definition sense `{MeshOps, !Modules} (s : Coral) : Coral :=
  let s := set_mesh (calculateNormals (mesh s)) s in
  let s := set_mesh (calculateCurvature (mesh s)) s in
  let s := calculate_light s in
  let '(s, grid) := calculate_collection s 2 in
  set_flow_sgrid (Some grid) s.

Definition updateAttributes `{MeshOps, !Modules} : M unit :=
  modify sense;;
  modify (λ s, set_polyp_light (shift_nonzero (polyp_light s)) s);;
  modify (λ s, set_polyp_light (double (polyp_light s)) s);;
  modify calculate_gravity;;
  modify (λ s, morphogens_update s (morphogen_steps s));;
  calculateEnergy.

(** ** [Coral.step] *)

(** [not np.isnan(np.sum(self.polyp_pos[:self.n_polyps]))] *)
Definition position_check `{Externals} (s : Coral) : bool :=
  negb (isnan (np_sum (take (n_polyps s) (polyp_pos s)))).

Definition step `{MeshOps, !Modules} (fuel : nat) (s : Coral)
    : option (result Coral unit) :=
  let s := grow_polyps s in
  if position_check s then
    match polypDivision fuel s with
    | None => None
    | Some (Raised e s) => Some (Raised e s)
    | Some (Ok _ s) =>
        Some ((updateAttributes;;
               modify (λ s, set_age (age s + 1) s)) s)
    end
  else Some (Raised (AssertionError NaNPosition) s).

(** ** [Coral.__init__] *)

(** [np.zeros(n)] and [[None] * n] for a length [n >= 0]. *)
Definition zeros {A} (x : A) (n : Z) : list A := replicate (Z.to_nat n) x.

(** The object as [__init__] has it when it starts to create the polyps
    of the initial mesh.  [m] is the mesh that [Mesh.from_obj] read. *)
Definition fresh `{MeshOps, !Modules} (m : Mesh) (net : Network) (depth : Z)
    (traits : Traits) (params : Params) : Coral :=
  let target := np_mean (mesh_edges m) in
  let size := fmul target (Fin (3 # 10)) in
  let mean_face := np_mean (map (area m) (mesh_faces m)) in
  let n_mem := p_polyp_memory params in
  let n_morph := p_n_morphogens params in
  let cap := p_max_polyps params in
  let n_in := 5 + n_mem + n_morph * (p_morph_thresholds params - 1) in
  let n_out := 1 + n_mem + n_morph in
  let pos := zeros zeros3 cap in
  {| mesh := m;
     network := net;
     net_depth := depth;
     C := p_C params;
     n_memory := n_mem;
     max_polyps := cap;
     max_growth := p_max_growth params;
     morphogens := Morphogens m traits n_morph;
     morphogen_steps := p_morphogen_steps params;
     light_amount := p_light_amount params;
     n_morphogens := n_morph;
     morph_thresholds := p_morph_thresholds params;
     spring_strength := trait_spring_strength traits;
     target_edge_len := target;
     polyp_size := size;
     max_edge_len := fmul target (p_max_face_growth params);
     max_face_area := fmul mean_face (p_max_face_growth params);
     voxel_length := fmul target (Fin (6 # 10));
     num_inputs := n_in;
     num_outputs := n_out;
     age := 0;
     n_polyps := 0;
     polyp_inputs := zeros (zeros (of_Z 0) n_in) cap;
     polyp_verts := zeros None cap;
     polyp_light := zeros (of_Z 0) cap;
     polyp_flow := zeros (of_Z 0) cap;
     polyp_pos := pos;
     polyp_pos_next := zeros zeros3 cap;
     polyp_normal := zeros zeros3 cap;
     polyp_gravity := zeros (of_Z 0) cap;
     polyp_collection := zeros (of_Z 0) cap;
     polyp_collided := zeros 0 cap;
     polyp_memory := zeros 0 cap;
     collisionManager := MeshCollisionManager m pos size;
     flow_sgrid := None;
     energy := None;
     vert_polyp := ∅ |}.

(** [Coral(obj_path, network, net_depth, traits, params)]: the exception
    that construction ends with, or the object. *)
Definition init `{MeshOps, !Modules} (m : Mesh) (net : Network) (depth : Z)
    (traits : Traits) (params : Params) : exn + Coral :=
  let s := fresh m net depth traits params in
  if negb (bool_decide (NumInputs net = num_inputs s)) then
    inl (AssertionError NumInputsMismatch)
  else if negb (bool_decide (NumOutputs net = num_outputs s)) then
    inl (AssertionError NumOutputsMismatch)
  else if negb (bool_decide (n_memory s ≤ 32)) then
    inl (AssertionError MemoryTooWide)
  else if bool_decide (max_polyps s < 0 ∨ num_inputs s < 0) then
    inl ValueError  (* np.zeros with a negative dimension *)
  else
    match (for_in (mesh_verts m) createPolyp;;
           modify (λ s, set_mesh (calculateNormals (mesh s)) s);;
           modify (λ s, set_mesh (calculateCurvature (mesh s)) s);;
           updateAttributes) s with
    | Ok _ s => inr s
    | Raised e _ => inl e
    end.

(** ** A small instance of the collaborators

    Enough of a mesh and of the modules to run the code above on concrete
    inputs: vertices and faces are stored in lists and named by their
    position; lengths and areas are stored, not computed. *)
Module Toy.

Record vert : Type := mkVert {
  v_p : vec3;
  v_ring : list nat
}.

Record face : Type := mkFace {
  f_lengths : float * float * float;
  f_area : float;
  f_verts : list nat
}.

Record tmesh : Type := mkMesh {
  m_verts : list vert;
  m_faces : list face;
  m_edges : list float
}.

#[export] Instance externals : Externals := {|
  Mesh := tmesh;
  Network := Z * Z;
  Traits := float;
  MorphogenState := unit;
  CollisionState := list nat;
  FlowGrid := unit
|}.

Definition third (x : float) : float := fdiv x (of_Z 3).
Definition halved (x : float) : float := fdiv x (of_Z 2).

Definition centroid (a b c : vec3) : vec3 :=
  let '(ax, ay, az) := a in
  let '(bx, by', bz) := b in
  let '(cx, cy, cz) := c in
  (third (fadd (fadd ax bx) cx), third (fadd (fadd ay by') cy),
   third (fadd (fadd az bz) cz)).

Definition point (m : tmesh) (v : nat) : vec3 :=
  default zeros3 (v_p <$> m_verts m !! v).

Definition add_ring (n : nat) (v : vert) : vert :=
  mkVert (v_p v) (v_ring v ++ [n]).

(** A centroid split: the face [a b c] becomes [a b n], and [b c n] and
    [c a n] are appended, each with a third of the area; nothing happens
    once the mesh has [max_vertices] vertices. *)
Definition tsplit (m : tmesh) (f : nat) (max_vertices : Z) : tmesh :=
  if bool_decide (max_vertices ≠ -1 ∧ max_vertices ≤ Z.of_nat (length (m_verts m)))
  then m
  else
    match m_faces m !! f with
    | Some (mkFace (l1, l2, l3) ar [a; b; c]) =>
        let n := length (m_verts m) in
        let p := centroid (point m a) (point m b) (point m c) in
        let vs := alter (add_ring n) a
                    (alter (add_ring n) b
                       (alter (add_ring n) c (m_verts m))) in
        let sub l va vb :=
          mkFace (l, halved l2, halved l3) (third ar) [va; vb; n] in
        mkMesh (vs ++ [mkVert p [a; b; c]])
               (<[f := sub l1 a b]> (m_faces m) ++ [sub l2 b c; sub l3 c a])
               (m_edges m ++ [halved l1; halved l2; halved l3])
    | _ => m
    end.

Definition nth_length (t : float * float * float) (k : nat) : float :=
  let '(l1, l2, l3) := t in
  match k with O => l1 | 1%nat => l2 | _ => l3 end.

#[export] Instance mesh_ops : MeshOps := {|
  mesh_verts m := seq 0 (length (m_verts m));
  mesh_faces m := seq 0 (length (m_faces m));
  mesh_edges m := m_edges m;
  neighbors m v := default [] (v_ring <$> m_verts m !! v);
  vert_p := point;
  edge_length m f k :=
    default (of_Z 0) ((λ x, nth_length (f_lengths x) k) <$> m_faces m !! f);
  area m f := default (of_Z 0) (f_area <$> m_faces m !! f);
  vertices m f := default [] (f_verts <$> m_faces m !! f);
  split := tsplit;
  calculateNormals m := m;
  calculateCurvature m := m
|}.

(** Every live polyp moves up by one. *)
Definition grow (s : Coral) : Coral :=
  set_polyp_pos
    (imap (λ i '(x, y, z),
             if bool_decide (i < n_polyps s)%nat
             then (x, fadd y (of_Z 1), z) else (x, y, z))
          (polyp_pos s)) s.

(** Raw light: three quarters on the first live polyp, none elsewhere. *)
Definition shine (s : Coral) : Coral :=
  set_polyp_light
    (imap (λ i _, if bool_decide (i = 0)%nat then Fin (3 # 4) else of_Z 0)
          (polyp_light s)) s.

#[export] Instance modules : Modules := {|
  NumInputs net := fst net;
  NumOutputs net := snd net;
  trait_spring_strength t := t;
  Morphogens _ _ _ := ();
  morphogens_update s _ := s;
  MeshCollisionManager _ _ _ := [];
  newVert s v := collisionManager s ++ [v];
  grow_polyps := grow;
  calculate_light := shine;
  calculate_collection s _ := (s, ());
  calculate_gravity s := s
|}.

(** One triangle with unit edges. *)
Definition triangle : tmesh :=
  mkMesh
    [mkVert (of_Z 0, of_Z 0, of_Z 0) [1; 2]%nat;
     mkVert (of_Z 1, of_Z 0, of_Z 0) [2; 0]%nat;
     mkVert (of_Z 0, of_Z 1, of_Z 0) [0; 1]%nat]
    [mkFace (of_Z 1, of_Z 1, of_Z 1) (Fin (1 # 2)) [0; 1; 2]%nat]
    [of_Z 1; of_Z 1; of_Z 1].

(** Parameters with [n_mem] memory bits, room for [cap] polyps, one
    morphogen with three thresholds and growth factor [growth]. *)
Definition params (n_mem cap : Z) (growth : float) : Params :=
  mkParams (of_Z 1) n_mem cap (of_Z 1) 1 1 (Fin (1 # 2)) 3 growth.

(** The network whose sizes fit [params n_mem _ _]. *)
Definition net (n_mem : Z) : Z * Z := (5 + n_mem + 2, 1 + n_mem + 1).

(** The coral that construction gives, or the fresh object when
    construction raises. *)
Definition coral (m : tmesh) (n_mem cap : Z) (growth : float) : Coral :=
  match init m (net n_mem) 1 (of_Z 1) (params n_mem cap growth) with
  | inr s => s
  | inl _ => fresh m (net n_mem) 1 (of_Z 1) (params n_mem cap growth)
  end.

(** Three polyps on the triangle, room for five, thresholds at twice the
    means: no face is over a threshold. *)
Definition colony : Coral := coral triangle 2 5 (of_Z 2).

(** The same with room for three polyps only: the colony is full. *)
Definition crowded : Coral := coral triangle 2 3 (of_Z 2).

(** The same as [colony] with thresholds at a tenth of the means. *)
Definition eager : Coral := coral triangle 2 5 (Fin (1 # 10)).

(** [colony] after two splits of face 0, with bit 0 of the memory of
    polyps 0 and 1 set, as the network may set it in [grow_polyps]: the
    vertices 3 and 4 wait for their polyps. *)
Definition frontier : Coral :=
  set_polyp_memory [1; 1; 0; 0; 0]
    (set_mesh (tsplit (tsplit triangle 0 5) 0 5) colony).

(** The mesh of [frontier] with the neighbours of vertex 3 listed in the
    opposite order. *)
Definition reordered : tmesh :=
  let m := mesh frontier in
  mkMesh (alter (λ v, mkVert (v_p v) (rev (v_ring v))) 3%nat (m_verts m))
         (m_faces m) (m_edges m).

(** A fan of one large face and three small ones around vertex 0. *)
Definition lopsided : tmesh :=
  mkMesh
    [mkVert (of_Z 0, of_Z 0, of_Z 0) [1; 2; 3; 4]%nat;
     mkVert (of_Z 4, of_Z 0, of_Z 0) [2; 0; 4]%nat;
     mkVert (of_Z 0, of_Z 4, of_Z 0) [3; 0; 1]%nat;
     mkVert (of_Z (-1), of_Z 0, of_Z 0) [4; 0; 2]%nat;
     mkVert (of_Z 0, of_Z (-1), of_Z 0) [1; 0; 3]%nat]
    [mkFace (of_Z 4, of_Z 4, of_Z 4) (of_Z 10) [0; 1; 2]%nat;
     mkFace (of_Z 1, of_Z 1, of_Z 1) (Fin (1 # 10)) [0; 2; 3]%nat;
     mkFace (of_Z 1, of_Z 1, of_Z 1) (Fin (1 # 10)) [0; 3; 4]%nat;
     mkFace (of_Z 1, of_Z 1, of_Z 1) (Fin (1 # 10)) [0; 4; 1]%nat]
    [of_Z 4; of_Z 4; of_Z 4; of_Z 1; of_Z 1; of_Z 1; of_Z 1; of_Z 1].

(** Five polyps on [lopsided], room for twelve, thresholds at 1.2 times
    the means (2.55 for an edge, 3.09 for an area). *)
Definition sprawling : Coral := coral lopsided 2 12 (Fin (12 # 10)).

(** [crowded] with a NaN in the position of polyp 0. *)
Definition feverish : Coral :=
  set_polyp_pos (<[0%nat := (NaN, of_Z 0, of_Z 0)]> (polyp_pos crowded)) crowded.

(** [colony] with an infinite coordinate in the position of polyp 0. *)
Definition hazy : Coral :=
  set_polyp_pos (<[0%nat := (PInf, of_Z 0, of_Z 0)]> (polyp_pos colony)) colony.

(** [hazy] with the opposite infinity in the position of polyp 1. *)
Definition torn : Coral :=
  set_polyp_pos (<[1%nat := (NInf, of_Z 1, of_Z 0)]> (polyp_pos hazy)) hazy.

(** [colony] with NaN in a row that no polyp uses yet. *)
Definition haunted : Coral :=
  set_polyp_pos (<[4%nat := (NaN, NaN, NaN)]> (polyp_pos colony)) colony.

(** [colony] after one split of face 0, every polyp carrying the word 1:
    the three neighbours of vertex 3 are bound and agree. *)
Definition budding : Coral :=
  set_polyp_memory [1; 1; 1; 0; 0] (set_mesh (tsplit triangle 0 5) colony).

(** The object of [colony] before its first polyp is created. *)
Definition seedling : Coral :=
  fresh triangle (net 2) 1 (of_Z 1) (params 2 5 (of_Z 2)).

(** A full colony whose only face is over both thresholds. *)
Definition packed : Coral := coral triangle 2 3 (Fin (1 # 10)).

(** [crowded] on a mesh that was split without a limit: the colony is
    full, and vertex 3 has no slot in the arrays. *)
Definition overgrown : Coral := set_mesh (tsplit triangle 0 (-1)) crowded.

End Toy.

(** ** Vocabulary of the statements *)

(** The last loop of [createPolyp] on the memory array alone: the error it
    ends with, if any, and the array it leaves. *)
Fixpoint vote_memory (idx : nat) (half : Z) (foo : list Z) (rounds : list nat)
    (memory : list Z) : option exn * list Z :=
  match rounds with
  | [] => (None, memory)
  | i :: rounds =>
      match foo !! i with
      | None => (Some IndexError, memory)
      | Some c =>
          if bool_decide (half < c) then
            match memory !! idx with
            | None => (Some IndexError, memory)
            | Some w =>
                vote_memory idx half foo rounds
                  (<[idx := uint32 (Z.lor w (bit i))]> memory)
            end
          else vote_memory idx half foo rounds memory
      end
  end.

Definition outcome {St} (e : option exn) (s : St) : result St unit :=
  match e with None => Ok () s | Some e => Raised e s end.

(** One increment of a cell of the tally: [foo[i] += 1]. *)
Definition bump (c : Z) : Z := uint32 (c + 1).

(** The memory words of the neighbours that are bound to a polyp, in the
    order of the neighbours. *)
Definition bound_memories (data : gmap nat nat) (memory : list Z)
    (ns : list nat) : list Z :=
  omap (λ v, data !! v ≫= λ j, memory !! j) ns.

(** How many of the words [ws] have bit [i] set. *)
Definition votes (i : nat) (ws : list Z) : nat :=
  length (filter (λ w, Z.testbit w (Z.of_nat i) = true) ws).

(** Every bound neighbour's slot is a slot of [polyp_memory]. *)
Definition slots_in_range (data : gmap nat nat) (memory : list Z)
    (ns : list nat) : Prop :=
  ∀ v j, v ∈ ns → data !! v = Some j → (j < length memory)%nat.

(** The specification's rule of inheritance, in its words: bit [i] of
    the new word [w] is set iff the bound neighbours with bit [i] set are
    strictly more than half of the bound neighbours. *)
Definition majority_of_bound (n : Z) (ws : list Z) (w : Z) : Prop :=
  ∀ i : nat, Z.of_nat i < n →
    (Z.testbit w (Z.of_nat i) = true ↔ (length ws < 2 * votes i ws)%nat).

(** A module leaves the population counter and its ceiling alone. *)
Definition keeps_population `{Externals} (f : Coral → Coral) : Prop :=
  ∀ s, n_polyps (f s) = n_polyps s ∧ max_polyps (f s) = max_polyps s.

(** A module leaves [polyp_light] alone.  Modelled from the spec: the
    sources of [modules.gravity] and [modules.morphogens] are not at
    hand; by sections 3 and 6 of the specification the light array is
    owned by the light calculator alone. *)
Definition keeps_light `{Externals} (f : Coral → Coral) : Prop :=
  ∀ s, polyp_light (f s) = polyp_light s.

(** Modelled from the spec: the sources of [grow_polyps] and of the
    modules [light], [flowx], [gravity] and [morphogens] are not at hand;
    by sections 3 and 6 of the specification each of them writes the
    arrays it owns, and none owns the population counter or its
    ceiling. *)
Class PopulationKept `{MeshOps, !Modules} : Prop := {
  grow_polyps_population : keeps_population grow_polyps;
  calculate_light_population : keeps_population calculate_light;
  calculate_collection_population :
    ∀ k, keeps_population (λ s, fst (calculate_collection s k));
  calculate_gravity_population : keeps_population calculate_gravity;
  morphogens_update_population :
    ∀ k, keeps_population (λ s, morphogens_update s k)
}.

(** Every vertex of every face names a slot below the ceiling, and the
    two arrays that [calculateEnergy] reads have the ceiling's length. *)
Definition faces_below `{MeshOps} (m : Mesh) (k : Z) : Prop :=
  ∀ face v, face ∈ mesh_faces m → v ∈ vertices m face → Z.of_nat v < k.

Definition shaped `{MeshOps} (s : Coral) : Prop :=
  faces_below (mesh s) (max_polyps s) ∧
  Z.of_nat (length (polyp_light s)) = max_polyps s ∧
  Z.of_nat (length (polyp_collection s)) = max_polyps s.

(** Modelled from the spec: the sources of cymesh and of the modules are
    not at hand.  What [step] relies on for its reads in
    [calculateEnergy]: [split] honours [max_vertices] (section 6:
    [subdivide(face, max_vertex_count)], vertex identifiers are the slot
    indices), the passes over normals and curvature keep the faces, and
    the modules, which never resize an array (section 5), keep the mesh
    within the arrays. *)
Class ShapeKept `{MeshOps, !Modules} : Prop := {
  split_below : ∀ m face k, faces_below m k → faces_below (split m face k) k;
  calculateNormals_below : ∀ m k, faces_below m k → faces_below (calculateNormals m) k;
  calculateCurvature_below :
    ∀ m k, faces_below m k → faces_below (calculateCurvature m) k;
  grow_polyps_shaped : ∀ s, shaped s → shaped (grow_polyps s);
  calculate_light_shaped : ∀ s, shaped s → shaped (calculate_light s);
  calculate_collection_shaped :
    ∀ s k, shaped s → shaped (fst (calculate_collection s k));
  calculate_gravity_shaped : ∀ s, shaped s → shaped (calculate_gravity s);
  morphogens_update_shaped : ∀ s k, shaped s → shaped (morphogens_update s k)
}.

(** A face is over a threshold on mesh [m]: one of the two tests of the
    loop body holds. *)
Definition over_threshold `{MeshOps} (s : Coral) (m : Mesh) (face : nat) : Prop :=
  fgt (pymax3 (edge_length m face 0) (edge_length m face 1)
         (edge_length m face 2)) (max_edge_len s) = true
  ∨ fgt (area m face) (max_face_area s) = true.

(** A face is at or below both thresholds on mesh [m]. *)
Definition at_or_below `{MeshOps} (s : Coral) (m : Mesh) (face : nat) : Prop :=
  fle (edge_length m face 0) (max_edge_len s) = true ∧
  fle (edge_length m face 1) (max_edge_len s) = true ∧
  fle (edge_length m face 2) (max_edge_len s) = true ∧
  fle (area m face) (max_face_area s) = true.

(** The value of a slot, for the specification's sums. *)
Definition value_at (arr : list float) (v : nat) : float :=
  default (of_Z 0) (arr !! v).

(** The mean of [arr] over the vertices of a face. *)
Definition vertex_mean `{MeshOps} (m : Mesh) (arr : list float) (face : nat)
    : float :=
  np_mean (value_at arr <$> vertices m face).

(** The sum over the faces of area times vertex mean. *)
Definition surface_total `{MeshOps} (m : Mesh) (arr : list float) : float :=
  pysum ((λ face, fmul (area m face) (vertex_mean m arr face))
           <$> mesh_faces m).

(** The energy as the specification writes it. *)
Definition weighted_energy `{MeshOps} (s : Coral) : float :=
  fadd (fmul (surface_total (mesh s) (polyp_light s)) (light_amount s))
       (fmul (surface_total (mesh s) (polyp_collection s))
             (fsub (of_Z 1) (light_amount s))).

Definition triangular `{MeshOps} (m : Mesh) : Prop :=
  ∀ face, face ∈ mesh_faces m → length (vertices m face) = 3%nat.

Definition reads_in_range `{MeshOps} (s : Coral) : Prop :=
  ∀ face v, face ∈ mesh_faces (mesh s) → v ∈ vertices (mesh s) face →
    (v < length (polyp_light s))%nat ∧ (v < length (polyp_collection s))%nat.

(** The entries of the live rows [polyp_pos[:n_polyps]]. *)
Definition live_entries `{Externals} (s : Coral) : list float :=
  concat (vec3_entries <$> take (n_polyps s) (polyp_pos s)).

(** Construction was refused by one of the two assertions on the sizes
    of the network. *)
Definition shape_refused `{Externals} (r : exn + Coral) : Prop :=
  r = inl (AssertionError NumInputsMismatch)
  ∨ r = inl (AssertionError NumOutputsMismatch).

(** The magnitude of a finite value; a special value counts for
    nothing. *)
Definition magnitude (x : float) : Q :=
  match x with Fin q => Qabs q | _ => 0%Q end.

(** A bound far below the largest float64, which is just under
    [2^1024]. *)
Definition modest_bound : Q := inject_Z (2 ^ 1000).

Definition total_magnitude (xs : list float) : Q :=
  fold_right Qplus 0%Q (magnitude <$> xs).

(** Entries whose sum is not NaN in float64 either, in whatever order it
    is taken: no NaN, no infinities of both signs, and finite entries
    whose magnitudes add up to at most [modest_bound], so that no
    partial sum overflows. *)
Definition calm (xs : list float) : Prop :=
  (NaN ∉ xs) ∧ ¬ (PInf ∈ xs ∧ NInf ∈ xs) ∧
  (total_magnitude xs <= modest_bound)%Q.

(** The rational that a finite float stands for. *)
Definition rat (x : float) : Q :=
  match x with Fin q => q | _ => 0%Q end.

(** The energy in the words of the specification, in the arithmetic of
    the rationals: the sum, the mean of the values of the vertices of a
    face, the sum over the faces of area times mean, and the weighted
    sum of the two totals. *)
Definition Qsum (qs : list Q) : Q := fold_right Qplus 0%Q qs.

Definition mean_of (qs : list Q) : Q :=
  (Qsum qs / inject_Z (Z.of_nat (length qs)))%Q.

Definition total_Q `{MeshOps} (m : Mesh) (arr : list float) : Q :=
  Qsum ((λ face,
           (rat (area m face)
            * mean_of ((λ v, rat (value_at arr v)) <$> vertices m face))%Q)
          <$> mesh_faces m).

Definition energy_Q `{MeshOps} (s : Coral) : Q :=
  (total_Q (mesh s) (polyp_light s) * rat (light_amount s)
   + total_Q (mesh s) (polyp_collection s) * (1 - rat (light_amount s)))%Q.

(** A finite value of magnitude at most [2^200]. *)
Definition small (x : float) : Prop :=
  ∃ q, x = Fin q ∧ (Qabs q <= inject_Z (2 ^ 200))%Q.

(** Inputs of [calculateEnergy] on which float64 cannot overflow: at
    most [2^64] faces, and small areas, values and weight. *)
Definition modest_inputs `{MeshOps} (s : Coral) : Prop :=
  Z.of_nat (length (mesh_faces (mesh s))) ≤ 2 ^ 64 ∧
  small (light_amount s) ∧
  ∀ face, face ∈ mesh_faces (mesh s) →
    small (area (mesh s) face) ∧
    ∀ v, v ∈ vertices (mesh s) face →
      small (value_at (polyp_light s) v) ∧
      small (value_at (polyp_collection s) v).

(** Refutes [H : x ∈ [y1; ...; yn]] when [x] differs from every [yi] by
    its constructor. *)
Ltac absent H :=
  rewrite ?elem_of_cons, ?elem_of_nil in H;
  repeat (destruct H as [H|H]; [discriminate|]);
  exact H.

(** ** [Coral.fitness] and the vocabulary of further properties *)

(** [return self.energy]; [None] stands for the [AttributeError] of
    reading [energy] before [calculateEnergy] has set it. *)
Definition fitness `{Externals} (s : Coral) : option float := energy s.

(** The bindings agree with the slots: a bound vertex is bound to the
    slot of its own identifier, a live one, which holds the vertex; and
    every live slot is the slot of a bound vertex. *)
Definition well_bound `{Externals} (s : Coral) : Prop :=
  (∀ v j, vert_polyp s !! v = Some j →
     j = v ∧ (v < n_polyps s)%nat ∧ polyp_verts s !! v = Some (Some v)) ∧
  (∀ j, (j < n_polyps s)%nat → vert_polyp s !! j = Some j).

(** Every word of [polyp_memory] is within the memory width. *)
Definition memory_within `{Externals} (s : Coral) : Prop :=
  ∀ j w, polyp_memory s !! j = Some w → 0 ≤ w < 2 ^ n_memory s.

(** ** [Coral.export]

    The file is kept as the list of the lines written, each line as the
    values that are formatted into it; the formatting of a number
    ([%f], [%i], [str]) is not modelled.  The matrix [U] of the
    morphogens, the curvature of a vertex and [Mesh.export] are cymesh's
    and the morphogen module's. *)

Class ExportOps `{Externals} : Type := {
  (** [self.morphogens.U[j, i]], [None] where numpy raises [IndexError] *)
  morphogen_U : MorphogenState → nat → nat → option float;
  (** [vert.curvature] of the vertex with the identifier *)
  vert_curvature : Mesh → nat → float;
  (** [self.mesh.export()['faces']]: a row of three indices per face *)
  export_faces : Mesh → list (Z * Z * Z)
}.

(** A value of a ['c'] line: a float, or an integer of the arrays
    [polyp_memory] and [polyp_collided]. *)
Inductive cell : Type :=
  | CFloat (x : float)
  | CInt (z : Z).

Inductive line : Type :=
  | LBanner                          (* '#Exported from coral_growth' *)
  | LSize (x : float)                (* '#attr:polyp_size:%f' *)
  | LHeader (cols : list string)     (* '#coral ' + ' '.join(header) *)
  | LVert (p : vec3) (r g b : float) (* 'v %f %f %f %f %f %f' *)
  | LBlank                           (* an empty line *)
  | LRow (cells : list cell)         (* 'c ' + ' '.join(map(str, attributes)) *)
  | LFace (a b c : Z).               (* 'f %i %i %i' *)

(** The exceptions that [export] can end with. *)
Inductive export_exn : Type :=
  | ExIndexError
  | ExKeyError
  | ExAttributeError   (* [None.id] *)
  | ExTypeError        (* [map(str, None)] *)
  | ExAssertionError.  (* [len(polyp_attributes[indx]) == len(header)] *)

(** [header], with ['u%i' % i] for every morphogen. *)
Definition header (n_morph : Z) : list string :=
  ["light"; "collection"; "gravity"; "curvature"; "memory"; "collided"]
  ++ ((λ i : nat, "u" +:+ pretty i) <$> seq 0 (Z.to_nat n_morph)).

(** The loop over [enumerate(self.mesh.verts)], from position [i] on: the
    lines written, the dictionary [id_to_indx], and the exception that
    ended the loop, if any. *)
Fixpoint vert_loop `{MeshOps, !ExportOps} (s : Coral) (i : nat) (vs : list nat)
    (id_to_indx : gmap nat nat)
    : list line * gmap nat nat * option export_exn :=
  match vs with
  | [] => ([], id_to_indx, None)
  | vert :: vs =>
      let channel (j : nat) : option float :=
        if bool_decide (Z.of_nat j < n_morphogens s)
        then morphogen_U (morphogens s) j i
        else Some (of_Z 0) in
      match channel 0%nat with
      | None => ([], id_to_indx, Some ExIndexError)
      | Some g =>
          match channel 1%nat with
          | None => ([], id_to_indx, Some ExIndexError)
          | Some b =>
              let '(lines, tbl, e) :=
                vert_loop s (S i) vs (<[vert := i]> id_to_indx) in
              (LVert (vert_p (mesh s) vert) (of_Z 0) g b :: lines, tbl, e)
          end
      end
  end.

(** The six attributes that [polyp_attributes[indx]] starts with;
    [None] when a read raises [IndexError]. *)
Definition base_row `{MeshOps, !ExportOps} (s : Coral) (vert i : nat)
    : option (list cell) :=
  l ← polyp_light s !! i;
  c ← polyp_collection s !! i;
  g ← polyp_gravity s !! i;
  m ← polyp_memory s !! i;
  d ← polyp_collided s !! i;
  Some [CFloat l; CFloat c; CFloat g;
        CFloat (vert_curvature (mesh s) vert); CInt m; CInt d].

(** The values [U[j, i]] that the inner loop appends. *)
Definition morphogen_cells `{MeshOps, !ExportOps} (s : Coral) (i : nat)
    : option (list cell) :=
  fmap CFloat <$>
    mapM (λ j, morphogen_U (morphogens s) j i)
         (seq 0 (Z.to_nat (n_morphogens s))).

(** One round of the loop over [range(self.n_polyps)] on the list
    [polyp_attributes]. *)
Definition fill_row `{MeshOps, !ExportOps} (s : Coral)
    (id_to_indx : gmap nat nat) (table : list (option (list cell))) (i : nat)
    : export_exn + list (option (list cell)) :=
  match polyp_verts s !! i with
  | None => inl ExIndexError
  | Some None => inl ExAttributeError
  | Some (Some vert) =>
      match id_to_indx !! vert with
      | None => inl ExKeyError
      | Some indx =>
          match base_row s vert i with
          | None => inl ExIndexError
          | Some row =>
              if bool_decide (indx < length table)%nat then
                match morphogen_cells s i with
                | None => inl ExIndexError
                | Some us =>
                    if bool_decide (length (row ++ us)
                                    = length (header (n_morphogens s)))
                    then inr (<[indx := Some (row ++ us)]> table)
                    else inl ExAssertionError
                end
              else inl ExIndexError
          end
      end
  end.

Fixpoint fill_rows `{MeshOps, !ExportOps} (s : Coral)
    (id_to_indx : gmap nat nat) (table : list (option (list cell)))
    (polyps : list nat) : export_exn + list (option (list cell)) :=
  match polyps with
  | [] => inr table
  | i :: polyps =>
      match fill_row s id_to_indx table i with
      | inl e => inl e
      | inr table => fill_rows s id_to_indx table polyps
      end
  end.

(** The loop that writes the ['c'] lines. *)
Fixpoint row_lines (table : list (option (list cell)))
    : list line * option export_exn :=
  match table with
  | [] => ([], None)
  | None :: _ => ([], Some ExTypeError)
  | Some row :: table =>
      let '(lines, e) := row_lines table in (LRow row :: lines, e)
  end.

Definition face_lines (faces : list (Z * Z * Z)) : list line :=
  (λ '(a, b, c), LFace (a + 1) (b + 1) (c + 1)) <$> faces.

(** [coral.export(path)] on a file that could be opened: the lines
    written, and the exception that ended the call, if any. *)
Definition export `{MeshOps, !ExportOps} (s : Coral)
    : list line * option export_exn :=
  let head := [LBanner; LSize (polyp_size s); LHeader (header (n_morphogens s))] in
  let faces := export_faces (mesh s) in
  match vert_loop s 0 (mesh_verts (mesh s)) ∅ with
  | (verts, _, Some e) => (head ++ verts, Some e)
  | (verts, id_to_indx, None) =>
      let above := head ++ verts ++ [LBlank; LBlank] in
      match fill_rows s id_to_indx (replicate (n_polyps s) None)
              (seq 0 (n_polyps s)) with
      | inl e => (above, Some e)
      | inr table =>
          match row_lines table with
          | (rows, Some e) => (above ++ rows, Some e)
          | (rows, None) =>
              (above ++ rows ++ [LBlank] ++ face_lines faces, None)
          end
      end
  end.

(** The attributes of polyp [i], bound to the vertex [vert], as a ['c']
    line lists them. *)
Definition polyp_cells `{MeshOps, !ExportOps} (s : Coral) (vert i : nat)
    : option (list cell) :=
  row ← base_row s vert i; us ← morphogen_cells s i; Some (row ++ us).


(** A colony that [export] can write: bindings and slots agree, the
    vertices of the mesh are the polyps, in order, the arrays cover the
    live slots, and [U] has a value for every morphogen and polyp. *)
Definition exportable `{MeshOps, !ExportOps} (s : Coral) : Prop :=
  well_bound s ∧
  mesh_verts (mesh s) = seq 0 (n_polyps s) ∧
  (n_polyps s ≤ length (polyp_light s))%nat ∧
  (n_polyps s ≤ length (polyp_collection s))%nat ∧
  (n_polyps s ≤ length (polyp_gravity s))%nat ∧
  (n_polyps s ≤ length (polyp_memory s))%nat ∧
  (n_polyps s ≤ length (polyp_collided s))%nat ∧
  ∀ j i, Z.of_nat j < n_morphogens s → (i < n_polyps s)%nat →
         is_Some (morphogen_U (morphogens s) j i).

(** Every filled entry of [polyp_attributes] was written for a polyp
    whose vertex sits at that position of the mesh. *)
Definition from_polyps `{MeshOps, !ExportOps} (s : Coral) (table : list (option (list cell))) : Prop :=
  ∀ k row, table !! k = Some (Some row) →
    ∃ i vert, (i < n_polyps s)%nat ∧
      polyp_verts s !! i = Some (Some vert) ∧
      mesh_verts (mesh s) !! k = Some vert ∧
      polyp_cells s vert i = Some row.

Module Toy_export.
Import Toy.

(** One morphogen, at a quarter in each of five cells. *)
#[export] Instance export_ops : ExportOps := {|
  morphogen_U _ j i :=
    if bool_decide (j < 1 ∧ i < 5)%nat then Some (Fin (1 # 4)) else None;
  vert_curvature _ _ := of_Z 0;
  export_faces m :=
    omap (λ f, match f_verts f with
               | [a; b; c] => Some (Z.of_nat a, Z.of_nat b, Z.of_nat c)
               | _ => None
               end) (m_faces m)
|}.

End Toy_export.

(** * Properties *)

(** ** Floats as values *)

Lemma feq_equiv : Equivalence feq.
Proof.
  split.
  - intros []; simpl; auto with qarith.
  - intros [] []; simpl; auto with qarith.
  - intros [] [] []; simpl; try tauto. apply Qeq_trans.
Qed.

#[global] Existing Instance feq_equiv.

Lemma scale_inf_proper (b : bool) (q r : Q) :
  (q == r)%Q → scale_inf b q = scale_inf b r.
Proof. intros E. unfold scale_inf. now rewrite E. Qed.

Lemma fadd_proper : Proper (feq ==> feq ==> feq) fadd.
Proof.
  intros [] [] E1 [] [] E2; simpl in *; try tauto. now rewrite E1, E2.
Qed.

#[global] Existing Instance fadd_proper.

Lemma fneg_proper : Proper (feq ==> feq) fneg.
Proof. intros [] [] E; simpl in *; try tauto. now rewrite E. Qed.

#[global] Existing Instance fneg_proper.

Lemma fsub_proper : Proper (feq ==> feq ==> feq) fsub.
Proof. intros ?? E1 ?? E2. unfold fsub. now rewrite E1, E2. Qed.

#[global] Existing Instance fsub_proper.

Lemma fmul_proper : Proper (feq ==> feq ==> feq) fmul.
Proof.
  intros [] [] E1 [] [] E2; simpl in *; try tauto;
    try (now rewrite E1, E2);
    try (rewrite (scale_inf_proper _ _ _ E1); reflexivity);
    try (rewrite (scale_inf_proper _ _ _ E2); reflexivity).
Qed.

#[global] Existing Instance fmul_proper.

Lemma fold_fadd_proper (xs ys : list float) (a b : float) :
  Forall2 feq xs ys → feq a b →
  feq (fold_left fadd xs a) (fold_left fadd ys b).
Proof.
  intros E. revert a b.
  induction E as [|x y xs ys Exy _ IH]; intros a b Eab; simpl.
  - exact Eab.
  - apply IH. now rewrite Eab, Exy.
Qed.

Lemma Forall2_feq_refl (xs : list float) : Forall2 feq xs xs.
Proof. induction xs; constructor; [reflexivity | assumption]. Qed.

(** Dividing by three keeps the sign. *)
Lemma scale_inf_third (b : bool) (q : Q) :
  scale_inf b (q / inject_Z 3)%Q = scale_inf b q.
Proof.
  unfold scale_inf.
  assert (E : ((q / inject_Z 3) ?= 0)%Q = (q ?= 0)%Q).
  { destruct q as [n d]. unfold Qcompare, Qdiv, Qmult, Qinv; simpl.
    rewrite !Z.mul_1_r. destruct n; reflexivity. }
  now rewrite E.
Qed.

(** [(a * x) / 3] and [a * (x / 3)] are the same value. *)
Lemma fdiv_fmul_3 (a x : float) :
  feq (fdiv (fmul a x) (of_Z 3)) (fmul a (fdiv x (of_Z 3))).
Proof.
  destruct a as [p| | |], x as [q| | |]; simpl; try reflexivity.
  - unfold Qdiv. symmetry. apply Qmult_assoc.
  - unfold scale_inf. destruct (p ?= 0)%Q; reflexivity.
  - unfold scale_inf. destruct (p ?= 0)%Q; reflexivity.
  - rewrite scale_inf_third. unfold scale_inf. destruct (q ?= 0)%Q; reflexivity.
  - rewrite scale_inf_third. unfold scale_inf. destruct (q ?= 0)%Q; reflexivity.
Qed.

(** A sum is NaN exactly when it meets a NaN or infinities of both signs. *)
Lemma fold_fadd_isnan (xs : list float) (acc : float) :
  isnan (fold_left fadd xs acc) = true ↔
  NaN ∈ acc :: xs ∨ (PInf ∈ acc :: xs ∧ NInf ∈ acc :: xs).
Proof.
  revert acc. induction xs as [|x xs IH]; intros acc.
  - simpl. rewrite !elem_of_cons, !elem_of_nil.
    destruct acc; simpl; intuition congruence.
  - simpl. rewrite IH. rewrite !(elem_of_cons (x :: xs)), !elem_of_cons.
    destruct acc, x; simpl; intuition congruence.
Qed.

Lemma pysum_isnan (xs : list float) :
  isnan (pysum xs) = true ↔ NaN ∈ xs ∨ (PInf ∈ xs ∧ NInf ∈ xs).
Proof.
  unfold pysum. rewrite fold_fadd_isnan, !elem_of_cons. unfold of_Z.
  intuition congruence.
Qed.

(** ** The state after a setter, and running the monad *)

Section Running.
Context `{MeshOps, !Modules}.

Lemma set_polyp_memory_id (s : Coral) :
  set_polyp_memory (polyp_memory s) s = s.
Proof. destruct s; reflexivity. Qed.

Lemma set_mesh_id (s : Coral) : set_mesh (mesh s) s = s.
Proof. destruct s; reflexivity. Qed.

Lemma bind_run {A B} (m : M A) (k : A → M B) (s : Coral) :
  (m ≫= k) s
  = match m s with
    | Ok a s' => k a s'
    | Raised e s' => Raised e s'
    end.
Proof. reflexivity. Qed.

Lemma bind_modify {A} (f : Coral → Coral) (k : M A) (s : Coral) :
  (modify f;; k) s = k (f s).
Proof. reflexivity. Qed.

Lemma for_in_cons {A} (x : A) (xs : list A) (body : A → M unit) (s : Coral) :
  for_in (x :: xs) body s
  = match body x s with
    | Ok _ s' => for_in xs body s'
    | Raised e s' => Raised e s'
    end.
Proof. reflexivity. Qed.

(** [calculateEnergy] writes [energy] and nothing else, and can only
    raise [IndexError]. *)
Lemma calculateEnergy_frame (s : Coral) :
  (∃ e, calculateEnergy s = Ok () (set_energy (Some e) s))
  ∨ calculateEnergy s = Raised IndexError s.
Proof.
  unfold calculateEnergy, mbind, M_bind, get; simpl.
  destruct (energy_loop _ _ _ _ _) as [[l c]|]; simpl; eauto.
Qed.

Lemma calculateEnergy_light (s : Coral) :
  polyp_light (final (calculateEnergy s)) = polyp_light s.
Proof. destruct (calculateEnergy_frame s) as [[e ->]| ->]; reflexivity. Qed.

End Running.

(** ** The remap of the light ([updateAttributes]) *)

Section Light.
Context `{MeshOps, !Modules}.

Lemma updateAttributes_light (s : Coral) :
  keeps_light calculate_gravity →
  (∀ k, keeps_light (λ s, morphogens_update s k)) →
  polyp_light (final (updateAttributes s))
  = double (shift_nonzero (polyp_light (sense s))).
Proof.
  intros Hg Hm. unfold updateAttributes. rewrite !bind_modify.
  rewrite calculateEnergy_light, (Hm _ _), Hg. reflexivity.
Qed.


End Light.

Section Light_example.
Import Toy.


End Light_example.

(** ** The energy ([calculateEnergy]) *)

Section Energy.
Context `{MeshOps}.

Lemma lookups_in_range (arr : list float) (vs : list nat) :
  (∀ v, v ∈ vs → (v < length arr)%nat) →
  lookups arr vs = Some (value_at arr <$> vs).
Proof.
  intros Hr. unfold lookups. apply mapM_Some.
  induction vs as [|v vs IH]; simpl; constructor.
  - destruct (lookup_lt_is_Some_2 arr v) as [x Hx].
    { apply Hr. left. }
    unfold value_at. now rewrite Hx.
  - apply IH. intros w Hw. apply Hr. now right.
Qed.

(** The share of a triangle: [area * sum / 3] is area times the mean. *)
Lemma face_share (a : float) (xs : list float) :
  length xs = 3%nat →
  feq (fdiv (fmul a (pysum xs)) (of_Z 3)) (fmul a (np_mean xs)).
Proof. intros L. unfold np_mean. rewrite L. apply fdiv_fmul_3. Qed.

Lemma energy_loop_spec (m : Mesh) (L K : list float) (fs : list nat)
    (acc : float * float) :
  (∀ face, face ∈ fs → length (vertices m face) = 3%nat) →
  (∀ face v, face ∈ fs → v ∈ vertices m face →
     (v < length L)%nat ∧ (v < length K)%nat) →
  ∃ l c, energy_loop m L K fs acc = Some (l, c) ∧
    feq l (fold_left fadd
             ((λ face, fmul (area m face) (vertex_mean m L face)) <$> fs)
             (fst acc)) ∧
    feq c (fold_left fadd
             ((λ face, fmul (area m face) (vertex_mean m K face)) <$> fs)
             (snd acc)).
Proof.
  revert acc. induction fs as [|face fs IH]; intros acc H3 Hr; simpl.
  - destruct acc as [l c]. exists l, c. repeat split; reflexivity.
  - rewrite (lookups_in_range L), (lookups_in_range K); simpl.
    2,3: intros v Hv; apply (Hr face v); [left|exact Hv].
    destruct (IH
      (fadd (fst acc)
         (fdiv (fmul (area m face) (pysum (value_at L <$> vertices m face)))
            (of_Z 3)),
       fadd (snd acc)
         (fdiv (fmul (area m face) (pysum (value_at K <$> vertices m face)))
            (of_Z 3))))
      as (l & c & E & El & Ec).
    { intros f Hf. apply H3. now right. }
    { intros f v Hf Hv. apply (Hr f v); [now right|exact Hv]. }
    exists l, c. split; [exact E|]. simpl in El, Ec.
    assert (T : ∀ A : list float,
      feq (fdiv (fmul (area m face) (pysum (value_at A <$> vertices m face)))
             (of_Z 3))
          (fmul (area m face) (vertex_mean m A face))).
    { intros A. apply face_share. rewrite length_fmap. apply H3. left. }
    split.
    + rewrite El. apply fold_fadd_proper; [apply Forall2_feq_refl|].
      apply fadd_proper; [reflexivity | apply T].
    + rewrite Ec. apply fold_fadd_proper; [apply Forall2_feq_refl|].
      apply fadd_proper; [reflexivity | apply T].
Qed.

(** The float operations on finite values, in the rationals. *)
Lemma fold_fadd_rat (xs : list float) (a : Q) :
  Forall (λ x, ∃ q, x = Fin q) xs →
  ∃ r, fold_left fadd xs (Fin a) = Fin r ∧ (r == a + Qsum (rat <$> xs))%Q.
Proof.
  intros Hfin. revert a.
  induction Hfin as [|x xs [q ->] _ IH]; intros a.
  - exists a. split; [reflexivity|]. unfold Qsum. simpl. lra.
  - destruct (IH (a + q)%Q) as (r & Er & Hr). exists r.
    split; [exact Er|]. rewrite Hr.
    change (Qsum (rat <$> Fin q :: xs)) with (q + Qsum (rat <$> xs))%Q.
    generalize (Qsum (rat <$> xs)). intros t. lra.
Qed.

Lemma pysum_rat (xs : list float) :
  Forall (λ x, ∃ q, x = Fin q) xs →
  ∃ r, pysum xs = Fin r ∧ (r == Qsum (rat <$> xs))%Q.
Proof.
  intros Hfin. destruct (fold_fadd_rat xs 0 Hfin) as (r & Er & Hr).
  exists r. split; [exact Er|]. rewrite Hr.
  generalize (Qsum (rat <$> xs)). intros t. lra.
Qed.

Lemma small_finite (x : float) : small x → ∃ q, x = Fin q.
Proof. intros (q & -> & _). eauto. Qed.

Lemma vertex_mean_rat (m : Mesh) (arr : list float) (face : nat) :
  length (vertices m face) = 3%nat →
  (∀ v, v ∈ vertices m face → ∃ q, value_at arr v = Fin q) →
  ∃ r, vertex_mean m arr face = Fin r ∧
       (r == mean_of ((λ v, rat (value_at arr v)) <$> vertices m face))%Q.
Proof.
  intros L Hfin. unfold vertex_mean, np_mean, mean_of.
  rewrite !length_fmap, L.
  destruct (pysum_rat (value_at arr <$> vertices m face)) as (r & -> & Hr).
  { apply Forall_fmap, Forall_forall. exact Hfin. }
  exists (r / inject_Z 3)%Q. split; [reflexivity|].
  rewrite Hr, <- list_fmap_compose. reflexivity.
Qed.

Lemma surface_total_rat (m : Mesh) (arr : list float) :
  triangular m →
  (∀ face, face ∈ mesh_faces m →
     (∃ a, area m face = Fin a) ∧
     ∀ v, v ∈ vertices m face → ∃ q, value_at arr v = Fin q) →
  ∃ r, surface_total m arr = Fin r ∧ (r == total_Q m arr)%Q.
Proof.
  intros Htri Hfin. unfold surface_total, total_Q.
  assert (Hterm : ∀ fs, (∀ face, face ∈ fs → face ∈ mesh_faces m) →
    ∃ qs, (λ face, fmul (area m face) (vertex_mean m arr face)) <$> fs
          = Fin <$> qs ∧
          (Qsum qs ==
           Qsum ((λ face,
                    rat (area m face)
                    * mean_of ((λ v, rat (value_at arr v))
                                 <$> vertices m face)) <$> fs))%Q).
  { induction fs as [|face fs IH]; intros Hall.
    - exists []. split; reflexivity.
    - destruct IH as (qs & Eqs & Hqs); [intros f Hf; apply Hall; now right|].
      destruct (Hfin face) as [[a Ea] Hv]; [apply Hall; left|].
      destruct (vertex_mean_rat m arr face) as (r & Er & Hr);
        [apply Htri, Hall; left | exact Hv |].
      exists ((a * r)%Q :: qs). rewrite !fmap_cons, Eqs, Ea, Er. simpl.
      split; [reflexivity|]. unfold Qsum in *. simpl. rewrite Hqs, Hr.
      reflexivity. }
  destruct (Hterm (mesh_faces m)) as (qs & -> & Hqs); [auto|].
  destruct (pysum_rat (Fin <$> qs)) as (r & -> & Hr).
  { apply Forall_fmap, Forall_forall. intros q _. simpl. eauto. }
  exists r. split; [reflexivity|]. rewrite Hr, <- Hqs.
  assert (Eid : rat <$> (Fin <$> qs) = qs).
  { clear. induction qs as [|q qs IH]; [reflexivity|].
    rewrite !fmap_cons, IH. reflexivity. }
  rewrite Eid. reflexivity.
Qed.

Lemma weighted_energy_rat (s : Coral) :
  triangular (mesh s) → modest_inputs s →
  ∃ r, weighted_energy s = Fin r ∧ (r == energy_Q s)%Q.
Proof.
  intros Htri (_ & Hw & Hfaces). unfold weighted_energy, energy_Q.
  destruct (surface_total_rat (mesh s) (polyp_light s) Htri) as (l & -> & Hl).
  { intros face Hf. destruct (Hfaces face Hf) as [Ha Hv].
    split; [exact (small_finite _ Ha)|].
    intros v Hin. exact (small_finite _ (proj1 (Hv v Hin))). }
  destruct (surface_total_rat (mesh s) (polyp_collection s) Htri)
    as (c & -> & Hc).
  { intros face Hf. destruct (Hfaces face Hf) as [Ha Hv].
    split; [exact (small_finite _ Ha)|].
    intros v Hin. exact (small_finite _ (proj2 (Hv v Hin))). }
  destruct Hw as (w & -> & _). simpl.
  eexists. split; [reflexivity|]. rewrite Hl, Hc.
  change (inject_Z 1) with 1%Q. unfold Qminus. reflexivity.
Qed.


End Energy.

Section Energy_example.
Import Toy.

Lemma colony_modest : modest_inputs colony.
Proof.
  assert (Ef : mesh_faces (mesh colony) = [0%nat]) by (vm_compute; reflexivity).
  assert (Ev : vertices (mesh colony) 0 = [0; 1; 2]%nat)
    by (vm_compute; reflexivity).
  split; [rewrite Ef; simpl; lia|]. split.
  - eexists. split; [vm_compute; reflexivity|]. vm_compute. discriminate.
  - intros face Hf. rewrite Ef in Hf.
    apply list_elem_of_singleton in Hf. subst face. split.
    + eexists. split; [vm_compute; reflexivity|]. vm_compute. discriminate.
    + intros v Hv. rewrite Ev, !elem_of_cons, elem_of_nil in Hv.
      destruct Hv as [->|[->|[->|[]]]]; split;
        (eexists; split; [vm_compute; reflexivity|]; vm_compute; discriminate).
Qed.


End Energy_example.

(** ** Memory inheritance ([createPolyp]) *)

Lemma testbit_bit (i k : nat) :
  Z.testbit (bit i) (Z.of_nat k) = bool_decide (i = k).
Proof.
  unfold bit. rewrite Z.shiftl_1_l, Z.pow2_bits_eqb by lia.
  case_bool_decide; [apply Z.eqb_eq | apply Z.eqb_neq]; lia.
Qed.

Lemma land_bit (w : Z) (i : nat) :
  Z.land w (bit i) ≠ 0 ↔ Z.testbit w (Z.of_nat i) = true.
Proof.
  split.
  - intros Hn. destruct (Z.testbit w (Z.of_nat i)) eqn:E; [reflexivity|].
    exfalso. apply Hn. apply Z.bits_inj_0. intros k.
    rewrite Z.land_spec. destruct (Z_lt_le_dec k 0) as [Hk|Hk].
    + rewrite (Z.testbit_neg_r _ k Hk). reflexivity.
    + rewrite <- (Z2Nat.id k Hk), testbit_bit.
      case_bool_decide as Hik; [|apply andb_false_r].
      subst i. now rewrite E.
  - intros Hb Hz.
    assert (T : Z.testbit (Z.land w (bit i)) (Z.of_nat i) = true).
    { rewrite Z.land_spec, Hb, testbit_bit. now rewrite bool_decide_eq_true_2. }
    rewrite Hz, Z.bits_0 in T. discriminate.
Qed.

Lemma testbit_uint32 (z : Z) (k : nat) :
  (k < 32)%nat → Z.testbit (uint32 z) (Z.of_nat k) = Z.testbit z (Z.of_nat k).
Proof. intros Hk. unfold uint32. apply Z.mod_pow2_bits_low. lia. Qed.

Lemma uint32_small (z : Z) : 0 ≤ z < 2 ^ 32 → uint32 z = z.
Proof. intros Hz. unfold uint32. now apply Z.mod_small. Qed.

Lemma iter_bump (k : nat) : Nat.iter k bump 0 = uint32 (Z.of_nat k).
Proof.
  induction k as [|k IH]; [reflexivity|].
  rewrite Nat.iter_succ, IH. unfold bump, uint32.
  rewrite Zplus_mod_idemp_l. f_equal. lia.
Qed.

Lemma count_bits_lookup (n : nat) (w : Z) (foo : list Z) (i : nat) :
  count_bits n w foo !! i
  = (λ c, if bool_decide (i < n)%nat && Z.testbit w (Z.of_nat i) then bump c else c)
      <$> foo !! i.
Proof.
  unfold count_bits. induction n as [|n IH].
  - simpl. destruct (foo !! i); reflexivity.
  - rewrite seq_S, fold_left_app. simpl.
    assert (Hw : Z.land w (bit n) ≠ 0 ↔ Z.testbit w (Z.of_nat n) = true)
      by apply land_bit.
    destruct (decide (Z.land w (bit n) ≠ 0)) as [Hb|Hb];
      [rewrite (bool_decide_eq_true_2 _ Hb) | rewrite (bool_decide_eq_false_2 _ Hb)].
    + destruct (decide (n = i)) as [->|Hne].
      * rewrite list_lookup_alter_eq, IH. destruct (foo !! i); simpl; [|reflexivity].
        rewrite bool_decide_eq_false_2 by lia.
        rewrite bool_decide_eq_true_2 by lia.
        rewrite (proj1 Hw Hb). reflexivity.
      * rewrite list_lookup_alter_ne by exact Hne. rewrite IH.
        destruct (foo !! i); simpl; [|reflexivity].
        destruct (decide (i < n)%nat).
        -- rewrite !bool_decide_eq_true_2 by lia. reflexivity.
        -- rewrite !bool_decide_eq_false_2 by lia. reflexivity.
    + rewrite IH. destruct (foo !! i); simpl; [|reflexivity].
      destruct (decide (i < n)%nat).
      * rewrite !bool_decide_eq_true_2 by lia. reflexivity.
      * rewrite (bool_decide_eq_false_2 (i < n)%nat) by lia. simpl.
        destruct (decide (i = n)) as [->|Hne].
        -- destruct (Z.testbit w (Z.of_nat n)); [|now rewrite andb_false_r].
           exfalso. apply Hb, Hw. reflexivity.
        -- rewrite bool_decide_eq_false_2 by lia. reflexivity.
Qed.

Lemma bound_memories_cons (data : gmap nat nat) (mem : list Z) (v : nat) (ns : list nat) :
  bound_memories data mem (v :: ns)
  = match data !! v ≫= (λ j, mem !! j) with
    | Some w => w :: bound_memories data mem ns
    | None => bound_memories data mem ns
    end.
Proof. reflexivity. Qed.

Lemma votes_cons (i : nat) (w : Z) (ws : list Z) :
  votes i (w :: ws)
  = if Z.testbit w (Z.of_nat i) then S (votes i ws) else votes i ws.
Proof.
  unfold votes. rewrite filter_cons.
  destruct (decide (Z.testbit w (Z.of_nat i) = true)) as [E|E].
  - now rewrite E.
  - now destruct (Z.testbit w (Z.of_nat i)).
Qed.

Lemma length_omap_le {A B} (f : A → option B) (l : list A) :
  (length (omap f l) ≤ length l)%nat.
Proof.
  induction l as [|x l IH]; simpl; [lia|].
  change (list_omap A B f l) with (omap f l). destruct (f x); simpl; lia.
Qed.

Lemma votes_le (i : nat) (data : gmap nat nat) (mem : list Z) (ns : list nat) :
  (votes i (bound_memories data mem ns) ≤ length ns)%nat.
Proof.
  unfold votes, bound_memories.
  etransitivity; [apply length_filter|]. apply length_omap_le.
Qed.

Lemma tally_Some (data : gmap nat nat) (mem : list Z) (n : nat) (ns : list nat)
    (foo : list Z) :
  slots_in_range data mem ns →
  ∃ foo', tally data mem n ns foo = Some foo' ∧
    ∀ i, foo' !! i
         = Nat.iter (if bool_decide (i < n)%nat
                     then votes i (bound_memories data mem ns) else 0%nat) bump
             <$> foo !! i.
Proof.
  revert foo. induction ns as [|v ns IH]; intros foo Hr.
  - exists foo. split; [reflexivity|]. intros i.
    destruct (foo !! i); simpl; [|reflexivity]. now case_bool_decide.
  - assert (Hr' : slots_in_range data mem ns).
    { intros u j Hu. apply Hr. now right. }
    rewrite bound_memories_cons. cbn [tally].
    destruct (data !! v) as [j|] eqn:Ev; cbn [mbind option_bind].
    + destruct (lookup_lt_is_Some_2 mem j) as [w Ew].
      { apply (Hr v j); [left|exact Ev]. }
      rewrite Ew. destruct (IH (count_bits n w foo) Hr') as (foo' & E & Hl).
      exists foo'. split; [exact E|]. intros i.
      rewrite Hl, count_bits_lookup. destruct (foo !! i) as [c|]; simpl; [|reflexivity].
      f_equal. rewrite votes_cons. case_bool_decide; simpl; [|reflexivity].
      destruct (Z.testbit w (Z.of_nat i)); [|reflexivity].
      now rewrite Nat.iter_succ_r.
    + apply IH, Hr'.
Qed.

Lemma count_bits_comm (n : nat) (w1 w2 : Z) (foo : list Z) :
  count_bits n w1 (count_bits n w2 foo) = count_bits n w2 (count_bits n w1 foo).
Proof.
  apply list_eq. intros i. rewrite !count_bits_lookup.
  destruct (foo !! i) as [c|]; simpl; [|reflexivity].
  destruct (bool_decide (i < n)%nat), (Z.testbit w1 (Z.of_nat i)),
    (Z.testbit w2 (Z.of_nat i)); reflexivity.
Qed.

(** The tally does not depend on the order of the neighbours. *)
Lemma tally_perm (data : gmap nat nat) (mem : list Z) (n : nat) (ns ns' : list nat)
    (foo : list Z) :
  Permutation ns ns' → tally data mem n ns foo = tally data mem n ns' foo.
Proof.
  intros HP. revert foo.
  induction HP as [|x l l' _ IH|x y l|l l' l'' _ IH1 _ IH2]; intros foo.
  - reflexivity.
  - simpl. destruct (data !! x) as [j|]; [|apply IH].
    destruct (mem !! j); [apply IH | reflexivity].
  - simpl. destruct (data !! x) as [j|], (data !! y) as [k|]; try reflexivity.
    destruct (mem !! j) as [w1|], (mem !! k) as [w2|]; try reflexivity.
    now rewrite count_bits_comm.
  - now rewrite IH1.
Qed.

(** With every bound neighbour in range, the tally depends on the
    neighbours through the votes only. *)
Lemma tally_votes (data : gmap nat nat) (mem : list Z) (n : nat)
    (ns ns' : list nat) (foo : list Z) :
  slots_in_range data mem ns → slots_in_range data mem ns' →
  Permutation (bound_memories data mem ns) (bound_memories data mem ns') →
  tally data mem n ns foo = tally data mem n ns' foo.
Proof.
  intros Hr Hr' HP.
  destruct (tally_Some data mem n ns foo Hr) as (foo1 & E1 & H1).
  destruct (tally_Some data mem n ns' foo Hr') as (foo2 & E2 & H2).
  rewrite E1, E2. f_equal. apply list_eq. intros i. rewrite H1, H2.
  assert (Ev : votes i (bound_memories data mem ns)
               = votes i (bound_memories data mem ns')).
  { unfold votes. now rewrite HP. }
  now rewrite Ev.
Qed.

Lemma vote_memory_frame (idx : nat) (half : Z) (foo : list Z) (rounds : list nat)
    (mem : list Z) :
  length (snd (vote_memory idx half foo rounds mem)) = length mem ∧
  (fst (vote_memory idx half foo rounds mem) = None
   ∨ fst (vote_memory idx half foo rounds mem) = Some IndexError).
Proof.
  revert mem. induction rounds as [|i rounds IH]; intros mem; simpl; [auto|].
  destruct (foo !! i) as [c|]; simpl; [|auto].
  case_bool_decide; [|apply IH].
  destruct (mem !! idx) as [w|]; simpl; [|auto].
  destruct (IH (<[idx := uint32 (Z.lor w (bit i))]> mem)) as [L E].
  rewrite length_insert in L. auto.
Qed.

Lemma vote_memory_spec (idx : nat) (half : Z) (foo : list Z) (rounds : list nat)
    (mem : list Z) (w0 : Z) :
  mem !! idx = Some w0 →
  (∀ i, i ∈ rounds → is_Some (foo !! i) ∧ (i < 32)%nat) →
  ∃ w, vote_memory idx half foo rounds mem = (None, <[idx := w]> mem) ∧
    ∀ k, (k < 32)%nat →
      (Z.testbit w (Z.of_nat k) = true ↔
       Z.testbit w0 (Z.of_nat k) = true
       ∨ (k ∈ rounds ∧ ∃ c, foo !! k = Some c ∧ half < c)).
Proof.
  revert mem w0. induction rounds as [|i rounds IH]; intros mem w0 Hw Hr; simpl.
  - exists w0. rewrite (list_insert_id _ _ _ Hw). split; [reflexivity|].
    intros k _. rewrite elem_of_nil. tauto.
  - destruct (Hr i) as [[c Hc] Hi]; [left|]. rewrite Hc.
    assert (Hr' : ∀ j, j ∈ rounds → is_Some (foo !! j) ∧ (j < 32)%nat).
    { intros j Hj. apply Hr. now right. }
    case_bool_decide as Hv.
    + rewrite Hw.
      destruct (IH (<[idx := uint32 (Z.lor w0 (bit i))]> mem)
                  (uint32 (Z.lor w0 (bit i)))) as (w & E & Hb).
      { apply list_lookup_insert_eq. now apply lookup_lt_Some in Hw. }
      { exact Hr'. }
      exists w. rewrite E, list_insert_insert_eq. split; [reflexivity|].
      intros k Hk. rewrite (Hb k Hk), testbit_uint32, Z.lor_spec, testbit_bit by exact Hk.
      rewrite orb_true_iff, bool_decide_eq_true, elem_of_cons.
      split.
      * intros [[Hw0 | <-] | [Hin Hex]].
        -- now left.
        -- right. split; [now left|]. exists c. now split.
        -- right. split; [now right | exact Hex].
      * intros [Hw0 | [[-> | Hin] Hex]].
        -- left. now left.
        -- left. now right.
        -- right. now split.
    + destruct (IH mem w0 Hw Hr') as (w & E & Hb).
      exists w. split; [exact E|]. intros k Hk. rewrite (Hb k Hk), elem_of_cons.
      split.
      * intros [Hw0 | [Hin Hex]]; [now left|].
        right. split; [now right | exact Hex].
      * intros [Hw0 | [[-> | Hin] (c' & Hc' & Hlt)]].
        -- now left.
        -- rewrite Hc in Hc'. injection Hc' as <-. contradiction.
        -- right. split; [exact Hin|]. exists c'. now split.
Qed.

Section CreatePolyp.
Context `{MeshOps, !Modules}.

Lemma vote_loop_pure (idx : nat) (half : Z) (foo : list Z) (rounds : list nat) (s : Coral) :
  for_in rounds (vote_bit idx half foo) s
  = let '(e, memory) := vote_memory idx half foo rounds (polyp_memory s) in
    outcome e (set_polyp_memory memory s).
Proof.
  revert s. induction rounds as [|i rounds IH]; intros s; simpl.
  - now rewrite set_polyp_memory_id.
  - unfold mbind, M_bind, vote_bit at 1.
    destruct (foo !! i) as [c|]; simpl.
    2: now rewrite set_polyp_memory_id.
    case_bool_decide; simpl.
    + unfold mbind, M_bind, get. destruct (polyp_memory s !! idx) as [w|] eqn:E; simpl.
      * rewrite IH. simpl. destruct (vote_memory _ _ _ _ _) as [e m]. reflexivity.
      * now rewrite set_polyp_memory_id.
    + rewrite IH. reflexivity.
Qed.

Lemma createPolyp_unfold (vert : nat) (s : Coral) :
  createPolyp vert s =
  if bool_decide (Z.of_nat (n_polyps s) = max_polyps s) then Ok () s
  else
    let idx := n_polyps s in
    let s1 := set_vert_polyp (<[vert := idx]> (vert_polyp s))
                (set_n_polyps (idx + 1)%nat s) in
    if bool_decide (idx < length (polyp_pos s))%nat then
      let s2 := set_polyp_pos (<[idx := vert_p (mesh s) vert]> (polyp_pos s)) s1 in
      if bool_decide (idx < length (polyp_normal s))%nat then
        if bool_decide (idx < length (polyp_verts s))%nat then
          let s3 := set_polyp_verts (<[idx := Some vert]> (polyp_verts s)) s2 in
          if bool_decide (n_memory s < 0) then Raised ValueError s3
          else
            let n := Z.to_nat (n_memory s) in
            let ns := neighbors (mesh s) vert in
            match tally (<[vert := idx]> (vert_polyp s)) (polyp_memory s) n ns
                    (replicate n 0) with
            | None => Raised IndexError s3
            | Some foo =>
                let '(e, memory) :=
                  vote_memory idx (Z.of_nat (length ns) / 2) foo (seq 0 n)
                    (polyp_memory s) in
                let s4 := set_polyp_memory memory s3 in
                match e with
                | Some e => Raised e s4
                | None =>
                    let s5 := set_collisionManager (newVert s4 vert) s4 in
                    if bool_decide (vert = idx) then Ok () s5
                    else Raised (AssertionError VertIdMismatch) s5
                end
            end
        else Raised IndexError s2
      else Raised IndexError s2
    else Raised IndexError s1.
Proof.
  unfold createPolyp, mbind, M_bind, get, modify, raise, mret, M_ret. simpl.
  repeat (case_bool_decide; simpl; try reflexivity).
  all: destruct (tally _ _ _ _ _) as [foo|]; simpl; [|reflexivity].
  all: rewrite vote_loop_pure; simpl.
  all: destruct (vote_memory _ _ _ _ _) as [[e|] memory]; reflexivity.
Qed.

(** At the ceiling [createPolyp] returns at once and changes nothing. *)
Lemma createPolyp_full (vert : nat) (s : Coral) :
  Z.of_nat (n_polyps s) = max_polyps s → createPolyp vert s = Ok () s.
Proof.
  intros E. rewrite createPolyp_unfold. now rewrite bool_decide_eq_true_2.
Qed.

(** C1 (amended).  When [createPolyp] creates a polyp in a fresh slot
    (its memory word is 0), it reaches the end of the inheritance, and
    bit [i < n_memory] of the new word is set iff the neighbours that are
    bound and have bit [i] set are strictly more than
    [len(neighbors) // 2], half the number of ALL the neighbours of the
    vertex, bound or not.  The only exception left is the final
    [assert vert.id == idx]. *)
Theorem createPolyp_memory_majority (s : Coral) (vert : nat) :
  let idx := n_polyps s in
  let ns := neighbors (mesh s) vert in
  let data := <[vert := idx]> (vert_polyp s) in
  let ws := bound_memories data (polyp_memory s) ns in
  Z.of_nat idx ≠ max_polyps s →
  (idx < length (polyp_pos s))%nat →
  (idx < length (polyp_normal s))%nat →
  (idx < length (polyp_verts s))%nat →
  0 ≤ n_memory s ≤ 32 →
  polyp_memory s !! idx = Some 0 →
  slots_in_range data (polyp_memory s) ns →
  Z.of_nat (length ns) < 2 ^ 32 →
  ∃ w, polyp_memory (final (createPolyp vert s)) !! idx = Some w ∧
       n_polyps (final (createPolyp vert s)) = S idx ∧
       raised (createPolyp vert s)
       = (if bool_decide (vert = idx) then None
          else Some (AssertionError VertIdMismatch)) ∧
       ∀ i : nat, Z.of_nat i < n_memory s →
         (Z.testbit w (Z.of_nat i) = true ↔
          Z.of_nat (length ns) / 2 < Z.of_nat (votes i ws)).
Proof.
  intros idx ns data ws Hcap Hpos Hnor Hver Hmem Hzero Hslots Hlen.
  destruct (tally_Some data (polyp_memory s) (Z.to_nat (n_memory s)) ns
              (replicate (Z.to_nat (n_memory s)) 0) Hslots) as (foo & Et & Hfoo).
  assert (Hcell : ∀ i : nat, Z.of_nat i < n_memory s →
            foo !! i = Some (Z.of_nat (votes i ws))).
  { intros i Hi. rewrite Hfoo, lookup_replicate_2 by lia. simpl.
    rewrite bool_decide_eq_true_2 by lia. rewrite iter_bump, uint32_small; [reflexivity|].
    pose proof (votes_le i data (polyp_memory s) ns) as Hle. unfold ws. lia. }
  destruct (vote_memory_spec idx (Z.of_nat (length ns) / 2) foo
              (seq 0 (Z.to_nat (n_memory s))) (polyp_memory s) 0 Hzero)
    as (w & Ev & Hw).
  { intros i Hi. apply elem_of_seq in Hi. split; [|lia].
    rewrite Hcell by lia. eauto. }
  exists w. rewrite createPolyp_unfold.
  rewrite bool_decide_eq_false_2 by exact Hcap.
  cbv zeta. rewrite !bool_decide_eq_true_2 by assumption.
  rewrite (bool_decide_eq_false_2 (n_memory s < 0)) by lia.
  fold idx ns data. rewrite Et, Ev.
  assert (Hidx : (idx < length (polyp_memory s))%nat)
    by (now apply lookup_lt_Some in Hzero).
  split; [|split; [|split]].
  - case_bool_decide; simpl; now apply list_lookup_insert_eq.
  - case_bool_decide; simpl; lia.
  - case_bool_decide; reflexivity.
  - intros i Hi. rewrite (Hw i) by lia. rewrite Z.bits_0, elem_of_seq.
    split.
    + intros [Hf|[_ (c & Hc & Hlt)]]; [discriminate|].
      rewrite (Hcell i Hi) in Hc. now injection Hc as <-.
    + intros Hlt. right. split; [lia|]. exists (Z.of_nat (votes i ws)).
      split; [now apply Hcell | exact Hlt].
Qed.

(** C9.  [createPolyp] computes the same memory, and ends the same way,
    whatever the order in which the mesh lists the neighbours of the
    vertex; more generally, with every bound neighbour in range, the
    result depends on the neighbours only through their number and the
    multiset of the memory words of the bound ones. *)
Theorem createPolyp_order_independent (s : Coral) (m' : Mesh) (vert : nat) :
  let data := <[vert := n_polyps s]> (vert_polyp s) in
  let ns := neighbors (mesh s) vert in
  let ns' := neighbors m' vert in
  (Permutation ns' ns →
   polyp_memory (final (createPolyp vert (set_mesh m' s)))
   = polyp_memory (final (createPolyp vert s))
   ∧ raised (createPolyp vert (set_mesh m' s)) = raised (createPolyp vert s)) ∧
  (length ns' = length ns →
   Permutation (bound_memories data (polyp_memory s) ns')
               (bound_memories data (polyp_memory s) ns) →
   slots_in_range data (polyp_memory s) ns' →
   slots_in_range data (polyp_memory s) ns →
   polyp_memory (final (createPolyp vert (set_mesh m' s)))
   = polyp_memory (final (createPolyp vert s))
   ∧ raised (createPolyp vert (set_mesh m' s)) = raised (createPolyp vert s)).
Proof.
  intros data ns ns'.
  assert (Hsame : tally data (polyp_memory s) (Z.to_nat (n_memory s)) ns'
                    (replicate (Z.to_nat (n_memory s)) 0)
                  = tally data (polyp_memory s) (Z.to_nat (n_memory s)) ns
                      (replicate (Z.to_nat (n_memory s)) 0) →
                  length ns' = length ns →
                  polyp_memory (final (createPolyp vert (set_mesh m' s)))
                  = polyp_memory (final (createPolyp vert s))
                  ∧ raised (createPolyp vert (set_mesh m' s))
                    = raised (createPolyp vert s)).
  { intros Et El. rewrite !createPolyp_unfold. simpl.
    fold data ns ns'. rewrite Et, El. clear Et El.
    repeat (case_bool_decide; simpl; try (split; reflexivity)).
    all: destruct (tally _ _ _ _ _) as [foo|]; simpl; try (split; reflexivity).
    all: destruct (vote_memory _ _ _ _ _) as [[e|] memory]; simpl;
      split; reflexivity. }
  split.
  - intros HP. apply Hsame; [now apply tally_perm | now apply Permutation_length].
  - intros El HP Hr' Hr. apply Hsame; [now apply tally_votes | exact El].
Qed.

End CreatePolyp.

Section Toy_inheritance.
Import Toy.

Lemma frontier_neighbors : neighbors (mesh frontier) 3 = [0; 1; 2; 4]%nat.
Proof. vm_compute. reflexivity. Qed.

Lemma frontier_bound :
  bound_memories (<[3%nat := n_polyps frontier]> (vert_polyp frontier))
    (polyp_memory frontier) (neighbors (mesh frontier) 3)
  = [1; 1; 0].
Proof. vm_compute. reflexivity. Qed.

(** Vertex 3 of the frontier has the neighbours 0, 1, 2 (bound) and 4
    (not bound); bit 0 is set in two of the three bound words, and two is
    not more than [4 // 2]. *)
Lemma createPolyp_memory_majority_witness :
  ∃ w, polyp_memory (final (createPolyp 3 frontier)) !! n_polyps frontier
       = Some w ∧
       n_polyps (final (createPolyp 3 frontier)) = S (n_polyps frontier) ∧
       raised (createPolyp 3 frontier)
       = (if bool_decide (3%nat = n_polyps frontier) then None
          else Some (AssertionError VertIdMismatch)) ∧
       ∀ i : nat, Z.of_nat i < n_memory frontier →
         (Z.testbit w (Z.of_nat i) = true ↔
          Z.of_nat (length (neighbors (mesh frontier) 3)) / 2
          < Z.of_nat (votes i
              (bound_memories
                 (<[3%nat := n_polyps frontier]> (vert_polyp frontier))
                 (polyp_memory frontier) (neighbors (mesh frontier) 3)))).
Proof.
  apply (createPolyp_memory_majority frontier 3).
  - vm_compute. discriminate.
  - vm_compute. lia.
  - vm_compute. lia.
  - vm_compute. lia.
  - vm_compute. split; discriminate.
  - vm_compute. reflexivity.
  - intros v j Hv Hj. rewrite frontier_neighbors in Hv.
    assert (El : length (polyp_memory frontier) = 5%nat)
      by (vm_compute; reflexivity).
    rewrite El. rewrite !elem_of_cons, elem_of_nil in Hv.
    destruct Hv as [->|[->|[->|[->|[]]]]]; vm_compute in Hj;
      try discriminate; injection Hj as <-; lia.
  - rewrite frontier_neighbors. vm_compute. reflexivity.
Defined.

(** The claim C1 as the specification states it fails: two of the three
    bound neighbours of vertex 3 have bit 0 set, a strict majority of the
    bound neighbours, and yet the new word is 0. *)
Lemma createPolyp_not_majority_of_bound :
  raised (createPolyp 3 frontier) = None ∧
  polyp_memory (final (createPolyp 3 frontier)) !! 3%nat = Some 0 ∧
  ¬ majority_of_bound (n_memory frontier)
      (bound_memories (vert_polyp (final (createPolyp 3 frontier)))
         (polyp_memory frontier) (neighbors (mesh frontier) 3))
      0.
Proof.
  split; [vm_compute; reflexivity|]. split; [vm_compute; reflexivity|].
  assert (E : bound_memories (vert_polyp (final (createPolyp 3 frontier)))
                (polyp_memory frontier) (neighbors (mesh frontier) 3)
              = [1; 1; 0]) by (vm_compute; reflexivity).
  rewrite E. intros Hm.
  destruct (Hm 0%nat) as [_ Hset]; [vm_compute; reflexivity|].
  assert (Hbit : Z.testbit 0 (Z.of_nat 0) = true).
  { apply Hset. vm_compute. lia. }
  discriminate.
Qed.

(** The same vertex with its neighbours listed backwards. *)
Lemma createPolyp_order_independent_witness :
  polyp_memory (final (createPolyp 3 (set_mesh reordered frontier)))
  = polyp_memory (final (createPolyp 3 frontier))
  ∧ raised (createPolyp 3 (set_mesh reordered frontier))
    = raised (createPolyp 3 frontier).
Proof.
  apply (proj1 (createPolyp_order_independent frontier reordered 3)).
  rewrite frontier_neighbors.
  assert (E : neighbors reordered 3 = rev [0; 1; 2; 4]%nat)
    by (vm_compute; reflexivity).
  rewrite E. symmetry. apply Permutation_rev.
Defined.

End Toy_inheritance.

(** ** The population counter ([createPolyp], [polypDivision], [step]) *)

Section Population.
Context `{MeshOps, !Modules}.

(** [createPolyp] adds at most one polyp, never past the ceiling. *)
Lemma createPolyp_population (vert : nat) (s : Coral) :
  max_polyps (final (createPolyp vert s)) = max_polyps s ∧
  (n_polyps s ≤ n_polyps (final (createPolyp vert s)))%nat ∧
  (Z.of_nat (n_polyps s) ≤ max_polyps s →
   Z.of_nat (n_polyps (final (createPolyp vert s))) ≤ max_polyps s).
Proof.
  rewrite createPolyp_unfold.
  repeat (case_bool_decide; simpl; try (repeat split; lia)).
  all: destruct (tally _ _ _ _ _) as [foo|]; simpl; try (repeat split; lia).
  all: destruct (vote_memory _ _ _ _ _) as [[e|] memory]; simpl;
    repeat split; lia.
Qed.

(** The exceptions of [createPolyp]. *)
Lemma createPolyp_raises (vert : nat) (s : Coral) (e : exn) :
  raised (createPolyp vert s) = Some e →
  e = IndexError ∨ e = ValueError ∨ e = AssertionError VertIdMismatch.
Proof.
  rewrite createPolyp_unfold.
  repeat (case_bool_decide; simpl; try (intros [= <-]; tauto); try discriminate).
  all: destruct (tally _ _ _ _ _) as [foo|]; simpl; try (intros [= <-]; tauto).
  all: pose proof (vote_memory_frame (n_polyps s)
        (Z.of_nat (length (neighbors (mesh s) vert)) / 2) foo
        (seq 0 (Z.to_nat (n_memory s))) (polyp_memory s)) as [_ He].
  all: destruct (vote_memory _ _ _ _ _) as [[e'|] memory]; simpl in *;
    try (intros [= <-]; tauto); try discriminate.
  all: destruct He as [He|He]; [discriminate|]; intros [= <-]; left; congruence.
Qed.

Lemma bind_vert_cases (vert : nat) (s : Coral) :
  bind_vert vert s = createPolyp vert s ∨ bind_vert vert s = Ok () s.
Proof.
  unfold bind_vert, mbind, M_bind, get. simpl.
  destruct (vert_polyp s !! vert); auto.
Qed.

Lemma bind_loop_population (vs : list nat) (s : Coral) :
  max_polyps (final (for_in vs bind_vert s)) = max_polyps s ∧
  (n_polyps s ≤ n_polyps (final (for_in vs bind_vert s)))%nat ∧
  (Z.of_nat (n_polyps s) ≤ max_polyps s →
   Z.of_nat (n_polyps (final (for_in vs bind_vert s))) ≤ max_polyps s).
Proof.
  revert s. induction vs as [|v vs IH]; intros s.
  - simpl. repeat split; lia.
  - rewrite for_in_cons.
    assert (Hv : max_polyps (final (bind_vert v s)) = max_polyps s ∧
      (n_polyps s ≤ n_polyps (final (bind_vert v s)))%nat ∧
      (Z.of_nat (n_polyps s) ≤ max_polyps s →
       Z.of_nat (n_polyps (final (bind_vert v s))) ≤ max_polyps s)).
    { destruct (bind_vert_cases v s) as [-> | ->].
      - apply createPolyp_population.
      - simpl. repeat split; lia. }
    destruct (bind_vert v s) as [[] s'|e s']; simpl in Hv; [|exact Hv].
    destruct Hv as (Hm & Hn & Hb). destruct (IH s') as (Hm' & Hn' & Hb').
    rewrite Hm in *. repeat split; [congruence | lia | auto].
Qed.

Lemma bind_loop_raises (vs : list nat) (s : Coral) (e : exn) :
  raised (for_in vs bind_vert s) = Some e →
  e = IndexError ∨ e = ValueError ∨ e = AssertionError VertIdMismatch.
Proof.
  revert s. induction vs as [|v vs IH]; intros s; [discriminate|].
  rewrite for_in_cons. destruct (bind_vert v s) as [[] s'|e' s'] eqn:E.
  - apply IH.
  - simpl. intros [= <-].
    destruct (bind_vert_cases v s) as [Ec | Ec]; rewrite Ec in E; [|discriminate].
    apply (createPolyp_raises v s). now rewrite E.
Qed.

(** At the ceiling the second loop of [polypDivision] changes nothing. *)
Lemma bind_loop_full (vs : list nat) (s : Coral) :
  Z.of_nat (n_polyps s) = max_polyps s → for_in vs bind_vert s = Ok () s.
Proof.
  intros Hfull. induction vs as [|v vs IH]; [reflexivity|].
  rewrite for_in_cons.
  assert (E : bind_vert v s = Ok () s).
  { destruct (bind_vert_cases v s) as [-> | ->]; [|reflexivity].
    now apply createPolyp_full. }
  now rewrite E.
Qed.

Lemma bind_verts_eq (s : Coral) :
  bind_verts s = for_in (mesh_verts (mesh s)) bind_vert s.
Proof. reflexivity. Qed.

(** The loop over the faces changes the mesh and nothing else. *)
Lemma face_loop_mesh (fuel i : nat) (s s' : Coral) (calls : list split_call) :
  face_loop fuel i s = Some (s', calls) → ∃ m, s' = set_mesh m s.
Proof.
  revert i s s' calls. induction fuel as [|fuel IH]; intros i s s' calls; simpl.
  - destruct (mesh_faces (mesh s) !! i); [discriminate|].
    intros [= <- <-]. exists (mesh s). now rewrite set_mesh_id.
  - destruct (mesh_faces (mesh s) !! i) as [face|].
    2: { intros [= <- <-]. exists (mesh s). now rewrite set_mesh_id. }
    destruct (divide_face _ _ _ _ _) as [m calls0].
    case_bool_decide.
    + intros [= <- <-]. now exists m.
    + destruct (face_loop fuel (S i) (set_mesh m s)) as [[s'' calls']|] eqn:E;
        [|discriminate].
      intros [= <- <-]. destruct (IH _ _ _ _ E) as [m' ->]. now exists m'.
Qed.

Lemma polypDivision_population (fuel : nat) (s : Coral)
    (r : result Coral (list split_call)) :
  polypDivision fuel s = Some r →
  max_polyps (final r) = max_polyps s ∧
  (n_polyps s ≤ n_polyps (final r))%nat ∧
  (Z.of_nat (n_polyps s) ≤ max_polyps s →
   Z.of_nat (n_polyps (final r)) ≤ max_polyps s).
Proof.
  unfold polypDivision.
  destruct (face_loop fuel 0 s) as [[s' calls]|] eqn:E; [|discriminate].
  destruct (face_loop_mesh _ _ _ _ _ E) as [m ->]. intros [= <-].
  unfold mbind, M_bind. rewrite bind_verts_eq.
  pose proof (bind_loop_population (mesh_verts (mesh (set_mesh m s)))
                (set_mesh m s)) as Hb.
  destruct (for_in _ bind_vert (set_mesh m s)) as [[] s'|e s']; exact Hb.
Qed.

Lemma polypDivision_raises (fuel : nat) (s : Coral)
    (r : result Coral (list split_call)) (e : exn) :
  polypDivision fuel s = Some r → raised r = Some e →
  e = IndexError ∨ e = ValueError ∨ e = AssertionError VertIdMismatch.
Proof.
  unfold polypDivision.
  destruct (face_loop fuel 0 s) as [[s' calls]|]; [|discriminate].
  intros [= <-]. unfold mbind, M_bind. rewrite bind_verts_eq.
  pose proof (bind_loop_raises (mesh_verts (mesh s')) s' e) as Hb.
  destruct (for_in _ bind_vert s') as [[] s''|e' s'']; [discriminate | exact Hb].
Qed.

(** [updateAttributes] keeps the counter and the ceiling when the modules
    do, and can only raise [IndexError]. *)
Lemma sense_population `{!PopulationKept} (s : Coral) :
  n_polyps (sense s) = n_polyps s ∧ max_polyps (sense s) = max_polyps s.
Proof.
  unfold sense.
  match goal with |- context [calculate_collection (calculate_light ?y) 2] =>
    pose proof (calculate_collection_population 2 (calculate_light y)) as Hc;
    pose proof (calculate_light_population y) as Hl;
    destruct (calculate_collection (calculate_light y) 2) as [s' grid] eqn:E;
    cbv beta in Hc; rewrite E in Hc
  end.
  simpl in *. destruct Hc as [-> ->], Hl as [-> ->]. split; reflexivity.
Qed.

Lemma updateAttributes_population `{!PopulationKept} (s : Coral) :
  n_polyps (final (updateAttributes s)) = n_polyps s ∧
  max_polyps (final (updateAttributes s)) = max_polyps s.
Proof.
  unfold updateAttributes. rewrite !bind_modify.
  match goal with
  | |- context [calculateEnergy (morphogens_update (calculate_gravity ?y) ?k)] =>
      pose proof (morphogens_update_population k (calculate_gravity y)) as Hm;
      pose proof (calculate_gravity_population y) as Hg;
      destruct (calculateEnergy_frame
                  (morphogens_update (calculate_gravity y) k)) as [[e ->]| ->]
  end.
  all: cbv beta in Hm; simpl in *; destruct Hm as [-> ->], Hg as [-> ->];
    apply sense_population.
Qed.

Lemma updateAttributes_raises (s : Coral) (e : exn) :
  raised (updateAttributes s) = Some e → e = IndexError.
Proof.
  unfold updateAttributes. rewrite !bind_modify.
  match goal with |- context [calculateEnergy ?x] =>
    destruct (calculateEnergy_frame x) as [[en ->]| ->] end; simpl.
  - discriminate.
  - now intros [= <-].
Qed.

(** C2.  [createPolyp] at the ceiling returns without a change and
    without raising; and whenever a call of [step] ends, normally or by
    an exception, it leaves [n_polyps] no smaller than it found it and
    no greater than [max_polyps], which it leaves as it was.  The modules
    that [step] calls are taken not to write the two attributes. *)
Theorem population_monotone_bounded :
  (∀ (s : Coral) (vert : nat),
     Z.of_nat (n_polyps s) = max_polyps s → createPolyp vert s = Ok () s) ∧
  (∀ (fuel : nat) (s : Coral) (r : result Coral unit),
     PopulationKept →
     Z.of_nat (n_polyps s) ≤ max_polyps s →
     step fuel s = Some r →
     (n_polyps s ≤ n_polyps (final r))%nat ∧
     Z.of_nat (n_polyps (final r)) ≤ max_polyps (final r) ∧
     max_polyps (final r) = max_polyps s).
Proof.
  split; [intros s vert; apply createPolyp_full|].
  intros fuel s r K Hle. unfold step.
  destruct (grow_polyps_population s) as [Hn Hm].
  destruct (position_check (grow_polyps s)).
  2: { intros [= <-]. simpl. rewrite Hn, Hm. repeat split; lia. }
  destruct (polypDivision fuel (grow_polyps s)) as [rd|] eqn:Ed; [|discriminate].
  destruct (polypDivision_population _ _ _ Ed) as (Hm' & Hn' & Hb').
  rewrite Hn, Hm in *.
  destruct rd as [calls s'|e s']; simpl in *.
  - intros [= <-]. unfold mbind, M_bind.
    destruct (updateAttributes_population s') as [Hun Hum].
    destruct (updateAttributes s') as [[] s''|e s'']; simpl in *;
      rewrite Hun, Hum, Hm'; repeat split; auto.
  - intros [= <-]. simpl. rewrite Hm'. repeat split; auto.
Qed.

End Population.

(** The toy modules write positions and light only. *)
Section Toy_population.
Import Toy.

Lemma toy_population_kept : PopulationKept.
Proof. split; intros; split; reflexivity. Qed.

(** Two steps of the eager toy colony: three polyps, then five. *)
Lemma population_monotone_bounded_witness :
  createPolyp 0 crowded = Ok () crowded ∧
  ∃ r, step 5 eager = Some r ∧
       (n_polyps eager ≤ n_polyps (final r))%nat ∧
       Z.of_nat (n_polyps (final r)) ≤ max_polyps (final r) ∧
       max_polyps (final r) = max_polyps eager.
Proof.
  split.
  - apply (proj1 population_monotone_bounded crowded 0%nat).
    vm_compute. reflexivity.
  - destruct (step 5 eager) as [r|] eqn:E.
    + exists r. split; [reflexivity|].
      apply (proj2 population_monotone_bounded 5%nat eager r).
      * exact toy_population_kept.
      * vm_compute. discriminate.
      * exact E.
    + vm_compute in E. discriminate.
Defined.

End Toy_population.

(** ** A full colony ([step] at the ceiling) *)

(** Calm entries do not sum to NaN. *)
Lemma calm_sum (xs : list float) : calm xs → isnan (pysum xs) = false.
Proof.
  intros (Hn & Hi & _). destruct (isnan (pysum xs)) eqn:E; [|reflexivity].
  apply pysum_isnan in E. tauto.
Qed.

Lemma calm_passes `{Externals} (s : Coral) :
  calm (live_entries s) → position_check s = true.
Proof.
  intros Hc. unfold position_check, np_sum. apply negb_true_iff.
  exact (calm_sum _ Hc).
Qed.

(** A test of [calm] that computes. *)
Lemma calm_check (xs : list float) :
  existsb isnan xs = false →
  existsb (λ x, match x with PInf => true | _ => false end) xs
  && existsb (λ x, match x with NInf => true | _ => false end) xs = false →
  Qle_bool (total_magnitude xs) modest_bound = true →
  calm xs.
Proof.
  assert (Hex : ∀ (p : float → bool) x, x ∈ xs → p x = true →
                  existsb p xs = true).
  { intros p x Hin Hp. apply existsb_exists. exists x.
    split; [now apply list_elem_of_In | exact Hp]. }
  intros Hn Hi Hq. split; [|split].
  - intros Hin. rewrite (Hex isnan NaN Hin eq_refl) in Hn. discriminate.
  - intros [Hp Hm].
    rewrite (Hex _ PInf Hp eq_refl), (Hex _ NInf Hm eq_refl) in Hi.
    discriminate.
  - now apply Qle_bool_iff.
Qed.

Section Capacity.
Context `{MeshOps, !Modules}.

Lemma energy_loop_total (m : Mesh) (L K : list float) (fs : list nat)
    (acc : float * float) :
  (∀ face v, face ∈ fs → v ∈ vertices m face →
     (v < length L)%nat ∧ (v < length K)%nat) →
  is_Some (energy_loop m L K fs acc).
Proof.
  revert acc. induction fs as [|face fs IH]; intros acc Hr; simpl; [eauto|].
  rewrite (lookups_in_range L), (lookups_in_range K); simpl.
  2,3: intros v Hv; apply (Hr face v); [left|exact Hv].
  apply IH. intros f v Hf. apply Hr. now right.
Qed.

Lemma shaped_reads (s : Coral) : shaped s → reads_in_range s.
Proof.
  intros (Hf & Hl & Hc) face v Hface Hv. specialize (Hf face v Hface Hv). lia.
Qed.

Lemma calculateEnergy_shaped (s : Coral) :
  shaped s → ∃ e, calculateEnergy s = Ok () (set_energy (Some e) s).
Proof.
  intros Hs.
  destruct (energy_loop_total (mesh s) (polyp_light s) (polyp_collection s)
              (mesh_faces (mesh s)) (of_Z 0, of_Z 0) (shaped_reads s Hs))
    as [[l c] E].
  unfold calculateEnergy, mbind, M_bind, get. simpl. rewrite E. simpl. eauto.
Qed.

Lemma divide_face_below `{!ShapeKept} (me ma : float) (k : Z) (face : nat)
    (m : Mesh) :
  faces_below m k → faces_below (fst (divide_face me ma k face m)) k.
Proof.
  intros Hm. unfold divide_face.
  destruct (fgt (pymax3 _ _ _) me); destruct (fgt (area _ face) ma); simpl;
    repeat apply split_below; exact Hm.
Qed.

(** At the ceiling the loop over the faces ends after its first round. *)
Lemma face_loop_full `{!ShapeKept} (fuel : nat) (s : Coral) :
  Z.of_nat (n_polyps s) = max_polyps s →
  ∃ m calls, face_loop (S fuel) 0 s = Some (set_mesh m s, calls) ∧
             (faces_below (mesh s) (max_polyps s) →
              faces_below m (max_polyps s)).
Proof.
  intros Hfull. simpl. destruct (mesh_faces (mesh s) !! 0%nat) as [face|].
  - pose proof (divide_face_below (max_edge_len s) (max_face_area s)
                  (max_polyps s) face (mesh s)) as Hb.
    destruct (divide_face _ _ _ _ _) as [m calls]. simpl in *.
    rewrite bool_decide_eq_true_2 by exact Hfull. eauto.
  - exists (mesh s), []. now rewrite set_mesh_id.
Qed.

Lemma sense_shaped `{!ShapeKept} (s : Coral) : shaped s → shaped (sense s).
Proof.
  intros (Hf & Hl & Hc). unfold sense.
  match goal with |- context [calculate_collection (calculate_light ?y) 2] =>
    assert (Hy : shaped y);
    [|pose proof (calculate_collection_shaped _ 2
                    (calculate_light_shaped y Hy)) as Hcc;
      destruct (calculate_collection (calculate_light y) 2) as [s' grid]]
  end.
  - split; [|split]; simpl; [|assumption..].
    now apply calculateCurvature_below, calculateNormals_below.
  - exact Hcc.
Qed.

Lemma updateAttributes_shaped `{!ShapeKept} (s : Coral) :
  shaped s → ∃ s', updateAttributes s = Ok () s'.
Proof.
  intros Hs. unfold updateAttributes. rewrite !bind_modify.
  match goal with |- context [calculateEnergy ?x] =>
    destruct (calculateEnergy_shaped x) as [e ->]; [|eauto] end.
  apply morphogens_update_shaped, calculate_gravity_shaped.
  destruct (sense_shaped s Hs) as (Hf & Hl & Hc).
  split; [|split]; simpl; [exact Hf| |exact Hc].
  unfold double, shift_nonzero. now rewrite !length_fmap.
Qed.

(** What [createPolyp] leaves of the shape, whatever its outcome. *)
Lemma createPolyp_shape (vert : nat) (s : Coral) :
  mesh (final (createPolyp vert s)) = mesh s ∧
  max_polyps (final (createPolyp vert s)) = max_polyps s ∧
  polyp_light (final (createPolyp vert s)) = polyp_light s ∧
  polyp_collection (final (createPolyp vert s)) = polyp_collection s.
Proof.
  rewrite createPolyp_unfold.
  repeat (case_bool_decide; simpl; try tauto).
  all: destruct (tally _ _ _ _ _) as [foo|]; simpl; try tauto.
  all: destruct (vote_memory _ _ _ _ _) as [[e'|] memory]; simpl; tauto.
Qed.

Lemma createPolyp_shaped (vert : nat) (s : Coral) :
  shaped s → shaped (final (createPolyp vert s)).
Proof.
  destruct (createPolyp_shape vert s) as (Em & Ek & El & Ec).
  unfold shaped. now rewrite Em, Ek, El, Ec.
Qed.

Lemma bind_loop_shaped (vs : list nat) (s : Coral) :
  shaped s → shaped (final (for_in vs bind_vert s)).
Proof.
  revert s. induction vs as [|v vs IH]; intros s Hs; [exact Hs|].
  rewrite for_in_cons.
  assert (Hv : shaped (final (bind_vert v s))).
  { unfold bind_vert, mbind, M_bind, get. simpl.
    destruct (vert_polyp s !! v); simpl; [exact Hs|].
    now apply createPolyp_shaped. }
  destruct (bind_vert v s) as [[] s1|e s1]; simpl in *; [|exact Hv].
  now apply IH.
Qed.

Lemma face_loop_below `{!ShapeKept} (fuel i : nat) (s s' : Coral)
    (calls : list split_call) :
  face_loop fuel i s = Some (s', calls) →
  faces_below (mesh s) (max_polyps s) →
  faces_below (mesh s') (max_polyps s).
Proof.
  revert i s s' calls. induction fuel as [|fuel IH]; intros i s s' calls; simpl.
  - destruct (mesh_faces (mesh s) !! i); [discriminate|].
    now intros [= <- <-].
  - destruct (mesh_faces (mesh s) !! i) as [face|]; [|now intros [= <- <-]].
    pose proof (divide_face_below (max_edge_len s) (max_face_area s)
                  (max_polyps s) face (mesh s)) as Hb.
    destruct (divide_face _ _ _ _ _) as [m calls0]. simpl in Hb.
    case_bool_decide.
    + intros [= <- <-] Hm. simpl. now apply Hb.
    + destruct (face_loop fuel (S i) (set_mesh m s)) as [[s'' calls']|] eqn:E;
        [|discriminate].
      intros [= <- <-] Hm. apply (IH _ _ _ _ E). simpl. now apply Hb.
Qed.

Lemma polypDivision_shaped `{!ShapeKept} (fuel : nat) (s : Coral)
    (r : result Coral (list split_call)) :
  polypDivision fuel s = Some r → shaped s → shaped (final r).
Proof.
  unfold polypDivision.
  destruct (face_loop fuel 0 s) as [[s1 calls]|] eqn:E; [|discriminate].
  pose proof (face_loop_below _ _ _ _ _ E) as Hb.
  destruct (face_loop_mesh _ _ _ _ _ E) as [m ->].
  intros [= <-] (Hf & Hl & Hc). rewrite bind_run, bind_verts_eq.
  assert (Hs1 : shaped (set_mesh m s)).
  { split; [|split]; simpl; [|exact Hl | exact Hc]. exact (Hb Hf). }
  pose proof (bind_loop_shaped (mesh_verts (mesh (set_mesh m s)))
                (set_mesh m s) Hs1) as Hs2.
  destruct (for_in _ bind_vert (set_mesh m s)) as [[] s2|e s2]; exact Hs2.
Qed.

Lemma updateAttributes_keeps_shape `{!ShapeKept} (s : Coral) :
  shaped s → shaped (final (updateAttributes s)).
Proof.
  intros Hs. unfold updateAttributes. rewrite !bind_modify.
  match goal with |- context [calculateEnergy ?x] =>
    assert (Hx : shaped x);
    [|destruct (calculateEnergy_frame x) as [[e ->]| ->]; exact Hx] end.
  apply morphogens_update_shaped, calculate_gravity_shaped.
  destruct (sense_shaped s Hs) as (Hf & Hl & Hc).
  split; [|split]; simpl; [exact Hf| |exact Hc].
  unfold double, shift_nonzero. now rewrite !length_fmap.
Qed.

(** The mesh stays within the arrays over a [step], whatever its
    outcome. *)
Lemma step_shaped `{!ShapeKept} (fuel : nat) (s : Coral)
    (r : result Coral unit) :
  shaped s → step fuel s = Some r → shaped (final r).
Proof.
  intros Hs. pose proof (grow_polyps_shaped s Hs) as Hg. unfold step.
  destruct (position_check (grow_polyps s)); [|now intros [= <-]].
  destruct (polypDivision fuel (grow_polyps s)) as [rd|] eqn:Ed; [|discriminate].
  pose proof (polypDivision_shaped _ _ _ Ed Hg) as Hd.
  destruct rd as [calls s1|e s1]; [|now intros [= <-]].
  intros [= <-]. rewrite bind_run. simpl in Hd.
  pose proof (updateAttributes_keeps_shape s1 Hd) as Hu.
  destruct (updateAttributes s1) as [[] s2|e s2]; exact Hu.
Qed.


End Capacity.

(** The toy mesh and modules keep the mesh within the arrays. *)
Section Toy_capacity.
Import Toy.

Lemma toy_faces_below (m : tmesh) (k : Z) :
  faces_below m k ↔
  Forall (λ f, Forall (λ v, Z.of_nat v < k) (f_verts f)) (m_faces m).
Proof.
  unfold faces_below. simpl. rewrite Forall_lookup. split.
  - intros Hb i f Hi. apply Forall_forall. intros v Hv.
    apply (Hb i v).
    + apply elem_of_seq. apply lookup_lt_Some in Hi. lia.
    + rewrite Hi. exact Hv.
  - intros Hf face v _ Hv.
    destruct (m_faces m !! face) as [f|] eqn:Ef; simpl in Hv.
    + specialize (Hf _ _ Ef). rewrite Forall_forall in Hf.
      apply Hf. exact Hv.
    + now apply elem_of_nil in Hv.
Qed.

Lemma toy_split_below (m : tmesh) (face : nat) (k : Z) :
  faces_below m k → faces_below (tsplit m face k) k.
Proof.
  rewrite !toy_faces_below. intros Hm. unfold tsplit.
  case_bool_decide as Hg; [exact Hm|].
  destruct (m_faces m !! face) as [[[[l1 l2] l3] ar vs]|] eqn:Ef; [|exact Hm].
  destruct vs as [|a [|b [|c [|d vs]]]]; try exact Hm. simpl.
  pose proof (proj1 (Forall_lookup _ _) Hm _ _ Ef) as Hv. simpl in Hv.
  apply Forall_cons in Hv as [Ha Hv]. apply Forall_cons in Hv as [Hb Hv].
  apply Forall_cons in Hv as [Hc _].
  assert (Hn : Z.of_nat (length (m_verts m)) < k).
  { destruct (decide (k = -1)) as [->|Hk]; [lia|].
    destruct (decide (k ≤ Z.of_nat (length (m_verts m)))); [|lia].
    exfalso. apply Hg. now split. }
  apply Forall_app. split.
  - apply Forall_insert; [exact Hm|]. simpl. repeat constructor; assumption.
  - repeat constructor; simpl; assumption.
Qed.

Lemma toy_shape_kept : ShapeKept.
Proof.
  split.
  - exact toy_split_below.
  - intros m k Hm. exact Hm.
  - intros m k Hm. exact Hm.
  - intros s Hs. exact Hs.
  - intros s (Hf & Hl & Hc). split; [|split]; simpl; [exact Hf| |exact Hc].
    now rewrite length_imap.
  - intros s k Hs. exact Hs.
  - intros s Hs. exact Hs.
  - intros s k Hs. exact Hs.
Qed.

Lemma crowded_shaped : shaped crowded.
Proof.
  split; [|split; vm_compute; reflexivity].
  apply toy_faces_below. vm_compute.
  repeat constructor.
Qed.

Lemma crowded_calm : calm (live_entries (grow_polyps crowded)).
Proof. apply calm_check; vm_compute; reflexivity. Qed.



End Toy_capacity.

(** ** The division pass ([polypDivision]) *)

Lemma fle_not_fgt (a b : float) : fle a b = true → fgt a b = false.
Proof.
  destruct a, b; simpl; try discriminate; try reflexivity.
  intros ->. reflexivity.
Qed.

Lemma pymax3_cases (a b c : float) :
  pymax3 a b c = a ∨ pymax3 a b c = b ∨ pymax3 a b c = c.
Proof.
  unfold pymax3. destruct (fgt b a); [destruct (fgt c b) | destruct (fgt c a)];
    auto.
Qed.

Section Division.
Context `{MeshOps, !Modules}.

Lemma at_or_below_quiet (s : Coral) (m : Mesh) (face : nat) :
  at_or_below s m face → ¬ over_threshold s m face.
Proof.
  intros (Hl1 & Hl2 & Hl3 & Ha) [Ho|Ho].
  - destruct (pymax3_cases (edge_length m face 0) (edge_length m face 1)
                (edge_length m face 2)) as [E|[E|E]];
      rewrite E in Ho; [rewrite (fle_not_fgt _ _ Hl1) in Ho
                       |rewrite (fle_not_fgt _ _ Hl2) in Ho
                       |rewrite (fle_not_fgt _ _ Hl3) in Ho]; discriminate.
  - rewrite (fle_not_fgt _ _ Ha) in Ho. discriminate.
Qed.

(** One round of the loop issues at most two calls, each on the face of
    the round and each on a mesh where the face is over a threshold. *)
Lemma divide_face_calls (s : Coral) (face : nat) (m : Mesh) :
  let calls := snd (divide_face (max_edge_len s) (max_face_area s)
                      (max_polyps s) face m) in
  (length calls ≤ 2)%nat ∧
  ∀ mc f, (mc, f) ∈ calls → f = face ∧ over_threshold s mc f.
Proof.
  unfold divide_face, over_threshold.
  destruct (fgt (pymax3 _ _ _) (max_edge_len s)) eqn:E1;
    destruct (fgt (area _ face) (max_face_area s)) eqn:E2; simpl;
    (split; [lia|]); intros mc f Hin;
    rewrite ?elem_of_cons, elem_of_nil in Hin;
    repeat match goal with
           | H : _ ∨ _ |- _ => destruct H
           | H : (_, _) = (_, _) |- _ => injection H as -> ->
           | H : False |- _ => destruct H
           end; auto.
Qed.

Lemma divide_face_quiet (s : Coral) (face : nat) (m : Mesh) :
  at_or_below s m face →
  divide_face (max_edge_len s) (max_face_area s) (max_polyps s) face m
  = (m, []).
Proof.
  intros Hq. pose proof (at_or_below_quiet s m face Hq) as Hn.
  unfold divide_face, over_threshold in *.
  destruct (fgt (pymax3 _ _ _) (max_edge_len s)); [exfalso; auto|].
  destruct (fgt (area m face) (max_face_area s)); [exfalso; auto|].
  reflexivity.
Qed.

Lemma face_loop_calls (fuel i : nat) (s s' : Coral) (calls : list split_call) :
  face_loop fuel i s = Some (s', calls) →
  ∀ mc f, (mc, f) ∈ calls → over_threshold s mc f.
Proof.
  revert i s s' calls. induction fuel as [|fuel IH]; intros i s s' calls; simpl.
  - destruct (mesh_faces (mesh s) !! i); [discriminate|].
    intros [= <- <-] mc f Hin. now apply elem_of_nil in Hin.
  - destruct (mesh_faces (mesh s) !! i) as [face|].
    2: { intros [= <- <-] mc f Hin. now apply elem_of_nil in Hin. }
    pose proof (divide_face_calls s face (mesh s)) as [_ Hd].
    destruct (divide_face _ _ _ _ _) as [m calls0]. simpl in Hd.
    case_bool_decide.
    + intros [= <- <-] mc f Hin. now apply Hd.
    + destruct (face_loop fuel (S i) (set_mesh m s)) as [[s'' calls']|] eqn:E;
        [|discriminate].
      intros [= <- <-] mc f Hin. apply elem_of_app in Hin as [Hin|Hin].
      * now apply Hd.
      * apply (IH _ _ _ _ E mc f Hin).
Qed.

Lemma face_loop_quiet (fuel i : nat) (s : Coral) :
  (∀ face, face ∈ mesh_faces (mesh s) → at_or_below s (mesh s) face) →
  (length (mesh_faces (mesh s)) ≤ i + fuel)%nat →
  face_loop fuel i s = Some (s, []).
Proof.
  intros Hq. revert i. induction fuel as [|fuel IH]; intros i Hlen; simpl.
  - rewrite lookup_ge_None_2 by lia. reflexivity.
  - destruct (mesh_faces (mesh s) !! i) as [face|] eqn:Ef; [|reflexivity].
    rewrite divide_face_quiet, set_mesh_id
      by (apply Hq; eapply list_elem_of_lookup_2; exact Ef).
    case_bool_decide; [reflexivity|].
    rewrite IH by lia. reflexivity.
Qed.

(** C3 (amended).  In a pass of [polypDivision], every call of [split]
    is on a face that is over one of the two thresholds on the mesh the
    call is issued on, so a face at or below both is not split; a round
    of the loop issues at most two calls on its face (one per test); and
    on a mesh whose faces are all at or below both thresholds and whose
    vertices are all bound, a pass issues no call and changes nothing, so
    neither does any later pass. *)
Theorem division_above_threshold_only (fuel : nat) (s : Coral) :
  (∀ s' calls, face_loop fuel 0 s = Some (s', calls) →
     ∀ mc face, (mc, face) ∈ calls →
       over_threshold s mc face ∧ ¬ at_or_below s mc face) ∧
  (∀ face m,
     (length (snd (divide_face (max_edge_len s) (max_face_area s)
                     (max_polyps s) face m)) ≤ 2)%nat) ∧
  ((∀ face, face ∈ mesh_faces (mesh s) → at_or_below s (mesh s) face) →
   (∀ vert, vert ∈ mesh_verts (mesh s) → is_Some (vert_polyp s !! vert)) →
   (length (mesh_faces (mesh s)) ≤ fuel)%nat →
   polypDivision fuel s = Some (Ok [] s)).
Proof.
  split; [|split].
  - intros s' calls E mc face Hin.
    pose proof (face_loop_calls _ _ _ _ _ E mc face Hin) as Ho.
    split; [exact Ho|]. intros Hq. exact (at_or_below_quiet _ _ _ Hq Ho).
  - intros face m. apply (divide_face_calls s face m).
  - intros Hq Hb Hlen. unfold polypDivision.
    rewrite face_loop_quiet by (auto; lia).
    unfold mbind, M_bind. rewrite bind_verts_eq.
    assert (E : ∀ vs, (∀ v, v ∈ vs → is_Some (vert_polyp s !! v)) →
                for_in vs bind_vert s = Ok () s).
    { induction vs as [|v vs IH]; intros Hvs; [reflexivity|].
      rewrite for_in_cons. destruct (Hvs v) as [j Hj]; [left|].
      unfold bind_vert at 1, mbind, M_bind, get. simpl. rewrite Hj. simpl.
      apply IH. intros u Hu. apply Hvs. now right. }
    now rewrite (E _ Hb).
Qed.

End Division.

Section Toy_division.
Import Toy.

(** On the toy colony no face is over a threshold and every vertex is
    bound: a pass does nothing. *)
Lemma division_above_threshold_only_witness :
  polypDivision 5 colony = Some (Ok [] colony).
Proof.
  assert (Ef : mesh_faces (mesh colony) = [0%nat]) by (vm_compute; reflexivity).
  assert (Ev : mesh_verts (mesh colony) = [0; 1; 2]%nat)
    by (vm_compute; reflexivity).
  apply (proj2 (proj2 (division_above_threshold_only 5 colony))).
  - intros face Hf. rewrite Ef in Hf. apply list_elem_of_singleton in Hf.
    subst face. vm_compute. auto.
  - intros vert Hv. rewrite Ev, !elem_of_cons, elem_of_nil in Hv.
    destruct Hv as [->|[->|[->|[]]]]; vm_compute; eauto.
  - rewrite Ef. simpl. lia.
Defined.

(** The claim C3 as the specification states it fails: in one pass over
    the sprawling colony, the first two calls of [split] are both on
    face 0, the first on the mesh of five vertices and the second on the
    mesh of six that the first call left, and the area of the face goes
    from 10 to 10/9. *)
(** The claim C3 as the specification states it fails: in one pass over
    the sprawling colony, the first two calls of [split] are both on
    face 0, the first on the mesh of five vertices and the second on the
    mesh of six that the first call left, and the area of the face goes
    from 10 to 10/9. *)
Lemma division_splits_a_face_twice :
  ∃ s' calls,
    face_loop 20 0 sprawling = Some (s', calls) ∧
    snd <$> take 2 calls = [0; 0]%nat ∧
    (λ c, length (mesh_verts (fst c))) <$> take 2 calls = [5; 6]%nat ∧
    ¬ NoDup (snd <$> calls) ∧
    area (mesh sprawling) 0 = of_Z 10 ∧
    feq (area (mesh s') 0) (Fin (10 # 9)).
Proof.
  destruct (face_loop 20 0 sprawling) as [[s' calls]|] eqn:E.
  2: { vm_compute in E. discriminate. }
  exists s', calls. split; [reflexivity|].
  assert (Ec : match face_loop 20 0 sprawling with
               | Some (_, c) => snd <$> take 2 c
               | None => []
               end = [0; 0]%nat) by (vm_compute; reflexivity).
  assert (Ev : match face_loop 20 0 sprawling with
               | Some (_, c) => (λ c, length (mesh_verts (fst c))) <$> take 2 c
               | None => []
               end = [5; 6]%nat) by (vm_compute; reflexivity).
  assert (Ea : match face_loop 20 0 sprawling with
               | Some (s, _) => area (mesh s) 0
               | None => NaN
               end = Fin (10 # 9)) by (vm_compute; reflexivity).
  rewrite E in Ec, Ev, Ea.
  split; [exact Ec|]. split; [exact Ev|]. split; [|split].
  - clear E Ev Ea.
    destruct calls as [|[m1 f1] [|[m2 f2] rest]]; try discriminate Ec.
    injection Ec as -> ->. intros Hd.
    apply NoDup_cons in Hd as [Hd _]. apply Hd. left.
  - vm_compute. reflexivity.
  - rewrite Ea. reflexivity.
Qed.

End Toy_division.

(** ** The position check of [step] *)

Lemma position_check_spec `{Externals} (s : Coral) :
  position_check s = false ↔
  NaN ∈ live_entries s ∨ (PInf ∈ live_entries s ∧ NInf ∈ live_entries s).
Proof.
  unfold position_check, np_sum. rewrite negb_false_iff. apply pysum_isnan.
Qed.

Section Check.
Context `{MeshOps, !Modules}.

(** C7 (amended).  [step] raises the assertion ['NaN position'], on the
    state that [grow_polyps] left, as soon as an entry of a live row of
    [polyp_pos] is NaN after [grow_polyps], or the live rows hold
    infinities of both signs: the cases in which the sum of the live
    entries is NaN. *)
Theorem step_raises_on_nan (fuel : nat) (s : Coral) :
  NaN ∈ live_entries (grow_polyps s)
  ∨ (PInf ∈ live_entries (grow_polyps s) ∧ NInf ∈ live_entries (grow_polyps s)) →
  step fuel s = Some (Raised (AssertionError NaNPosition) (grow_polyps s)).
Proof.
  intros Hnan. apply position_check_spec in Hnan.
  unfold step. now rewrite Hnan.
Qed.

(** C10 (amended).  The check reads the rows [polyp_pos[:n_polyps]] and
    no other: replacing the array by one with the same live rows does not
    change its verdict; it passes when the live entries are calm, that
    is when none is NaN, they do not hold infinities of both signs, and
    the magnitudes of the finite ones add up to at most [modest_bound],
    so that their sum cannot overflow; and then [step] does not end with
    the assertion ['NaN position']. *)
Theorem position_check_reads_live_rows (s : Coral) :
  (∀ rows, take (n_polyps s) rows = take (n_polyps s) (polyp_pos s) →
     position_check (set_polyp_pos rows s) = position_check s) ∧
  (calm (live_entries s) → position_check s = true) ∧
  (∀ fuel r,
     calm (live_entries (grow_polyps s)) →
     step fuel s = Some r →
     raised r ≠ Some (AssertionError NaNPosition)).
Proof.
  split; [|split].
  - intros rows E. unfold position_check. simpl. now rewrite E.
  - apply calm_passes.
  - intros fuel r Hc. unfold step. rewrite (calm_passes _ Hc).
    destruct (polypDivision fuel (grow_polyps s)) as [rd|] eqn:Ed; [|discriminate].
    destruct rd as [calls s'|e s'].
    + intros [= <-]. unfold mbind, M_bind.
      pose proof (updateAttributes_raises s') as Hu.
      destruct (updateAttributes s') as [[] s''|e s'']; simpl in *; [discriminate|].
      intros [= ->]. specialize (Hu _ eq_refl). discriminate.
    + intros [= <-]. simpl. intros [= ->].
      destruct (polypDivision_raises _ _ _ _ Ed eq_refl) as [?|[?|?]];
        discriminate.
Qed.

End Check.

Section Toy_check.
Import Toy.

Lemma step_raises_on_nan_witness :
  step 1 feverish
  = Some (Raised (AssertionError NaNPosition) (grow_polyps feverish)).
Proof.
  apply (step_raises_on_nan 1 feverish).
  left. vm_compute. left.
Defined.

(** The claim C7 as the specification states it fails: a live position
    that is infinite, and so not finite, does not stop [step]. *)
Lemma step_continues_on_infinity :
  PInf ∈ live_entries hazy ∧
  PInf ∈ live_entries (grow_polyps hazy) ∧
  ∃ r, step 5 hazy = Some r ∧ raised r = None.
Proof.
  split; [vm_compute; left|]. split; [vm_compute; left|].
  assert (H : match step 5 hazy with
              | Some r => raised r
              | None => Some IndexError
              end = None) by (vm_compute; reflexivity).
  destruct (step 5 hazy) as [r|]; [|discriminate].
  exists r. split; [reflexivity | exact H].
Qed.

Lemma haunted_live :
  live_entries (grow_polyps haunted)
  = [of_Z 0; fadd (of_Z 0) (of_Z 1); of_Z 0;
     of_Z 1; fadd (of_Z 0) (of_Z 1); of_Z 0;
     of_Z 0; fadd (of_Z 1) (of_Z 1); of_Z 0].
Proof. vm_compute. reflexivity. Qed.

(** A NaN in a row beyond the live ones does not stop [step]. *)
Lemma position_check_reads_live_rows_witness :
  (NaN, NaN, NaN) ∈ polyp_pos (grow_polyps haunted) ∧
  position_check (grow_polyps haunted) = true ∧
  ∀ r, step 5 haunted = Some r →
       raised r ≠ Some (AssertionError NaNPosition).
Proof.
  assert (Hc : calm (live_entries (grow_polyps haunted))).
  { rewrite haunted_live. apply calm_check; vm_compute; reflexivity. }
  split; [vm_compute; do 4 right; left|]. split.
  - exact (proj1 (proj2 (position_check_reads_live_rows
                           (grow_polyps haunted))) Hc).
  - intros r.
    exact (proj2 (proj2 (position_check_reads_live_rows haunted)) 5%nat r Hc).
Defined.

(** The claim C10 as the specification states it fails: no live position
    holds a NaN, but two of them hold opposite infinities, their sum is
    NaN, and [step] raises. *)
Lemma step_raises_without_nan :
  (NaN ∉ live_entries torn) ∧
  (NaN ∉ live_entries (grow_polyps torn)) ∧
  ∃ s', step 1 torn = Some (Raised (AssertionError NaNPosition) s').
Proof.
  assert (E0 : live_entries torn
               = [PInf; of_Z 0; of_Z 0; NInf; of_Z 1; of_Z 0;
                  of_Z 0; of_Z 1; of_Z 0]) by (vm_compute; reflexivity).
  assert (E1 : live_entries (grow_polyps torn)
               = [PInf; fadd (of_Z 0) (of_Z 1); of_Z 0;
                  NInf; fadd (of_Z 1) (of_Z 1); of_Z 0;
                  of_Z 0; fadd (of_Z 1) (of_Z 1); of_Z 0])
    by (vm_compute; reflexivity).
  split; [|split].
  - rewrite E0. intros Hin. absent Hin.
  - rewrite E1. intros Hin. absent Hin.
  - exists (grow_polyps torn). vm_compute. reflexivity.
Qed.

End Toy_check.

(** ** Construction ([__init__]) *)

Section Init.
Context `{MeshOps, !Modules}.

Lemma create_loop_raises (vs : list nat) (s : Coral) (e : exn) :
  raised (for_in vs createPolyp s) = Some e →
  e = IndexError ∨ e = ValueError ∨ e = AssertionError VertIdMismatch.
Proof.
  revert s. induction vs as [|v vs IH]; intros s; [discriminate|].
  rewrite for_in_cons. destruct (createPolyp v s) as [[] s'|e' s'] eqn:E.
  - apply IH.
  - simpl. intros [= <-]. apply (createPolyp_raises v s). now rewrite E.
Qed.

Lemma create_loop_population (vs : list nat) (s : Coral) :
  max_polyps (final (for_in vs createPolyp s)) = max_polyps s ∧
  (Z.of_nat (n_polyps s) ≤ max_polyps s →
   Z.of_nat (n_polyps (final (for_in vs createPolyp s))) ≤ max_polyps s).
Proof.
  revert s. induction vs as [|v vs IH]; intros s; [simpl; auto|].
  rewrite for_in_cons.
  destruct (createPolyp_population v s) as (Hm & _ & Hb).
  destruct (createPolyp v s) as [[] s'|e s']; simpl in *; [|auto].
  destruct (IH s') as (Hm' & Hb'). rewrite Hm in *. split; [congruence | auto].
Qed.

(** A constructed coral starts within its ceiling. *)
Lemma init_population `{!PopulationKept} (m : Mesh) (net : Network) (depth : Z)
    (traits : Traits) (params : Params) (s : Coral) :
  init m net depth traits params = inr s →
  Z.of_nat (n_polyps s) ≤ max_polyps s.
Proof.
  unfold init. simpl.
  repeat (case_bool_decide; simpl; try discriminate).
  rewrite bind_run.
  match goal with |- context [for_in ?vs createPolyp ?s0] =>
    destruct (create_loop_population vs s0) as [Hm Hb];
    destruct (for_in vs createPolyp s0) as [[] s1|e1 s1]
  end; simpl in *; [|discriminate].
  rewrite !bind_modify.
  match goal with |- context [updateAttributes ?x] =>
    destruct (updateAttributes_population x) as [Hn' Hm'];
    destruct (updateAttributes x) as [[] s2|e2 s2]
  end; simpl in *; [|discriminate].
  intros [= <-]. rewrite Hn', Hm', Hm. apply Hb. lia.
Qed.

Lemma create_loop_shaped (vs : list nat) (s : Coral) :
  shaped s → shaped (final (for_in vs createPolyp s)) ∧
             mesh (final (for_in vs createPolyp s)) = mesh s ∧
             max_polyps (final (for_in vs createPolyp s)) = max_polyps s.
Proof.
  revert s. induction vs as [|v vs IH]; intros s Hs; [simpl; auto|].
  rewrite for_in_cons.
  pose proof (createPolyp_shaped v s Hs) as Hv.
  destruct (createPolyp_shape v s) as (Em & Ek & _).
  destruct (createPolyp v s) as [[] s1|e s1]; simpl in *; [|auto].
  destruct (IH s1 Hv) as (Hs' & Em' & Ek'). split; [exact Hs'|].
  split; congruence.
Qed.

(** A coral constructed from a mesh whose faces name vertices below
    [max_polyps] has its mesh within its arrays. *)
Lemma init_shaped `{!ShapeKept} (m : Mesh) (net : Network) (depth : Z)
    (traits : Traits) (params : Params) (s : Coral) :
  faces_below m (p_max_polyps params) →
  init m net depth traits params = inr s →
  shaped s.
Proof.
  intros Hm. unfold init. simpl.
  case_bool_decide as Hin; simpl; [|discriminate].
  case_bool_decide as Hout; simpl; [|discriminate].
  case_bool_decide as Hmem; simpl; [|discriminate].
  case_bool_decide as Hneg; simpl; [discriminate|].
  rewrite bind_run.
  match goal with |- context [for_in ?vs createPolyp ?s0] =>
    assert (Hs0 : shaped s0);
    [|destruct (create_loop_shaped vs s0 Hs0) as (Hs1 & Em & Ek);
      destruct (for_in vs createPolyp s0) as [[] s1|e1 s1]]
  end; [| |discriminate].
  { split; [exact Hm|]. simpl. unfold zeros.
    rewrite !length_replicate. split; lia. }
  rewrite !bind_modify. simpl in Hs1, Em, Ek.
  match goal with |- context [updateAttributes ?x] =>
    assert (Hx : shaped x);
    [|pose proof (updateAttributes_keeps_shape x Hx) as Hu;
      destruct (updateAttributes x) as [[] s2|e2 s2]]
  end; [| |discriminate].
  { destruct Hs1 as (Hf & Hl & Hc). split; [|split]; simpl; [|exact Hl|exact Hc].
    now apply calculateCurvature_below, calculateNormals_below. }
  now intros [= <-].
Qed.

(** C8.  Construction ends with one of the two assertions on the sizes
    of the network exactly when the network's input count differs from
    [5 + n_memory + n_morphogens * (morph_thresholds - 1)] or its output
    count differs from [1 + n_memory + n_morphogens]. *)
Theorem init_checks_shape (m : Mesh) (net : Network) (depth : Z)
    (traits : Traits) (params : Params) :
  shape_refused (init m net depth traits params) ↔
  NumInputs net ≠ 5 + p_polyp_memory params
                  + p_n_morphogens params * (p_morph_thresholds params - 1)
  ∨ NumOutputs net ≠ 1 + p_polyp_memory params + p_n_morphogens params.
Proof.
  unfold init, shape_refused. simpl.
  case_bool_decide as Hin; simpl; [|tauto].
  case_bool_decide as Hout; simpl; [|tauto].
  assert (Hno : ∀ r : exn + Coral,
            (∀ e, r = inl e → e = IndexError ∨ e = ValueError
                  ∨ e = AssertionError VertIdMismatch
                  ∨ e = AssertionError MemoryTooWide) →
            r = inl (AssertionError NumInputsMismatch)
            ∨ r = inl (AssertionError NumOutputsMismatch) ↔
            NumInputs net ≠ 5 + p_polyp_memory params
              + p_n_morphogens params * (p_morph_thresholds params - 1)
            ∨ NumOutputs net ≠ 1 + p_polyp_memory params + p_n_morphogens params).
  { intros r Hr. split; [|tauto].
    intros [E|E]; destruct (Hr _ E) as [?|[?|[?|?]]]; discriminate. }
  apply Hno. intros e.
  case_bool_decide; simpl; [|intros [= <-]; tauto].
  case_bool_decide; simpl; [intros [= <-]; tauto|].
  rewrite bind_run.
  match goal with |- context [for_in ?vs createPolyp ?s0] =>
    pose proof (create_loop_raises vs s0) as Hc;
    destruct (for_in vs createPolyp s0) as [[] s1|e1 s1]
  end; simpl in *.
  - rewrite !bind_modify.
    match goal with |- context [updateAttributes ?x] =>
      pose proof (updateAttributes_raises x) as Hu;
      destruct (updateAttributes x) as [[] s2|e2 s2]
    end; simpl in *; [discriminate|].
    intros [= <-]. left. now apply Hu.
  - intros [= <-]. destruct (Hc _ eq_refl) as [?|[?|?]]; tauto.
Qed.

End Init.

(** * Further properties of the code *)

(** ** Creating a polyp *)

Lemma vote_memory_other (idx : nat) (half : Z) (foo : list Z)
    (rounds : list nat) (mem : list Z) (j : nat) :
  j ≠ idx → snd (vote_memory idx half foo rounds mem) !! j = mem !! j.
Proof.
  intros Hj. revert mem. induction rounds as [|i rounds IH]; intros mem; simpl;
    [reflexivity|].
  destruct (foo !! i) as [c|]; simpl; [|reflexivity].
  case_bool_decide; [|apply IH].
  destruct (mem !! idx) as [w|]; simpl; [|reflexivity].
  rewrite IH. apply list_lookup_insert_ne. congruence.
Qed.

Section Creation.
Context `{MeshOps, !Modules}.

(** What a normal return of [createPolyp] below the ceiling has done. *)
Lemma createPolyp_created (vert : nat) (s s' : Coral) :
  Z.of_nat (n_polyps s) ≠ max_polyps s →
  createPolyp vert s = Ok () s' →
  vert = n_polyps s ∧
  (vert < length (polyp_verts s))%nat ∧
  (vert < length (polyp_pos s))%nat ∧
  n_polyps s' = S (n_polyps s) ∧
  max_polyps s' = max_polyps s ∧
  vert_polyp s' = <[vert := vert]> (vert_polyp s) ∧
  polyp_verts s' = <[vert := Some vert]> (polyp_verts s) ∧
  polyp_pos s' = <[vert := vert_p (mesh s) vert]> (polyp_pos s) ∧
  mesh s' = mesh s.
Proof.
  intros Hcap. rewrite createPolyp_unfold.
  rewrite bool_decide_eq_false_2 by exact Hcap. cbv zeta.
  repeat (case_bool_decide; simpl; try discriminate).
  all: destruct (tally _ _ _ _ _) as [foo|]; simpl; try discriminate.
  all: destruct (vote_memory _ _ _ _ _) as [[e|] memory]; simpl;
    try discriminate.
  intros [= <-]. simpl. subst vert.
  repeat split; try lia; try reflexivity; assumption.
Qed.

(** What [createPolyp] leaves alone, whatever its outcome. *)
Lemma createPolyp_frame (vert : nat) (s : Coral) (j : nat) :
  j ≠ n_polyps s →
  polyp_memory (final (createPolyp vert s)) !! j = polyp_memory s !! j ∧
  polyp_pos (final (createPolyp vert s)) !! j = polyp_pos s !! j ∧
  polyp_verts (final (createPolyp vert s)) !! j = polyp_verts s !! j ∧
  length (polyp_memory (final (createPolyp vert s))) = length (polyp_memory s) ∧
  polyp_light (final (createPolyp vert s)) = polyp_light s ∧
  polyp_collection (final (createPolyp vert s)) = polyp_collection s.
Proof.
  intros Hj. rewrite createPolyp_unfold.
  assert (Hp : ∀ x, <[n_polyps s := x]> (polyp_pos s) !! j = polyp_pos s !! j)
    by (intros x; apply list_lookup_insert_ne; congruence).
  assert (Hv : ∀ x, <[n_polyps s := x]> (polyp_verts s) !! j = polyp_verts s !! j)
    by (intros x; apply list_lookup_insert_ne; congruence).
  repeat (case_bool_decide; simpl; try (rewrite ?Hp, ?Hv; tauto)).
  all: destruct (tally _ _ _ _ _) as [foo|]; simpl;
    try (rewrite ?Hp, ?Hv; tauto).
  all: pose proof (vote_memory_other (n_polyps s)
        (Z.of_nat (length (neighbors (mesh s) vert)) / 2) foo
        (seq 0 (Z.to_nat (n_memory s))) (polyp_memory s) j Hj) as Hm.
  all: pose proof (vote_memory_frame (n_polyps s)
        (Z.of_nat (length (neighbors (mesh s) vert)) / 2) foo
        (seq 0 (Z.to_nat (n_memory s))) (polyp_memory s)) as [Hl _].
  all: destruct (vote_memory _ _ _ _ _) as [[e'|] memory]; simpl in *;
    rewrite ?Hp, ?Hv; tauto.
Qed.

(** The bindings after [createPolyp], whatever its outcome. *)
Lemma createPolyp_bindings (vert : nat) (s : Coral) :
  vert_polyp (final (createPolyp vert s))
  = (if bool_decide (Z.of_nat (n_polyps s) = max_polyps s) then vert_polyp s
     else <[vert := n_polyps s]> (vert_polyp s))
  ∧ mesh (final (createPolyp vert s)) = mesh s.
Proof.
  rewrite createPolyp_unfold.
  repeat (case_bool_decide; simpl; try (split; reflexivity)).
  all: destruct (tally _ _ _ _ _) as [foo|]; simpl; try (split; reflexivity).
  all: destruct (vote_memory _ _ _ _ _) as [[e'|] memory]; simpl;
    split; reflexivity.
Qed.

(** X1.  When [createPolyp] creates a polyp and returns, the vertex has
    the identifier of the slot it was given, the next free one; the
    vertex is bound to the slot, the slot holds the vertex and its
    position, and the counter has moved by one.  The mesh is as it
    was. *)
Theorem createPolyp_binds (vert : nat) (s s' : Coral) :
  Z.of_nat (n_polyps s) ≠ max_polyps s →
  createPolyp vert s = Ok () s' →
  vert = n_polyps s ∧
  n_polyps s' = S (n_polyps s) ∧
  vert_polyp s' = <[vert := vert]> (vert_polyp s) ∧
  polyp_verts s' !! vert = Some (Some vert) ∧
  polyp_pos s' !! vert = Some (vert_p (mesh s) vert) ∧
  mesh s' = mesh s.
Proof.
  intros Hcap Hok.
  destruct (createPolyp_created vert s s' Hcap Hok)
    as (Hid & Hlv & Hlp & Hn & _ & Hd & Hv & Hp & Hm).
  rewrite Hv, Hp. repeat split; try assumption.
  - now apply list_lookup_insert_eq.
  - now apply list_lookup_insert_eq.
Qed.

(** X2.  An exception of [createPolyp] is an [IndexError], the
    [ValueError] of a negative memory width or the assertion on the
    identifier, and it comes after the slot has been taken: there is no
    rollback, the counter stays incremented and the vertex stays bound
    to the slot. *)
Theorem createPolyp_raise_keeps_slot (vert : nat) (s : Coral) (e : exn) :
  raised (createPolyp vert s) = Some e →
  (e = IndexError ∨ e = ValueError ∨ e = AssertionError VertIdMismatch) ∧
  Z.of_nat (n_polyps s) ≠ max_polyps s ∧
  n_polyps (final (createPolyp vert s)) = S (n_polyps s) ∧
  vert_polyp (final (createPolyp vert s)) !! vert = Some (n_polyps s).
Proof.
  intros Hr. split; [exact (createPolyp_raises vert s e Hr)|].
  revert Hr. rewrite createPolyp_unfold.
  case_bool_decide as Hcap; [discriminate|]. cbv zeta. intros _.
  split; [exact Hcap|].
  repeat (case_bool_decide; simpl;
          try (split; [lia | apply lookup_insert_eq])).
  all: destruct (tally _ _ _ _ _) as [foo|]; simpl;
    try (split; [lia | apply lookup_insert_eq]).
  all: destruct (vote_memory _ _ _ _ _) as [[e'|] memory]; simpl;
    split; try lia; apply lookup_insert_eq.
Qed.

(** X3.  [createPolyp] writes no slot of an existing polyp: whatever its
    outcome, the arrays [polyp_memory], [polyp_pos] and [polyp_verts]
    keep their lengths and every cell but the one of the new slot, and
    the arrays of environment readings are left alone. *)
Theorem createPolyp_other_slots (vert : nat) (s : Coral) (j : nat) :
  j ≠ n_polyps s →
  polyp_memory (final (createPolyp vert s)) !! j = polyp_memory s !! j ∧
  polyp_pos (final (createPolyp vert s)) !! j = polyp_pos s !! j ∧
  polyp_verts (final (createPolyp vert s)) !! j = polyp_verts s !! j ∧
  length (polyp_memory (final (createPolyp vert s))) = length (polyp_memory s) ∧
  polyp_light (final (createPolyp vert s)) = polyp_light s ∧
  polyp_collection (final (createPolyp vert s)) = polyp_collection s.
Proof. apply createPolyp_frame. Qed.

End Creation.

Section Toy_creation.
Import Toy.

(** Vertex 3 of the frontier gets polyp 3. *)
Lemma createPolyp_binds_witness :
  3%nat = n_polyps frontier ∧
  n_polyps (final (createPolyp 3 frontier)) = S (n_polyps frontier) ∧
  vert_polyp (final (createPolyp 3 frontier))
  = <[3%nat := 3%nat]> (vert_polyp frontier) ∧
  polyp_verts (final (createPolyp 3 frontier)) !! 3%nat = Some (Some 3%nat) ∧
  polyp_pos (final (createPolyp 3 frontier)) !! 3%nat
  = Some (vert_p (mesh frontier) 3) ∧
  mesh (final (createPolyp 3 frontier)) = mesh frontier.
Proof.
  apply (createPolyp_binds 3 frontier (final (createPolyp 3 frontier))).
  - vm_compute. discriminate.
  - vm_compute. reflexivity.
Defined.

(** Vertex 4 of the frontier is offered slot 3: the final assertion
    fails, and the slot stays taken. *)
Lemma createPolyp_raise_keeps_slot_witness :
  (AssertionError VertIdMismatch = IndexError
   ∨ AssertionError VertIdMismatch = ValueError
   ∨ AssertionError VertIdMismatch = AssertionError VertIdMismatch) ∧
  Z.of_nat (n_polyps frontier) ≠ max_polyps frontier ∧
  n_polyps (final (createPolyp 4 frontier)) = S (n_polyps frontier) ∧
  vert_polyp (final (createPolyp 4 frontier)) !! 4%nat
  = Some (n_polyps frontier).
Proof.
  apply (createPolyp_raise_keeps_slot 4 frontier
           (AssertionError VertIdMismatch)).
  vm_compute. reflexivity.
Defined.

(** Polyp 0 of the frontier is not touched when vertex 3 gets its
    polyp. *)
Lemma createPolyp_other_slots_witness :
  polyp_memory (final (createPolyp 3 frontier)) !! 0%nat
  = polyp_memory frontier !! 0%nat ∧
  polyp_pos (final (createPolyp 3 frontier)) !! 0%nat
  = polyp_pos frontier !! 0%nat ∧
  polyp_verts (final (createPolyp 3 frontier)) !! 0%nat
  = polyp_verts frontier !! 0%nat ∧
  length (polyp_memory (final (createPolyp 3 frontier)))
  = length (polyp_memory frontier) ∧
  polyp_light (final (createPolyp 3 frontier)) = polyp_light frontier ∧
  polyp_collection (final (createPolyp 3 frontier))
  = polyp_collection frontier.
Proof.
  apply (createPolyp_other_slots 3 frontier 0).
  vm_compute. discriminate.
Defined.

End Toy_creation.

(** ** The inherited word *)

Lemma vote_memory_range (idx : nat) (half : Z) (foo : list Z)
    (rounds : list nat) (mem : list Z) (w0 w : Z) :
  mem !! idx = Some w0 → 0 ≤ w0 < 2 ^ 32 →
  snd (vote_memory idx half foo rounds mem) !! idx = Some w →
  0 ≤ w < 2 ^ 32.
Proof.
  revert mem w0. induction rounds as [|i rounds IH]; intros mem w0 Hw Hr; simpl.
  - rewrite Hw. now intros [= <-].
  - destruct (foo !! i) as [c|]; simpl; [|rewrite Hw; now intros [= <-]].
    case_bool_decide; [|now apply (IH mem w0)].
    rewrite Hw. apply (IH _ (uint32 (Z.lor w0 (bit i)))).
    + apply list_lookup_insert_eq. now apply lookup_lt_Some in Hw.
    + unfold uint32. apply Z.mod_pos_bound. lia.
Qed.

Lemma testbit_above (w : Z) (n k : Z) :
  0 ≤ w < 2 ^ n → 0 ≤ n ≤ k → Z.testbit w k = false.
Proof.
  intros Hw Hk. destruct (decide (w = 0)) as [->|Hne]; [apply Z.bits_0|].
  apply Z.bits_above_log2; [lia|].
  assert (Z.log2 w < n) by (apply Z.log2_lt_pow2; lia). lia.
Qed.

(** A word with no bit at or above [n] is below [2^n]. *)
Lemma below_pow2 (w n : Z) :
  0 ≤ w → 0 ≤ n → (∀ k, n ≤ k → Z.testbit w k = false) → w < 2 ^ n.
Proof.
  intros Hw Hn Hb.
  assert (E : w mod 2 ^ n = w).
  { apply Z.bits_inj'. intros k Hk. destruct (Z_lt_le_dec k n).
    - now apply Z.mod_pow2_bits_low.
    - rewrite Z.mod_pow2_bits_high by lia. symmetry. now apply Hb. }
  rewrite <- E. apply Z.mod_pos_bound. lia.
Qed.

Lemma votes_all (i : nat) (u : Z) (ws : list Z) :
  Forall (λ w, w = u) ws →
  votes i ws = if Z.testbit u (Z.of_nat i) then length ws else 0%nat.
Proof.
  induction 1 as [|w ws -> _ IH]; [now destruct (Z.testbit u _)|].
  rewrite votes_cons, IH. now destruct (Z.testbit u (Z.of_nat i)).
Qed.

Section Inheritance.
Context `{MeshOps, !Modules}.

(** The word that [createPolyp] leaves in a fresh slot, bit by bit. *)
Lemma inherited_word (s : Coral) (vert : nat) :
  let idx := n_polyps s in
  let ns := neighbors (mesh s) vert in
  let data := <[vert := idx]> (vert_polyp s) in
  let ws := bound_memories data (polyp_memory s) ns in
  Z.of_nat idx ≠ max_polyps s →
  (idx < length (polyp_pos s))%nat →
  (idx < length (polyp_normal s))%nat →
  (idx < length (polyp_verts s))%nat →
  0 ≤ n_memory s ≤ 32 →
  polyp_memory s !! idx = Some 0 →
  slots_in_range data (polyp_memory s) ns →
  Z.of_nat (length ns) < 2 ^ 32 →
  ∃ w, polyp_memory (final (createPolyp vert s)) !! idx = Some w ∧
       0 ≤ w ∧
       ∀ k : nat,
         Z.testbit w (Z.of_nat k) = true ↔
         Z.of_nat k < n_memory s
         ∧ Z.of_nat (length ns) / 2 < Z.of_nat (votes k ws).
Proof.
  intros idx ns data ws Hcap Hpos Hnor Hver Hmem Hzero Hslots Hlen.
  destruct (tally_Some data (polyp_memory s) (Z.to_nat (n_memory s)) ns
              (replicate (Z.to_nat (n_memory s)) 0) Hslots) as (foo & Et & Hfoo).
  assert (Hcell : ∀ i : nat, Z.of_nat i < n_memory s →
            foo !! i = Some (Z.of_nat (votes i ws))).
  { intros i Hi. rewrite Hfoo, lookup_replicate_2 by lia. simpl.
    rewrite bool_decide_eq_true_2 by lia.
    rewrite iter_bump, uint32_small; [reflexivity|].
    pose proof (votes_le i data (polyp_memory s) ns) as Hle. unfold ws. lia. }
  destruct (vote_memory_spec idx (Z.of_nat (length ns) / 2) foo
              (seq 0 (Z.to_nat (n_memory s))) (polyp_memory s) 0 Hzero)
    as (w & Ev & Hw).
  { intros i Hi. apply elem_of_seq in Hi. split; [|lia].
    rewrite Hcell by lia. eauto. }
  assert (Hidx : (idx < length (polyp_memory s))%nat)
    by (now apply lookup_lt_Some in Hzero).
  assert (Hrange : 0 ≤ w < 2 ^ 32).
  { apply (vote_memory_range idx (Z.of_nat (length ns) / 2) foo
             (seq 0 (Z.to_nat (n_memory s))) (polyp_memory s) 0 w Hzero);
      [lia|].
    rewrite Ev. simpl. now apply list_lookup_insert_eq. }
  exists w. split; [|split; [lia|]].
  - rewrite createPolyp_unfold.
    rewrite bool_decide_eq_false_2 by exact Hcap.
    cbv zeta. rewrite !bool_decide_eq_true_2 by assumption.
    rewrite (bool_decide_eq_false_2 (n_memory s < 0)) by lia.
    fold idx ns data. rewrite Et, Ev.
    case_bool_decide; simpl; now apply list_lookup_insert_eq.
  - intros k. destruct (decide (k < 32)%nat) as [Hk|Hk].
    + rewrite (Hw k Hk), Z.bits_0, elem_of_seq. split.
      * intros [Hf|[Hin (c & Hc & Hlt)]]; [discriminate|].
        assert (Hkn : Z.of_nat k < n_memory s) by lia.
        rewrite (Hcell k Hkn) in Hc. injection Hc as <-. now split.
      * intros [Hkn Hlt]. right. split; [lia|].
        exists (Z.of_nat (votes k ws)). split; [now apply Hcell | exact Hlt].
    + rewrite (testbit_above w 32 (Z.of_nat k)) by lia.
      split; [discriminate | lia].
Qed.

(** X4.  Inheritance copies a uniform neighbourhood and starts from
    nothing: a vertex with at least one neighbour, whose neighbours are
    all bound to polyps that carry the same word [u] (within the memory
    width), inherits [u]; a vertex none of whose neighbours is bound
    inherits 0. *)
Theorem inherited_word_uniform (s : Coral) (vert : nat) (u : Z) :
  let idx := n_polyps s in
  let ns := neighbors (mesh s) vert in
  let data := <[vert := idx]> (vert_polyp s) in
  let ws := bound_memories data (polyp_memory s) ns in
  Z.of_nat idx ≠ max_polyps s →
  (idx < length (polyp_pos s))%nat →
  (idx < length (polyp_normal s))%nat →
  (idx < length (polyp_verts s))%nat →
  0 ≤ n_memory s ≤ 32 →
  polyp_memory s !! idx = Some 0 →
  slots_in_range data (polyp_memory s) ns →
  Z.of_nat (length ns) < 2 ^ 32 →
  (ns ≠ [] → length ws = length ns → Forall (λ w, w = u) ws →
   0 ≤ u < 2 ^ n_memory s →
   polyp_memory (final (createPolyp vert s)) !! idx = Some u) ∧
  (ws = [] →
   polyp_memory (final (createPolyp vert s)) !! idx = Some 0).
Proof.
  intros idx ns data ws Hcap Hpos Hnor Hver Hmem Hzero Hslots Hlen.
  destruct (inherited_word s vert Hcap Hpos Hnor Hver Hmem Hzero Hslots Hlen)
    as (w & Hw & Hw0 & Hbits).
  fold idx ns data ws in Hbits. split.
  - intros Hne Hall Hu Hur. transitivity (Some w); [exact Hw|].
    f_equal. apply Z.bits_inj'. intros k Hk.
    rewrite <- (Z2Nat.id k Hk).
    assert (Hlen1 : (1 ≤ length ns)%nat) by (destruct ns; [congruence | simpl; lia]).
    specialize (Hbits (Z.to_nat k)). rewrite (votes_all _ u ws Hu), Hall in Hbits.
    destruct (Z.testbit u (Z.of_nat (Z.to_nat k))) eqn:Eu.
    + apply Hbits. split.
      * destruct (Z_lt_le_dec (Z.of_nat (Z.to_nat k)) (n_memory s)) as [Hl|Hl];
          [exact Hl|].
        rewrite (testbit_above u (n_memory s)) in Eu by lia. discriminate.
      * apply Z.div_lt_upper_bound; lia.
    + destruct (Z.testbit w (Z.of_nat (Z.to_nat k))); [|reflexivity].
      destruct (proj1 Hbits eq_refl) as [_ Hlt].
      assert (0 ≤ Z.of_nat (length ns) / 2) by (apply Z.div_pos; lia). lia.
  - intros Hnil. transitivity (Some w); [exact Hw|].
    f_equal. apply Z.bits_inj'. intros k Hk.
    rewrite Z.bits_0, <- (Z2Nat.id k Hk).
    specialize (Hbits (Z.to_nat k)). rewrite Hnil in Hbits.
    destruct (Z.testbit w (Z.of_nat (Z.to_nat k))); [|reflexivity].
    destruct (proj1 Hbits eq_refl) as [_ Hlt].
    assert (0 ≤ Z.of_nat (length ns) / 2) by (apply Z.div_pos; lia).
    change (votes (Z.to_nat k) []) with 0%nat in Hlt. lia.
Qed.

End Inheritance.

Section Toy_inherited.
Import Toy.

Lemma budding_neighbors : neighbors (mesh budding) 3 = [0; 1; 2]%nat.
Proof. vm_compute. reflexivity. Qed.

Lemma budding_slots :
  slots_in_range (<[3%nat := n_polyps budding]> (vert_polyp budding))
    (polyp_memory budding) (neighbors (mesh budding) 3).
Proof.
  intros v j Hv Hj. rewrite budding_neighbors in Hv.
  assert (El : length (polyp_memory budding) = 5%nat)
    by (vm_compute; reflexivity).
  rewrite El. rewrite !elem_of_cons, elem_of_nil in Hv.
  destruct Hv as [->|[->|[->|[]]]]; vm_compute in Hj;
    try discriminate; injection Hj as <-; lia.
Qed.

Lemma seedling_neighbors : neighbors (mesh seedling) 0 = [1; 2]%nat.
Proof. vm_compute. reflexivity. Qed.

Lemma seedling_slots :
  slots_in_range (<[0%nat := n_polyps seedling]> (vert_polyp seedling))
    (polyp_memory seedling) (neighbors (mesh seedling) 0).
Proof.
  intros v j Hv Hj. rewrite seedling_neighbors in Hv.
  rewrite !elem_of_cons, elem_of_nil in Hv.
  destruct Hv as [->|[->|[]]]; vm_compute in Hj; discriminate.
Qed.

(** Vertex 3 of [budding] has three neighbours, all with the word 1, and
    gets the word 1; the first vertex of [seedling] has no bound
    neighbour and gets the word 0. *)
Lemma inherited_word_uniform_witness :
  polyp_memory (final (createPolyp 3 budding)) !! n_polyps budding = Some 1
  ∧ polyp_memory (final (createPolyp 0 seedling)) !! n_polyps seedling
    = Some 0.
Proof.
  split.
  - apply (proj1 (inherited_word_uniform budding 3 1
      ltac:(vm_compute; discriminate) ltac:(vm_compute; lia)
      ltac:(vm_compute; lia) ltac:(vm_compute; lia)
      ltac:(vm_compute; split; discriminate) ltac:(vm_compute; reflexivity)
      budding_slots ltac:(rewrite budding_neighbors; vm_compute; reflexivity))).
    + rewrite budding_neighbors. discriminate.
    + vm_compute. reflexivity.
    + assert (E : bound_memories
                    (<[3%nat := n_polyps budding]> (vert_polyp budding))
                    (polyp_memory budding) (neighbors (mesh budding) 3)
                  = [1; 1; 1]) by (vm_compute; reflexivity).
      rewrite E. repeat constructor.
    + vm_compute. split; [discriminate | reflexivity].
  - apply (proj2 (inherited_word_uniform seedling 0 0
      ltac:(vm_compute; discriminate) ltac:(vm_compute; lia)
      ltac:(vm_compute; lia) ltac:(vm_compute; lia)
      ltac:(vm_compute; split; discriminate) ltac:(vm_compute; reflexivity)
      seedling_slots ltac:(rewrite seedling_neighbors; vm_compute; reflexivity))).
    vm_compute. reflexivity.
Defined.

End Toy_inherited.

(** ** The binding pass of [polypDivision] *)

Section Binding.
Context `{MeshOps, !Modules}.

(** One round of the binding loop keeps what is bound and the slots
    below the counter. *)
Lemma bind_vert_keeps (v : nat) (s : Coral) :
  (n_polyps s ≤ n_polyps (final (bind_vert v s)))%nat ∧
  mesh (final (bind_vert v s)) = mesh s ∧
  (∀ u j, vert_polyp s !! u = Some j →
          vert_polyp (final (bind_vert v s)) !! u = Some j) ∧
  (∀ j, (j < n_polyps s)%nat →
     polyp_memory (final (bind_vert v s)) !! j = polyp_memory s !! j ∧
     polyp_pos (final (bind_vert v s)) !! j = polyp_pos s !! j ∧
     polyp_verts (final (bind_vert v s)) !! j = polyp_verts s !! j) ∧
  polyp_light (final (bind_vert v s)) = polyp_light s ∧
  polyp_collection (final (bind_vert v s)) = polyp_collection s.
Proof.
  unfold bind_vert, mbind, M_bind, get. simpl.
  destruct (vert_polyp s !! v) as [k|] eqn:Ev; simpl.
  { repeat split; auto. }
  destruct (createPolyp_population v s) as (_ & Hn & _).
  destruct (createPolyp_bindings v s) as [Hd Hm].
  split; [exact Hn|]. split; [exact Hm|]. split; [|split; [|split]].
  - intros u j Hu. rewrite Hd. case_bool_decide; [exact Hu|].
    rewrite lookup_insert_ne; [exact Hu|]. congruence.
  - intros j Hj.
    destruct (createPolyp_frame v s j) as (Hme & Hp & Hv & _); [lia|].
    auto.
  - destruct (decide (n_polyps s = 0)%nat) as [E|E].
    + now destruct (createPolyp_frame v s 1%nat) as (_ & _ & _ & _ & Hl & _);
        [lia|].
    + now destruct (createPolyp_frame v s 0%nat) as (_ & _ & _ & _ & Hl & _);
        [lia|].
  - destruct (decide (n_polyps s = 0)%nat) as [E|E].
    + now destruct (createPolyp_frame v s 1%nat) as (_ & _ & _ & _ & _ & Hc);
        [lia|].
    + now destruct (createPolyp_frame v s 0%nat) as (_ & _ & _ & _ & _ & Hc);
        [lia|].
Qed.

Lemma bind_loop_keeps (vs : list nat) (s : Coral) :
  (n_polyps s ≤ n_polyps (final (for_in vs bind_vert s)))%nat ∧
  mesh (final (for_in vs bind_vert s)) = mesh s ∧
  (∀ u j, vert_polyp s !! u = Some j →
          vert_polyp (final (for_in vs bind_vert s)) !! u = Some j) ∧
  (∀ j, (j < n_polyps s)%nat →
     polyp_memory (final (for_in vs bind_vert s)) !! j = polyp_memory s !! j ∧
     polyp_pos (final (for_in vs bind_vert s)) !! j = polyp_pos s !! j ∧
     polyp_verts (final (for_in vs bind_vert s)) !! j = polyp_verts s !! j) ∧
  polyp_light (final (for_in vs bind_vert s)) = polyp_light s ∧
  polyp_collection (final (for_in vs bind_vert s)) = polyp_collection s.
Proof.
  revert s. induction vs as [|v vs IH]; intros s.
  - simpl. repeat split; auto.
  - rewrite for_in_cons.
    destruct (bind_vert_keeps v s) as (Hn & Hm & Hd & Hs & Hl & Hc).
    destruct (bind_vert v s) as [[] s1|e s1]; simpl in *.
    2: { repeat split; auto; apply Hs; assumption. }
    destruct (IH s1) as (Hn' & Hm' & Hd' & Hs' & Hl' & Hc').
    split; [lia|]. split; [congruence|]. split; [|split; [|split]].
    + intros u j Hu. apply Hd', Hd, Hu.
    + intros j Hj. destruct (Hs j Hj) as (E1 & E2 & E3).
      destruct (Hs' j) as (F1 & F2 & F3); [lia|].
      rewrite F1, F2, F3. auto.
    + congruence.
    + congruence.
Qed.

(** A binding loop that returns has bound its vertices or filled the
    colony. *)
Lemma bind_loop_done (vs : list nat) (s s' : Coral) :
  for_in vs bind_vert s = Ok () s' →
  Z.of_nat (n_polyps s') = max_polyps s'
  ∨ ∀ v, v ∈ vs → is_Some (vert_polyp s' !! v).
Proof.
  revert s. induction vs as [|v vs IH]; intros s.
  - intros _. right. intros v Hv. now apply elem_of_nil in Hv.
  - rewrite for_in_cons.
    destruct (bind_vert v s) as [[] s1|e s1] eqn:E1; [|discriminate].
    intros Hrest.
    assert (Hv : Z.of_nat (n_polyps s1) = max_polyps s1
                 ∨ is_Some (vert_polyp s1 !! v)).
    { revert E1. unfold bind_vert, mbind, M_bind, get. simpl.
      destruct (vert_polyp s !! v) as [k|] eqn:Ev; simpl.
      - intros [= <-]. right. rewrite Ev. eauto.
      - intros Hc.
        destruct (decide (Z.of_nat (n_polyps s) = max_polyps s)) as [Hf|Hf].
        + rewrite (createPolyp_full v s Hf) in Hc. injection Hc as <-.
          now left.
        + destruct (createPolyp_created v s s1 Hf Hc)
            as (_ & _ & _ & _ & _ & Hd & _).
          right. rewrite Hd, lookup_insert_eq. eauto. }
    destruct Hv as [Hfull|Hbound].
    + rewrite (bind_loop_full vs s1 Hfull) in Hrest. injection Hrest as <-.
      now left.
    + destruct (IH s1 Hrest) as [Hfull|Hall]; [now left|]. right.
      intros u Hu. apply elem_of_cons in Hu as [->|Hu]; [|now apply Hall].
      destruct Hbound as [k Hk].
      destruct (bind_loop_keeps vs s1) as (_ & _ & Hd & _).
      rewrite Hrest in Hd. simpl in Hd. rewrite (Hd v k Hk). eauto.
Qed.

(** A polyp that is created keeps the agreement of bindings and
    slots. *)
Lemma createPolyp_well_bound (v : nat) (s s1 : Coral) :
  createPolyp v s = Ok () s1 → well_bound s → well_bound s1.
Proof.
  intros Hc Hwb.
  destruct (decide (Z.of_nat (n_polyps s) = max_polyps s)) as [Hf|Hf].
  { rewrite (createPolyp_full v s Hf) in Hc. now injection Hc as <-. }
  destruct (createPolyp_created v s s1 Hf Hc)
    as (Hid & Hlv & _ & Hn & _ & Hd & Hv & _ & _).
  destruct Hwb as [Hto Hfrom]. split.
  - intros u j. rewrite Hd, Hn, Hv.
    destruct (decide (u = v)) as [->|Hne].
    + rewrite lookup_insert_eq. intros [= <-].
      split; [reflexivity|]. split; [lia|]. now apply list_lookup_insert_eq.
    + rewrite lookup_insert_ne by congruence. intros Hu.
      destruct (Hto u j Hu) as (Hj & Hlt & Hpv).
      split; [exact Hj|]. split; [lia|].
      rewrite list_lookup_insert_ne by congruence. exact Hpv.
  - intros j. rewrite Hd, Hn. intros Hj.
    destruct (decide (j = v)) as [->|Hne].
    + now rewrite lookup_insert_eq.
    + rewrite lookup_insert_ne by congruence. apply Hfrom. lia.
Qed.

(** A binding loop that returns keeps the agreement of bindings and
    slots. *)
Lemma bind_loop_well_bound (vs : list nat) (s s' : Coral) :
  for_in vs bind_vert s = Ok () s' → well_bound s → well_bound s'.
Proof.
  revert s. induction vs as [|v vs IH]; intros s.
  - now intros [= <-].
  - rewrite for_in_cons.
    destruct (bind_vert v s) as [[] s1|e s1] eqn:E1; [|discriminate].
    intros Hrest Hwb. apply (IH s1 Hrest).
    revert E1. unfold bind_vert, mbind, M_bind, get. simpl.
    destruct (vert_polyp s !! v) as [k|] eqn:Ev; simpl.
    { now intros [= <-]. }
    intros Hc. exact (createPolyp_well_bound v s s1 Hc Hwb).
Qed.

(** X5.  A pass of [polypDivision] that returns has bound every vertex
    of the mesh it leaves to a polyp, or has filled the colony. *)
Theorem polypDivision_binds_all_or_full (fuel : nat) (s s' : Coral)
    (calls : list split_call) :
  polypDivision fuel s = Some (Ok calls s') →
  Z.of_nat (n_polyps s') = max_polyps s'
  ∨ ∀ v, v ∈ mesh_verts (mesh s') → is_Some (vert_polyp s' !! v).
Proof.
  unfold polypDivision.
  destruct (face_loop fuel 0 s) as [[s1 calls1]|]; [|discriminate].
  rewrite bind_run, bind_verts_eq.
  destruct (for_in (mesh_verts (mesh s1)) bind_vert s1) as [[] s2|e s2] eqn:E;
    [|discriminate].
  intros [= <- <-].
  destruct (bind_loop_keeps (mesh_verts (mesh s1)) s1) as (_ & Hm & _).
  rewrite E in Hm. simpl in Hm. rewrite Hm.
  exact (bind_loop_done _ _ _ E).
Qed.

(** X6.  Whatever its outcome, a pass of [polypDivision] leaves every
    binding in place and writes no slot of a polyp that existed before:
    its memory, position and vertex are as they were, and so are the
    light and collection arrays. *)
Theorem polypDivision_keeps_polyps (fuel : nat) (s : Coral)
    (r : result Coral (list split_call)) :
  polypDivision fuel s = Some r →
  (∀ v j, vert_polyp s !! v = Some j → vert_polyp (final r) !! v = Some j) ∧
  (∀ j, (j < n_polyps s)%nat →
     polyp_memory (final r) !! j = polyp_memory s !! j ∧
     polyp_pos (final r) !! j = polyp_pos s !! j ∧
     polyp_verts (final r) !! j = polyp_verts s !! j) ∧
  polyp_light (final r) = polyp_light s ∧
  polyp_collection (final r) = polyp_collection s.
Proof.
  unfold polypDivision.
  destruct (face_loop fuel 0 s) as [[s1 calls1]|] eqn:Ef; [|discriminate].
  destruct (face_loop_mesh _ _ _ _ _ Ef) as [m ->].
  rewrite bind_run, bind_verts_eq. intros [= <-].
  destruct (bind_loop_keeps (mesh_verts (mesh (set_mesh m s))) (set_mesh m s))
    as (_ & _ & Hd & Hs & Hl & Hc).
  destruct (for_in _ bind_vert (set_mesh m s)) as [[] s2|e s2]; simpl in *;
    auto.
Qed.

(** X7.  A pass of [polypDivision] that returns keeps the identity of
    slots and vertices: if every bound vertex was bound to the live slot
    of its own identifier, which held it, and every live slot was that of
    a bound vertex, the same is true afterwards, the new polyps
    included. *)
Theorem polypDivision_well_bound (fuel : nat) (s s' : Coral)
    (calls : list split_call) :
  polypDivision fuel s = Some (Ok calls s') →
  well_bound s → well_bound s'.
Proof.
  unfold polypDivision.
  destruct (face_loop fuel 0 s) as [[s1 calls1]|] eqn:Ef; [|discriminate].
  destruct (face_loop_mesh _ _ _ _ _ Ef) as [m ->].
  rewrite bind_run, bind_verts_eq.
  destruct (for_in _ bind_vert (set_mesh m s)) as [[] s2|e s2] eqn:E;
    [|discriminate].
  intros [= <- <-] Hwb. exact (bind_loop_well_bound _ _ _ E Hwb).
Qed.

(** X8.  In a full colony the pass still tests the first face of the
    mesh, and may call [split] on it up to twice, but it looks at no
    other face: the [break] comes after the two tests. *)
Theorem polypDivision_full_first_face (fuel : nat) (s s' : Coral)
    (calls : list split_call) :
  Z.of_nat (n_polyps s) = max_polyps s →
  face_loop fuel 0 s = Some (s', calls) →
  (length calls ≤ 2)%nat ∧
  ∀ mc face, (mc, face) ∈ calls → mesh_faces (mesh s) !! 0%nat = Some face.
Proof.
  intros Hfull. destruct fuel as [|fuel]; simpl.
  - destruct (mesh_faces (mesh s) !! 0%nat); [discriminate|].
    intros [= <- <-]. split; [simpl; lia|]. intros mc face Hin.
    now apply elem_of_nil in Hin.
  - destruct (mesh_faces (mesh s) !! 0%nat) as [face0|].
    2: { intros [= <- <-]. split; [simpl; lia|]. intros mc face Hin.
         now apply elem_of_nil in Hin. }
    pose proof (divide_face_calls s face0 (mesh s)) as [Hlen Hcalls].
    destruct (divide_face _ _ _ _ _) as [m calls0]. simpl in *.
    rewrite bool_decide_eq_true_2 by exact Hfull.
    intros [= <- <-]. split; [exact Hlen|].
    intros mc face Hin. destruct (Hcalls mc face Hin) as [-> _]. reflexivity.
Qed.

(** Setting a bit below the width keeps a word within the width. *)
Lemma lor_bit_within (w n : Z) (i : nat) :
  0 ≤ w < 2 ^ n → Z.of_nat i < n → 0 ≤ Z.lor w (bit i) < 2 ^ n.
Proof.
  intros Hw Hi.
  assert (Hb : 0 ≤ bit i) by (unfold bit; apply Z.shiftl_nonneg; lia).
  assert (Hl : 0 ≤ Z.lor w (bit i)) by (apply Z.lor_nonneg; lia).
  split; [exact Hl|]. apply below_pow2; [exact Hl | lia |].
  intros k Hk. rewrite Z.lor_spec, (testbit_above w n k) by lia. simpl.
  rewrite <- (Z2Nat.id k) by lia. rewrite testbit_bit.
  apply bool_decide_eq_false_2. lia.
Qed.

Lemma vote_memory_within (idx : nat) (half : Z) (foo : list Z)
    (rounds : list nat) (mem : list Z) (n : Z) :
  0 ≤ n ≤ 32 → (∀ i, i ∈ rounds → Z.of_nat i < n) →
  (∀ j w, mem !! j = Some w → 0 ≤ w < 2 ^ n) →
  ∀ j w, snd (vote_memory idx half foo rounds mem) !! j = Some w →
         0 ≤ w < 2 ^ n.
Proof.
  intros Hn. revert mem.
  induction rounds as [|i rounds IH]; intros mem Hr Hm; simpl; [exact Hm|].
  destruct (foo !! i) as [c|]; simpl; [|exact Hm].
  assert (Hr' : ∀ k, k ∈ rounds → Z.of_nat k < n)
    by (intros k Hk; apply Hr; now right).
  case_bool_decide; [|now apply IH].
  destruct (mem !! idx) as [w0|] eqn:E0; simpl; [|exact Hm].
  apply IH; [exact Hr'|]. intros j w Hj.
  destruct (decide (j = idx)) as [->|Hne].
  - rewrite list_lookup_insert_eq in Hj by (now apply lookup_lt_Some in E0).
    injection Hj as <-.
    pose proof (lor_bit_within w0 n i (Hm _ _ E0) (Hr i ltac:(left))) as Hlor.
    assert (2 ^ n ≤ 2 ^ 32) by (apply Z.pow_le_mono_r; lia).
    rewrite uint32_small by lia. exact Hlor.
  - rewrite list_lookup_insert_ne in Hj by congruence. exact (Hm _ _ Hj).
Qed.

Lemma createPolyp_memory_within (vert : nat) (s : Coral) :
  0 ≤ n_memory s ≤ 32 → memory_within s →
  n_memory (final (createPolyp vert s)) = n_memory s ∧
  memory_within (final (createPolyp vert s)).
Proof.
  intros Hn Hm. unfold memory_within. rewrite createPolyp_unfold.
  repeat (case_bool_decide; simpl; try (split; [reflexivity | exact Hm])).
  all: destruct (tally _ _ _ _ _) as [foo|]; simpl;
    try (split; [reflexivity | exact Hm]).
  all: pose proof (vote_memory_within (n_polyps s)
        (Z.of_nat (length (neighbors (mesh s) vert)) / 2) foo
        (seq 0 (Z.to_nat (n_memory s))) (polyp_memory s) (n_memory s) Hn) as Hv.
  all: destruct (vote_memory _ _ _ _ _) as [[e'|] memory]; simpl in *.
  all: split; [reflexivity|]; apply Hv; [|exact Hm].
  all: intros i Hi; apply elem_of_seq in Hi; lia.
Qed.

Lemma bind_loop_memory_within (vs : list nat) (s : Coral) :
  0 ≤ n_memory s ≤ 32 → memory_within s →
  memory_within (final (for_in vs bind_vert s)).
Proof.
  revert s. induction vs as [|v vs IH]; intros s Hn Hm; [exact Hm|].
  rewrite for_in_cons.
  assert (Hv : n_memory (final (bind_vert v s)) = n_memory s ∧
               memory_within (final (bind_vert v s))).
  { unfold bind_vert, mbind, M_bind, get. simpl.
    destruct (vert_polyp s !! v); simpl; [auto|].
    now apply createPolyp_memory_within. }
  destruct Hv as [Hn1 Hm1].
  destruct (bind_vert v s) as [[] s1|e s1]; simpl in *; [|exact Hm1].
  apply IH; [lia | exact Hm1].
Qed.

(** X9.  The memory stays within its width: if every word of
    [polyp_memory] is below [2^n_memory], with [n_memory] between 0 and
    32, then so is every word after [createPolyp] and after a pass of
    [polypDivision], whatever their outcome. *)
Theorem memory_stays_within_width (s : Coral) :
  0 ≤ n_memory s ≤ 32 → memory_within s →
  (∀ vert, memory_within (final (createPolyp vert s))) ∧
  (∀ fuel r, polypDivision fuel s = Some r → memory_within (final r)).
Proof.
  intros Hn Hm. split.
  - intros vert. now apply createPolyp_memory_within.
  - intros fuel r. unfold polypDivision.
    destruct (face_loop fuel 0 s) as [[s1 calls1]|] eqn:Ef; [|discriminate].
    destruct (face_loop_mesh _ _ _ _ _ Ef) as [m ->].
    rewrite bind_run, bind_verts_eq. intros [= <-].
    pose proof (bind_loop_memory_within
                  (mesh_verts (mesh (set_mesh m s))) (set_mesh m s) Hn Hm) as Hl.
    destruct (for_in _ bind_vert (set_mesh m s)) as [[] s2|e s2]; exact Hl.
Qed.

End Binding.

Section Toy_binding.
Import Toy.

Lemma eager_bindings :
  vert_polyp eager = <[2%nat := 2%nat]> (<[1%nat := 1%nat]> (<[0%nat := 0%nat]> ∅)).
Proof. vm_compute. reflexivity. Qed.

Lemma eager_well_bound : well_bound eager.
Proof.
  split.
  - intros v j. rewrite eager_bindings.
    rewrite !lookup_insert_Some, lookup_empty.
    intros [[<- <-]|[_ [[<- <-]|[_ [[<- <-]|[_ ?]]]]]]; try discriminate.
    all: split; [reflexivity|]; split; vm_compute; try lia; reflexivity.
  - intros j Hj. assert (En : n_polyps eager = 3%nat) by (vm_compute; reflexivity).
    rewrite En in Hj. rewrite eager_bindings.
    destruct j as [|[|[|j]]]; try lia; vm_compute; reflexivity.
Qed.

(** The eager colony splits its face twice and fills its five slots. *)
Lemma polypDivision_binds_all_or_full_witness :
  ∃ calls s', polypDivision 5 eager = Some (Ok calls s') ∧
    (Z.of_nat (n_polyps s') = max_polyps s'
     ∨ ∀ v, v ∈ mesh_verts (mesh s') → is_Some (vert_polyp s' !! v)).
Proof.
  destruct (polypDivision 5 eager) as [[calls s'|e s']|] eqn:E.
  - exists calls, s'. split; [reflexivity|].
    exact (polypDivision_binds_all_or_full 5 eager s' calls E).
  - vm_compute in E. discriminate.
  - vm_compute in E. discriminate.
Defined.

Lemma polypDivision_keeps_polyps_witness :
  ∃ r, polypDivision 5 eager = Some r ∧
  (∀ v j, vert_polyp eager !! v = Some j →
          vert_polyp (final r) !! v = Some j) ∧
  (∀ j, (j < n_polyps eager)%nat →
     polyp_memory (final r) !! j = polyp_memory eager !! j ∧
     polyp_pos (final r) !! j = polyp_pos eager !! j ∧
     polyp_verts (final r) !! j = polyp_verts eager !! j) ∧
  polyp_light (final r) = polyp_light eager ∧
  polyp_collection (final r) = polyp_collection eager.
Proof.
  destruct (polypDivision 5 eager) as [r|] eqn:E.
  - exists r. split; [reflexivity|].
    exact (polypDivision_keeps_polyps 5 eager r E).
  - vm_compute in E. discriminate.
Defined.

Lemma polypDivision_well_bound_witness :
  ∃ calls s', polypDivision 5 eager = Some (Ok calls s') ∧ well_bound s'.
Proof.
  destruct (polypDivision 5 eager) as [[calls s'|e s']|] eqn:E.
  - exists calls, s'. split; [reflexivity|].
    exact (polypDivision_well_bound 5 eager s' calls E eager_well_bound).
  - vm_compute in E. discriminate.
  - vm_compute in E. discriminate.
Defined.

(** The packed colony is full and its face is over both thresholds:
    [split] is called on face 0, and the loop ends. *)
Lemma polypDivision_full_first_face_witness :
  ∃ s' calls, face_loop 5 0 packed = Some (s', calls) ∧
    (length calls ≤ 2)%nat ∧
    ∀ mc face, (mc, face) ∈ calls →
               mesh_faces (mesh packed) !! 0%nat = Some face.
Proof.
  destruct (face_loop 5 0 packed) as [[s' calls]|] eqn:E.
  - exists s', calls. split; [reflexivity|].
    apply (polypDivision_full_first_face 5 packed s' calls).
    + vm_compute. reflexivity.
    + exact E.
  - vm_compute in E. discriminate.
Defined.

Lemma frontier_memory_within : memory_within frontier.
Proof.
  intros j w. assert (E : polyp_memory frontier = [1; 1; 0; 0; 0])
    by (vm_compute; reflexivity).
  rewrite E. assert (En : n_memory frontier = 2) by (vm_compute; reflexivity).
  rewrite En. destruct j as [|[|[|[|[|j]]]]]; intros [= <-]; lia.
Qed.

(** The words of the frontier have two bits, before and after. *)
Lemma memory_stays_within_width_witness :
  (∀ vert, memory_within (final (createPolyp vert frontier))) ∧
  (∀ fuel r, polypDivision fuel frontier = Some r → memory_within (final r)).
Proof.
  apply (memory_stays_within_width frontier).
  - vm_compute. split; discriminate.
  - exact frontier_memory_within.
Defined.

End Toy_binding.

(** ** When [calculateEnergy] raises, and what [fitness] returns *)

Section Fitness.
Context `{MeshOps, !Modules}.

Lemma lookups_Some_range (arr : list float) (vs : list nat) (xs : list float) :
  lookups arr vs = Some xs → ∀ v, v ∈ vs → (v < length arr)%nat.
Proof.
  unfold lookups. intros E v Hv. apply mapM_Some_1 in E.
  revert v Hv. induction E as [|w x ws xs Hw _ IH]; intros v Hv.
  - now apply elem_of_nil in Hv.
  - apply elem_of_cons in Hv as [->|Hv]; [|now apply IH].
    now apply lookup_lt_Some in Hw.
Qed.

Lemma energy_loop_Some_range (m : Mesh) (L K : list float) (fs : list nat)
    (acc r : float * float) :
  energy_loop m L K fs acc = Some r →
  ∀ face v, face ∈ fs → v ∈ vertices m face →
    (v < length L)%nat ∧ (v < length K)%nat.
Proof.
  revert acc. induction fs as [|f fs IH]; intros acc E face v Hf Hv.
  - now apply elem_of_nil in Hf.
  - simpl in E.
    destruct (lookups L (vertices m f)) as [ls|] eqn:El; [|discriminate].
    destruct (lookups K (vertices m f)) as [cs|] eqn:Ek; [|discriminate].
    simpl in E. apply elem_of_cons in Hf as [->|Hf].
    + split; [exact (lookups_Some_range _ _ _ El v Hv)
             | exact (lookups_Some_range _ _ _ Ek v Hv)].
    + exact (IH _ E face v Hf Hv).
Qed.

(** A normal return of [calculateEnergy] on a triangle mesh. *)
Lemma calculateEnergy_Ok (s s' : Coral) :
  calculateEnergy s = Ok () s' → triangular (mesh s) →
  ∃ e, s' = set_energy (Some e) s ∧ feq e (weighted_energy s).
Proof.
  intros E Htri.
  assert (Hr : reads_in_range s).
  { revert E. unfold calculateEnergy, mbind, M_bind, get. simpl.
    destruct (energy_loop _ _ _ _ _) as [[l c]|] eqn:El; [|discriminate].
    intros _. exact (energy_loop_Some_range _ _ _ _ _ _ El). }
  destruct (energy_loop_spec (mesh s) (polyp_light s) (polyp_collection s)
              (mesh_faces (mesh s)) (of_Z 0, of_Z 0) Htri Hr)
    as (l & c & El & Hl & Hc).
  revert E. unfold calculateEnergy, mbind, M_bind, get. simpl.
  rewrite El. simpl. intros [= <-].
  eexists. split; [reflexivity|].
  unfold weighted_energy, surface_total, pysum. simpl in Hl, Hc.
  now rewrite Hl, Hc.
Qed.

Lemma updateAttributes_Ok (s s' : Coral) :
  updateAttributes s = Ok () s' → triangular (mesh s') →
  ∃ e, energy s' = Some e ∧ feq e (weighted_energy s').
Proof.
  unfold updateAttributes. rewrite !bind_modify.
  match goal with |- context [calculateEnergy ?x] => set (x0 := x) end.
  intros E Htri.
  assert (Hm : mesh s' = mesh x0).
  { destruct (calculateEnergy_frame x0) as [[e Ee]|Ee]; rewrite Ee in E;
      [|discriminate]. now injection E as <-. }
  rewrite Hm in Htri.
  destruct (calculateEnergy_Ok x0 s' E Htri) as (e & -> & He).
  exists e. split; [reflexivity | exact He].
Qed.

(** X10.  [calculateEnergy] returns exactly when every vertex of every
    face names a slot of [polyp_light] and of [polyp_collection], and it
    then writes [energy] and nothing else; otherwise it raises
    [IndexError] and leaves the object, the old [energy] included, as it
    was. *)
Theorem calculateEnergy_raises_iff (s : Coral) :
  (reads_in_range s ↔ ∃ e, calculateEnergy s = Ok () (set_energy (Some e) s))
  ∧ (¬ reads_in_range s ↔ calculateEnergy s = Raised IndexError s).
Proof.
  assert (Hok : reads_in_range s →
                ∃ e, calculateEnergy s = Ok () (set_energy (Some e) s)).
  { intros Hr.
    destruct (energy_loop_total (mesh s) (polyp_light s) (polyp_collection s)
                (mesh_faces (mesh s)) (of_Z 0, of_Z 0) Hr) as [[l c] E].
    unfold calculateEnergy, mbind, M_bind, get. simpl. rewrite E. simpl.
    eauto. }
  assert (Hback : ∀ r, calculateEnergy s = Ok () r → reads_in_range s).
  { intros r. unfold calculateEnergy, mbind, M_bind, get. simpl.
    destruct (energy_loop _ _ _ _ _) as [[l c]|] eqn:El; [|discriminate].
    intros _. exact (energy_loop_Some_range _ _ _ _ _ _ El). }
  split; split.
  - exact Hok.
  - intros [e E]. exact (Hback _ E).
  - intros Hn. destruct (calculateEnergy_frame s) as [[e E]|E]; [|exact E].
    destruct Hn. exact (Hback _ E).
  - intros E Hr. destruct (Hok Hr) as [e E']. congruence.
Qed.


End Fitness.

Section Toy_fitness.
Import Toy.

Lemma toy_triangular (s : Coral) :
  forallb (λ f, Nat.eqb (length (f_verts f)) 3) (m_faces (mesh s)) = true →
  triangular (mesh s).
Proof.
  intros Hall face Hf. simpl in Hf. apply elem_of_seq in Hf.
  destruct (lookup_lt_is_Some_2 (m_faces (mesh s)) face) as [f Ef]; [lia|].
  simpl. unfold vertices. simpl. rewrite Ef. simpl.
  rewrite forallb_forall in Hall. apply Nat.eqb_eq, Hall.
  apply list_elem_of_In. exact (list_elem_of_lookup_2 _ _ _ Ef).
Qed.


End Toy_fitness.

(** ** The range of the remapped light *)

Section Remap.
Context `{MeshOps, !Modules}.

(** X12.  The remap of the light is not one to one.  A finite raw value
    [q] of magnitude at most [modest_bound], which the doubling cannot
    take past the largest float64, becomes a finite value [r]: a raw
    value in [[0, 1]] lands in [[-1, 1]], and [r] is 0 exactly when [q]
    is 0 or one half, so the darkest cell and a cell at half light read
    the same afterwards. *)
Theorem light_remap_range (s : Coral) (i : nat) (q : Q) :
  keeps_light calculate_gravity →
  (∀ k, keeps_light (λ s, morphogens_update s k)) →
  (Qabs q <= modest_bound)%Q →
  polyp_light (sense s) !! i = Some (Fin q) →
  ∃ r, polyp_light (final (updateAttributes s)) !! i = Some (Fin r) ∧
       ((0 <= q)%Q ∧ (q <= 1)%Q → (-1 <= r)%Q ∧ (r <= 1)%Q) ∧
       ((r == 0)%Q ↔ (q == 0)%Q ∨ (q == 1 # 2)%Q).
Proof.
  intros Hg Hm _ Hx. rewrite (updateAttributes_light s Hg Hm).
  unfold double, shift_nonzero. rewrite !list_lookup_fmap, Hx. simpl.
  destruct (Qeq_bool q (inject_Z 0)) eqn:B; simpl.
  - apply Qeq_bool_iff in B. change (inject_Z 0) with 0%Q in B.
    eexists. split; [reflexivity|]. change (inject_Z 2) with 2%Q.
    split; [intros _; rewrite B; split; lra|].
    rewrite B. split; [intros _; left; reflexivity | intros _; lra].
  - apply Qeq_bool_neq in B. change (inject_Z 0) with 0%Q in B.
    eexists. split; [reflexivity|]. change (inject_Z 2) with 2%Q.
    split; [intros [? ?]; split; lra|].
    split.
    + intros E. right. lra.
    + intros [E|E]; [contradiction | lra].
Qed.

End Remap.

Section Toy_remap.
Import Toy.

(** The raw light of slot 0 of the toy colony is 0.75; it becomes 0.5. *)
Lemma light_remap_range_witness :
  ∃ r, polyp_light (final (updateAttributes colony)) !! 0%nat = Some (Fin r) ∧
       ((0 <= 3 # 4)%Q ∧ (3 # 4 <= 1)%Q → (-1 <= r)%Q ∧ (r <= 1)%Q) ∧
       ((r == 0)%Q ↔ (3 # 4 == 0)%Q ∨ (3 # 4 == 1 # 2)%Q).
Proof.
  apply (light_remap_range colony 0 (3 # 4)).
  - intros s. reflexivity.
  - intros k s. reflexivity.
  - vm_compute. discriminate.
  - vm_compute. reflexivity.
Defined.

End Toy_remap.

(** ** The polyps of a constructed coral *)

Section Numbering.
Context `{MeshOps, !Modules}.

(** The creation loop of [__init__], when it returns, has given the
    vertices the slots in the order of the loop, up to the ceiling. *)
Lemma create_loop_numbering (vs : list nat) (s s' : Coral) :
  for_in vs createPolyp s = Ok () s' →
  Z.of_nat (n_polyps s) ≤ max_polyps s →
  let k := (length vs `min` (Z.to_nat (max_polyps s) - n_polyps s))%nat in
  n_polyps s' = (n_polyps s + k)%nat ∧
  take k vs = seq (n_polyps s) k.
Proof.
  revert s. induction vs as [|v vs IH]; intros s.
  - intros [= <-] _. simpl. split; [lia | reflexivity].
  - rewrite for_in_cons.
    destruct (createPolyp v s) as [[] s1|e s1] eqn:E1; [|discriminate].
    intros Hrest Hle.
    destruct (decide (Z.of_nat (n_polyps s) = max_polyps s)) as [Hf|Hf].
    + rewrite (createPolyp_full v s Hf) in E1. injection E1 as <-.
      destruct (IH s Hrest Hle) as [Hn _]. cbv zeta.
      replace (Z.to_nat (max_polyps s) - n_polyps s)%nat with 0%nat in * by lia.
      rewrite Nat.min_0_r in Hn. rewrite Nat.min_0_r.
      split; [exact Hn | reflexivity].
    + destruct (createPolyp_created v s s1 Hf E1)
        as (Hid & _ & _ & Hn1 & Hm1 & _).
      destruct (IH s1 Hrest) as [Hn Ht]; [lia|].
      rewrite Hn1, Hm1 in Hn, Ht. cbv zeta.
      replace (length (v :: vs) `min` (Z.to_nat (max_polyps s) - n_polyps s))%nat
        with (S (length vs `min` (Z.to_nat (max_polyps s) - S (n_polyps s))))%nat
        by (cbn [length]; lia).
      split; [lia|]. simpl. rewrite Ht, Hid. reflexivity.
Qed.

(** X13.  A construction that succeeds has created
    [min(len(mesh.verts), max_polyps)] polyps, and the vertices that got
    them carry the identifiers 0, 1, 2, ... in the order of the mesh: a
    mesh numbered in any other way is refused by the assertion of
    [createPolyp].  The modules are taken to leave the population counter
    alone. *)
Theorem init_numbers_vertices `{!PopulationKept} (m : Mesh) (net : Network)
    (depth : Z) (traits : Traits) (params : Params) (s : Coral) :
  init m net depth traits params = inr s →
  n_polyps s
  = (length (mesh_verts m) `min` Z.to_nat (p_max_polyps params))%nat ∧
  take (n_polyps s) (mesh_verts m) = seq 0 (n_polyps s).
Proof.
  unfold init. simpl.
  case_bool_decide as Hin; simpl; [|discriminate].
  case_bool_decide as Hout; simpl; [|discriminate].
  case_bool_decide as Hmem; simpl; [|discriminate].
  case_bool_decide as Hneg; simpl; [discriminate|].
  rewrite bind_run.
  match goal with |- context [for_in ?vs createPolyp ?s0] =>
    pose proof (create_loop_numbering vs s0) as Hloop;
    destruct (for_in vs createPolyp s0) as [[] s1|e1 s1]
  end; [|discriminate].
  destruct (Hloop s1 eq_refl) as [Hn Ht]; [simpl; lia|]. clear Hloop.
  simpl in Hn, Ht. rewrite Nat.sub_0_r in Hn, Ht.
  rewrite !bind_modify.
  match goal with |- context [updateAttributes ?x] =>
    destruct (updateAttributes_population x) as [Hn' _];
    destruct (updateAttributes x) as [[] s2|e2 s2]
  end; simpl in *; [|discriminate].
  intros [= <-]. rewrite Hn', Hn. split; [reflexivity | exact Ht].
Qed.

End Numbering.

Section Toy_numbering.
Import Toy.

(** The triangle has three vertices and the colony room for five. *)
Lemma init_numbers_vertices_witness :
  ∃ s, init triangle (net 2) 1 (of_Z 1) (params 2 5 (of_Z 2)) = inr s ∧
       n_polyps s
       = (length (mesh_verts triangle)
          `min` Z.to_nat (p_max_polyps (params 2 5 (of_Z 2))))%nat ∧
       take (n_polyps s) (mesh_verts triangle) = seq 0 (n_polyps s).
Proof.
  destruct (init _ _ _ _ _) as [e|s] eqn:E.
  - vm_compute in E. discriminate.
  - exists s. split; [reflexivity|].
    pose proof toy_population_kept as K.
    exact (init_numbers_vertices
             triangle (net 2) 1 (of_Z 1) (params 2 5 (of_Z 2)) s E).
Defined.

End Toy_numbering.

(** ** The exported file ([export]) *)

Section Exported_file.
Context `{MeshOps, !Modules, !ExportOps}.

Lemma header_length (n : Z) : length (header n) = (6 + Z.to_nat n)%nat.
Proof.
  unfold header. rewrite length_app, length_fmap, length_seq. reflexivity.
Qed.

Lemma base_row_length (s : Coral) (vert i : nat) (row : list cell) :
  base_row s vert i = Some row → length row = 6%nat.
Proof.
  unfold base_row.
  destruct (polyp_light s !! i); simpl; [|discriminate].
  destruct (polyp_collection s !! i); simpl; [|discriminate].
  destruct (polyp_gravity s !! i); simpl; [|discriminate].
  destruct (polyp_memory s !! i); simpl; [|discriminate].
  destruct (polyp_collided s !! i); simpl; [|discriminate].
  now intros [= <-].
Qed.

Lemma morphogen_cells_length (s : Coral) (i : nat) (us : list cell) :
  morphogen_cells s i = Some us →
  length us = Z.to_nat (n_morphogens s).
Proof.
  unfold morphogen_cells.
  destruct (mapM _ _) as [xs|] eqn:E; simpl; [|discriminate].
  intros [= <-]. apply length_mapM in E.
  rewrite length_fmap, <- E, length_seq. reflexivity.
Qed.

(** A round of the polyp loop, when it returns. *)
Lemma fill_row_Some (s : Coral) (tbl : gmap nat nat)
    (table table' : list (option (list cell))) (i : nat) :
  fill_row s tbl table i = inr table' →
  ∃ vert indx row,
    polyp_verts s !! i = Some (Some vert) ∧ tbl !! vert = Some indx ∧
    (indx < length table)%nat ∧ polyp_cells s vert i = Some row ∧
    table' = <[indx := Some row]> table.
Proof.
  unfold fill_row, polyp_cells.
  destruct (polyp_verts s !! i) as [[vert|]|] eqn:Ev; try discriminate.
  destruct (tbl !! vert) as [indx|] eqn:Et; [|discriminate].
  destruct (base_row s vert i) as [row|] eqn:Er; [|discriminate].
  case_bool_decide as Hin; [|discriminate].
  destruct (morphogen_cells s i) as [us|] eqn:Eu; [|discriminate].
  case_bool_decide; [|discriminate].
  intros [= <-]. exists vert, indx, (row ++ us).
  rewrite Er. simpl. auto.
Qed.

Lemma fill_row_error (s : Coral) (tbl : gmap nat nat)
    (table : list (option (list cell))) (i : nat) (e : export_exn) :
  fill_row s tbl table i = inl e →
  e = ExIndexError ∨ e = ExKeyError ∨ e = ExAttributeError.
Proof.
  unfold fill_row.
  destruct (polyp_verts s !! i) as [[vert|]|]; try (intros [= <-]; tauto).
  destruct (tbl !! vert) as [indx|]; [|intros [= <-]; tauto].
  destruct (base_row s vert i) as [row|] eqn:Er; [|intros [= <-]; tauto].
  case_bool_decide as Hin; [|intros [= <-]; tauto].
  destruct (morphogen_cells s i) as [us|] eqn:Eu; [|intros [= <-]; tauto].
  rewrite bool_decide_eq_true_2; [discriminate|].
  rewrite length_app, header_length, (base_row_length _ _ _ _ Er),
    (morphogen_cells_length _ _ _ Eu). reflexivity.
Qed.

Lemma fill_rows_error (s : Coral) (tbl : gmap nat nat) (polyps : list nat)
    (table : list (option (list cell))) (e : export_exn) :
  fill_rows s tbl table polyps = inl e →
  e = ExIndexError ∨ e = ExKeyError ∨ e = ExAttributeError.
Proof.
  revert table. induction polyps as [|i polyps IH]; intros table; simpl.
  - discriminate.
  - destruct (fill_row s tbl table i) as [e'|table'] eqn:E.
    + intros [= <-]. exact (fill_row_error _ _ _ _ _ E).
    + apply IH.
Qed.

Lemma vert_loop_error (s : Coral) (vs : list nat) (i : nat)
    (tbl0 tbl : gmap nat nat) (lines : list line) (e : export_exn) :
  vert_loop s i vs tbl0 = (lines, tbl, Some e) → e = ExIndexError.
Proof.
  revert i tbl0 lines. induction vs as [|v vs IH]; intros i tbl0 lines; simpl.
  - discriminate.
  - destruct (if bool_decide (Z.of_nat 0 < n_morphogens s) then _ else _);
      [|now intros [= _ _ <-]].
    destruct (if bool_decide (Z.of_nat 1 < n_morphogens s) then _ else _);
      [|now intros [= _ _ <-]].
    destruct (vert_loop s (S i) vs (<[v := i]> tbl0)) as [[ls t] e'] eqn:E.
    intros [= _ -> ->]. exact (IH _ _ _ E).
Qed.

Lemma row_lines_error (table : list (option (list cell))) (lines : list line)
    (e : export_exn) :
  row_lines table = (lines, Some e) → e = ExTypeError.
Proof.
  revert lines. induction table as [|[row|] table IH]; intros lines; simpl.
  - discriminate.
  - destruct (row_lines table) as [ls e'] eqn:E. intros [= _ ->].
    exact (IH _ eq_refl).
  - now intros [= _ <-].
Qed.

(** The dictionary [id_to_indx] sends a vertex to a position at which
    the loop met it. *)
Lemma vert_loop_positions (s : Coral) (vs : list nat) (i : nat)
    (tbl0 tbl : gmap nat nat) (lines : list line) :
  vert_loop s i vs tbl0 = (lines, tbl, None) →
  length lines = length vs ∧
  ∀ v k, tbl !! v = Some k →
    tbl0 !! v = Some k ∨ ((i ≤ k)%nat ∧ vs !! (k - i)%nat = Some v).
Proof.
  revert i tbl0 lines. induction vs as [|v vs IH]; intros i tbl0 lines; simpl.
  - intros [= <- <-]. split; [reflexivity|]. auto.
  - destruct (if bool_decide (Z.of_nat 0 < n_morphogens s) then _ else _);
      [|discriminate].
    destruct (if bool_decide (Z.of_nat 1 < n_morphogens s) then _ else _);
      [|discriminate].
    destruct (vert_loop s (S i) vs (<[v := i]> tbl0)) as [[ls t] e'] eqn:E.
    intros [= <- <- ->]. destruct (IH _ _ _ E) as [Hlen Hpos].
    split; [simpl; now rewrite Hlen|].
    intros u k Hu. destruct (Hpos u k Hu) as [Hold|[Hle Hk]].
    + apply lookup_insert_Some in Hold as [[<- <-]|[_ Hold]]; [|now left].
      right. split; [lia|]. now rewrite Nat.sub_diag.
    + right. split; [lia|].
      replace (k - i)%nat with (S (k - S i)) by lia. exact Hk.
Qed.

Lemma fill_rows_from_polyps (s : Coral) (tbl : gmap nat nat)
    (polyps : list nat) (table table' : list (option (list cell))) :
  (∀ v k, tbl !! v = Some k → mesh_verts (mesh s) !! k = Some v) →
  (∀ i, i ∈ polyps → (i < n_polyps s)%nat) →
  fill_rows s tbl table polyps = inr table' →
  from_polyps s table →
  length table' = length table ∧ from_polyps s table'.
Proof.
  intros Htbl. revert table.
  induction polyps as [|i polyps IH]; intros table Hlt; simpl.
  - intros [= <-]. auto.
  - destruct (fill_row s tbl table i) as [e|table1] eqn:E; [discriminate|].
    intros Hrest Hinv.
    destruct (fill_row_Some _ _ _ _ _ E)
      as (vert & indx & row & Hv & Ht & Hin & Hc & ->).
    destruct (IH (<[indx := Some row]> table)) as [Hlen Hinv'].
    + intros j Hj. apply Hlt. now right.
    + exact Hrest.
    + intros k r Hk.
      destruct (decide (k = indx)) as [->|Hne].
      * rewrite list_lookup_insert_eq in Hk by exact Hin.
        injection Hk as <-. exists i, vert.
        split; [apply Hlt; left|]. auto.
      * rewrite list_lookup_insert_ne in Hk by congruence. exact (Hinv k r Hk).
    + rewrite length_insert in Hlen. auto.
Qed.

Lemma row_lines_Some (table : list (option (list cell))) (lines : list line) :
  row_lines table = (lines, None) →
  ∃ rows, lines = LRow <$> rows ∧ table = Some <$> rows.
Proof.
  revert lines. induction table as [|[row|] table IH]; intros lines; simpl.
  - intros [= <-]. now exists [].
  - destruct (row_lines table) as [ls e] eqn:E. intros [= <- ->].
    destruct (IH _ eq_refl) as (rows & -> & ->). now exists (row :: rows).
  - discriminate.
Qed.

(** X14.  [export] never fails its own assertion: the row built for a
    polyp has the width of the header, whatever the number of
    morphogens.  The exceptions it can end with are [IndexError],
    [KeyError], the [AttributeError] of a slot without a vertex and the
    [TypeError] of a row that was never filled. *)
Theorem export_assertion_holds (s : Coral) (e : export_exn) :
  snd (export s) = Some e →
  e = ExIndexError ∨ e = ExKeyError ∨ e = ExAttributeError ∨ e = ExTypeError.
Proof.
  unfold export.
  destruct (vert_loop s 0 (mesh_verts (mesh s)) ∅) as [[verts tbl] [e1|]] eqn:Ev.
  { simpl. intros [= <-]. left. exact (vert_loop_error _ _ _ _ _ _ _ Ev). }
  destruct (fill_rows s tbl _ _) as [e2|table] eqn:Ef.
  { simpl. intros [= <-].
    destruct (fill_rows_error _ _ _ _ _ Ef) as [-> | [-> | ->]]; tauto. }
  destruct (row_lines table) as [rows [e3|]] eqn:Er; simpl.
  - intros [= <-]. right. right. right. exact (row_lines_error _ _ _ Er).
  - discriminate.
Qed.

(** X15.  A file that [export] finishes has the three header lines, one
    ['v'] line per vertex of the mesh, two empty lines, one ['c'] line
    per polyp, an empty line and the ['f'] lines; and the ['c'] lines
    follow the vertices: line [k] holds the attributes of a polyp whose
    vertex is the [k]-th vertex of the mesh. *)
Theorem export_rows_follow_vertices (s : Coral) (lines : list line) :
  export s = (lines, None) →
  ∃ verts rows,
    lines = [LBanner; LSize (polyp_size s); LHeader (header (n_morphogens s))]
            ++ verts ++ [LBlank; LBlank] ++ (LRow <$> rows) ++ [LBlank]
            ++ face_lines (export_faces (mesh s)) ∧
    length verts = length (mesh_verts (mesh s)) ∧
    length rows = n_polyps s ∧
    ∀ k row, rows !! k = Some row →
      ∃ i vert, (i < n_polyps s)%nat ∧
        polyp_verts s !! i = Some (Some vert) ∧
        mesh_verts (mesh s) !! k = Some vert ∧
        polyp_cells s vert i = Some row.
Proof.
  unfold export.
  destruct (vert_loop s 0 (mesh_verts (mesh s)) ∅) as [[verts tbl] [e1|]] eqn:Ev;
    [discriminate|].
  destruct (fill_rows s tbl _ _) as [e2|table] eqn:Ef; [discriminate|].
  destruct (row_lines table) as [ls [e3|]] eqn:Er; [discriminate|].
  intros [= <-].
  destruct (vert_loop_positions _ _ _ _ _ _ Ev) as [Hlen Hpos].
  destruct (row_lines_Some _ _ Er) as (rows & -> & ->).
  destruct (fill_rows_from_polyps s tbl (seq 0 (n_polyps s))
              (replicate (n_polyps s) None) (Some <$> rows)) as [Hl Hinv].
  - intros v k Hk. destruct (Hpos v k Hk) as [Hold|[_ Hk']].
    + now rewrite lookup_empty in Hold.
    + now rewrite Nat.sub_0_r in Hk'.
  - intros i Hi. apply elem_of_seq in Hi. lia.
  - exact Ef.
  - intros k row Hk. apply lookup_replicate in Hk as [Hk _]. discriminate.
  - exists verts, rows. rewrite <- !app_assoc. split; [reflexivity|].
    split; [exact Hlen|].
    rewrite length_fmap, length_replicate in Hl. split; [exact Hl|].
    intros k row Hk. apply (Hinv k row).
    now rewrite list_lookup_fmap, Hk.
Qed.

(** The loop over the vertices on a mesh numbered in order. *)
Lemma vert_loop_seq (s : Coral) (k i : nat) (tbl0 : gmap nat nat) :
  (∀ j p, Z.of_nat j < n_morphogens s → (i ≤ p < i + k)%nat →
          is_Some (morphogen_U (morphogens s) j p)) →
  ∃ lines tbl, vert_loop s i (seq i k) tbl0 = (lines, tbl, None) ∧
    (∀ v, (i ≤ v < i + k)%nat → tbl !! v = Some v) ∧
    (∀ v, (v < i)%nat → tbl !! v = tbl0 !! v).
Proof.
  revert i tbl0. induction k as [|k IH]; intros i tbl0 HU; simpl.
  - exists [], tbl0. split; [reflexivity|]. split; [lia | auto].
  - assert (Hch : ∀ j : nat, ∃ x,
      (if bool_decide (Z.of_nat j < n_morphogens s)
       then morphogen_U (morphogens s) j i else Some (of_Z 0)) = Some x).
    { intros j. case_bool_decide as Hj; [|eauto].
      destruct (HU j i Hj) as [x Hx]; [lia | eauto]. }
    destruct (Hch 0%nat) as [g ->]. destruct (Hch 1%nat) as [b ->].
    destruct (IH (S i) (<[i := i]> tbl0)) as (lines & tbl & -> & Hin & Hout).
    { intros j p Hj Hp. apply HU; [exact Hj | lia]. }
    eexists _, tbl. split; [reflexivity|]. split.
    + intros v Hv. destruct (decide (v = i)) as [->|Hne].
      * rewrite Hout by lia. apply lookup_insert_eq.
      * apply Hin. lia.
    + intros v Hv. rewrite Hout by lia. apply lookup_insert_ne. lia.
Qed.

Lemma fill_row_ok (s : Coral) (tbl : gmap nat nat)
    (table : list (option (list cell))) (i vert indx : nat) (row : list cell) :
  polyp_verts s !! i = Some (Some vert) → tbl !! vert = Some indx →
  (indx < length table)%nat → polyp_cells s vert i = Some row →
  fill_row s tbl table i = inr (<[indx := Some row]> table).
Proof.
  intros Hv Ht Hin Hrow. unfold polyp_cells in Hrow. unfold fill_row.
  rewrite Hv, Ht.
  destruct (base_row s vert i) as [r|] eqn:Er; [|discriminate].
  destruct (morphogen_cells s i) as [us|] eqn:Eu; [|discriminate].
  simpl in Hrow. injection Hrow as <-.
  rewrite bool_decide_eq_true_2 by exact Hin.
  rewrite bool_decide_eq_true_2; [reflexivity|].
  rewrite length_app, header_length, (base_row_length _ _ _ _ Er),
    (morphogen_cells_length _ _ _ Eu). reflexivity.
Qed.

(** The loop over the polyps when polyp [i] sits on vertex [i], at
    position [i]. *)
Lemma fill_rows_seq (s : Coral) (tbl : gmap nat nat) (k m : nat)
    (table : list (option (list cell))) :
  (∀ i, (m ≤ i < m + k)%nat →
     polyp_verts s !! i = Some (Some i) ∧ tbl !! i = Some i ∧
     (i < length table)%nat ∧ is_Some (polyp_cells s i i)) →
  ∃ table', fill_rows s tbl table (seq m k) = inr table' ∧
    length table' = length table ∧
    (∀ i, (m ≤ i < m + k)%nat → table' !! i = Some (polyp_cells s i i)) ∧
    (∀ i, (i < m)%nat → table' !! i = table !! i).
Proof.
  revert m table. induction k as [|k IH]; intros m table Hall; simpl.
  - exists table. split; [reflexivity|]. split; [reflexivity|].
    split; [lia | auto].
  - destruct (Hall m) as (Hv & Ht & Hin & [row Hrow]); [lia|].
    rewrite (fill_row_ok s tbl table m m m row Hv Ht Hin Hrow).
    destruct (IH (S m) (<[m := Some row]> table))
      as (table' & -> & Hlen & Hdone & Hkept).
    { intros i Hi. destruct (Hall i) as (? & ? & ? & ?); [lia|].
      rewrite length_insert. auto. }
    exists table'. split; [reflexivity|].
    rewrite length_insert in Hlen. split; [exact Hlen|]. split.
    + intros i Hi. destruct (decide (i = m)) as [->|Hne].
      * rewrite Hkept by lia. rewrite list_lookup_insert_eq by exact Hin.
        now rewrite Hrow.
      * apply Hdone. lia.
    + intros i Hi. rewrite Hkept by lia.
      apply list_lookup_insert_ne. lia.
Qed.

Lemma row_lines_all (rows : list (list cell)) :
  row_lines (Some <$> rows) = (LRow <$> rows, None).
Proof.
  induction rows as [|row rows IH]; [reflexivity|].
  rewrite fmap_cons. cbn [row_lines]. now rewrite IH.
Qed.

Lemma all_filled (table : list (option (list cell))) :
  (∀ i, (i < length table)%nat → ∃ row, table !! i = Some (Some row)) →
  ∃ rows, table = Some <$> rows.
Proof.
  induction table as [|[row|] table IH]; intros Hall.
  - now exists [].
  - destruct IH as [rows ->].
    { intros i Hi. apply (Hall (S i)). simpl. lia. }
    now exists (row :: rows).
  - destruct (Hall 0%nat) as [row Hrow]; [simpl; lia | discriminate].
Qed.

Lemma polyp_cells_Some (s : Coral) (i : nat) :
  exportable s → (i < n_polyps s)%nat → is_Some (polyp_cells s i i).
Proof.
  intros (_ & _ & Hl & Hc & Hg & Hm & Hd & HU) Hi.
  unfold polyp_cells, base_row.
  destruct (lookup_lt_is_Some_2 (polyp_light s) i) as [? ->]; [lia|].
  destruct (lookup_lt_is_Some_2 (polyp_collection s) i) as [? ->]; [lia|].
  destruct (lookup_lt_is_Some_2 (polyp_gravity s) i) as [? ->]; [lia|].
  destruct (lookup_lt_is_Some_2 (polyp_memory s) i) as [? ->]; [lia|].
  destruct (lookup_lt_is_Some_2 (polyp_collided s) i) as [? ->]; [lia|].
  simpl. unfold morphogen_cells.
  assert (Hus : is_Some (mapM (λ j, morphogen_U (morphogens s) j i)
                           (seq 0 (Z.to_nat (n_morphogens s))))).
  { apply mapM_is_Some, Forall_forall. intros j Hj.
    apply elem_of_seq in Hj. apply HU; [lia | exact Hi]. }
  destruct Hus as [us ->]. simpl. eauto.
Qed.

(** X16.  A colony whose bindings and slots agree, whose mesh has the
    polyps' vertices and no other, numbered in order, and whose arrays
    and [U] cover the live slots, is exported without an exception, and
    the ['c'] line [k] holds the attributes of polyp [k], the polyp of
    the [k]-th vertex. *)
Theorem export_of_a_colony (s : Coral) :
  exportable s →
  ∃ verts rows,
    export s
    = ([LBanner; LSize (polyp_size s); LHeader (header (n_morphogens s))]
       ++ verts ++ [LBlank; LBlank] ++ (LRow <$> rows) ++ [LBlank]
       ++ face_lines (export_faces (mesh s)), None) ∧
    length verts = n_polyps s ∧
    length rows = n_polyps s ∧
    ∀ k, (k < n_polyps s)%nat → polyp_cells s k k = rows !! k.
Proof.
  intros Hex. pose proof Hex as ([Hto Hfrom] & Hverts & _ & _ & _ & _ & _ & HU).
  unfold export. rewrite Hverts.
  destruct (vert_loop_seq s (n_polyps s) 0 ∅) as (verts & tbl & Ev & Hid & _).
  { intros j p Hj Hp. apply HU; [exact Hj | lia]. }
  rewrite Ev.
  destruct (vert_loop_positions _ _ _ _ _ _ Ev) as [Hlen _].
  rewrite length_seq in Hlen.
  destruct (fill_rows_seq s tbl (n_polyps s) 0 (replicate (n_polyps s) None))
    as (table & -> & Htl & Hdone & _).
  { intros i Hi. rewrite length_replicate.
    destruct (Hto i i (Hfrom i ltac:(lia))) as (_ & _ & Hpv).
    split; [exact Hpv|]. split; [apply Hid; lia|]. split; [lia|].
    apply polyp_cells_Some; [exact Hex | lia]. }
  rewrite length_replicate in Htl.
  destruct (all_filled table) as [rows ->].
  { intros i Hi. rewrite Hdone by lia.
    destruct (polyp_cells_Some s i Hex) as [row ->]; [lia | eauto]. }
  rewrite row_lines_all. exists verts, rows. rewrite <- !app_assoc.
  split; [reflexivity|]. split; [exact Hlen|].
  rewrite length_fmap in Htl. split; [exact Htl|].
  intros k Hk. specialize (Hdone k ltac:(lia)).
  rewrite list_lookup_fmap in Hdone.
  destruct (rows !! k) as [row|]; simpl in Hdone; [|discriminate].
  now injection Hdone as <-.
Qed.

End Exported_file.

Section Toy_exported.
Import Toy Toy_export.

Lemma colony_bindings :
  vert_polyp colony
  = <[2%nat := 2%nat]> (<[1%nat := 1%nat]> (<[0%nat := 0%nat]> ∅)).
Proof. vm_compute. reflexivity. Qed.

Lemma colony_well_bound : well_bound colony.
Proof.
  split.
  - intros v j. rewrite colony_bindings.
    rewrite !lookup_insert_Some, lookup_empty.
    intros [[<- <-]|[_ [[<- <-]|[_ [[<- <-]|[_ ?]]]]]]; try discriminate.
    all: split; [reflexivity|]; split; vm_compute; try lia; reflexivity.
  - intros j Hj.
    assert (En : n_polyps colony = 3%nat) by (vm_compute; reflexivity).
    rewrite En in Hj. rewrite colony_bindings.
    destruct j as [|[|[|j]]]; try lia; vm_compute; reflexivity.
Qed.

Lemma colony_exportable : exportable colony.
Proof.
  split; [exact colony_well_bound|].
  split; [vm_compute; reflexivity|].
  do 5 (split; [vm_compute; lia|]).
  intros j i Hj Hi.
  assert (En : n_polyps colony = 3%nat) by (vm_compute; reflexivity).
  assert (Em : n_morphogens colony = 1) by (vm_compute; reflexivity).
  rewrite En in Hi. rewrite Em in Hj.
  destruct j as [|j]; [|lia].
  destruct i as [|[|[|i]]]; try lia; vm_compute; eauto.
Qed.

(** After the failed assertion of [createPolyp 4 frontier], polyp 3 sits
    on the fifth vertex, and [polyp_attributes] has four entries. *)
Lemma export_assertion_holds_witness :
  ExIndexError = ExIndexError ∨ ExIndexError = ExKeyError
  ∨ ExIndexError = ExAttributeError ∨ ExIndexError = ExTypeError.
Proof.
  apply (export_assertion_holds (final (createPolyp 4 frontier)) ExIndexError).
  vm_compute. reflexivity.
Defined.

(** The frontier has five vertices and three polyps. *)
Lemma export_rows_follow_vertices_witness :
  ∃ verts rows,
    fst (export frontier)
    = [LBanner; LSize (polyp_size frontier);
       LHeader (header (n_morphogens frontier))]
      ++ verts ++ [LBlank; LBlank] ++ (LRow <$> rows) ++ [LBlank]
      ++ face_lines (export_faces (mesh frontier)) ∧
    length verts = length (mesh_verts (mesh frontier)) ∧
    length rows = n_polyps frontier ∧
    ∀ k row, rows !! k = Some row →
      ∃ i vert, (i < n_polyps frontier)%nat ∧
        polyp_verts frontier !! i = Some (Some vert) ∧
        mesh_verts (mesh frontier) !! k = Some vert ∧
        polyp_cells frontier vert i = Some row.
Proof.
  apply (export_rows_follow_vertices frontier (fst (export frontier))).
  vm_compute. reflexivity.
Defined.

Lemma export_of_a_colony_witness :
  ∃ verts rows,
    export colony
    = ([LBanner; LSize (polyp_size colony);
        LHeader (header (n_morphogens colony))]
       ++ verts ++ [LBlank; LBlank] ++ (LRow <$> rows) ++ [LBlank]
       ++ face_lines (export_faces (mesh colony)), None) ∧
    length verts = n_polyps colony ∧
    length rows = n_polyps colony ∧
    ∀ k, (k < n_polyps colony)%nat → polyp_cells colony k k = rows !! k.
Proof. exact (export_of_a_colony colony colony_exportable). Defined.

End Toy_exported.
